(** * Switch capacity-expansion model: formulation engine

    A shallow embedding of the Pyomo formulation found in
    - [switch_model/balancing/load_zones.py]
    - [switch_model/generators/core/build.py]
    - [switch_model/generators/extensions/storage.py]
    - [switch_model/transmission/transport/dispatch.py]

    Pyomo's [Reals] domain is Rocq's [R]; index sets are lists; a [Param]
    read from a table is a function (to [option] when the table may leave
    it out); a [Var] is a field of the [solution] record; a [Constraint]
    is the list of relations its rule emits over its index set. *)

From Stdlib Require Import Reals Lra Lia ZArith List String Bool Permutation.
Import ListNotations.
Local Open Scope R_scope.

Set Implicit Arguments.

(** ** Identifiers *)

Definition zone := string.
Definition gen := string.
Definition tx_line := string.
Definition period := Z.
Definition year := Z.
Definition timepoint := Z.

(** ** A small Pyomo kernel *)

Module Pyomo.

(** Python exceptions that the modelled code can raise. *)
Inductive exn : Type :=
| AttributeError (name : string)
| ValueError (msg : string)
| ZeroDivisionError
| KeyError (key : string)
| RuntimeError (param index : string).

Inductive outcome (A : Type) : Type :=
| Done (a : A)
| Raised (e : exn).
Arguments Done {A} a.
Arguments Raised {A} e.

Definition bind {A B} (x : outcome A) (k : A -> outcome B) : outcome B :=
  match x with
  | Done a => k a
  | Raised e => Raised e
  end.

Notation "x <- c ;; k" := (bind c (fun x => k))
  (at level 61, c at next level, right associativity).

(** A relational expression returned by a constraint rule, already
    evaluated at the values of the decision variables. *)
Inductive constraint : Type :=
| EqC (lhs rhs : R)
| LeC (lhs rhs : R)
| GeC (lhs rhs : R).

Definition satisfied (c : constraint) : Prop :=
  match c with
  | EqC l r => l = r
  | LeC l r => l <= r
  | GeC l r => l >= r
  end.

(** [Constraint(index, rule=...)]: one relation per index, except where
    the rule returns [Constraint.Skip] (here [None]). *)
Definition Constraint {I : Type} (index : list I)
           (rule : I -> option constraint) : list (I * constraint) :=
  flat_map (fun i => match rule i with
                     | Some c => [(i, c)]
                     | None => []
                     end) index.

(** The same, for a rule whose evaluation can raise. *)
Fixpoint Constraint_try {I : Type} (index : list I)
         (rule : I -> outcome constraint) : outcome (list (I * constraint)) :=
  match index with
  | [] => Done []
  | i :: rest =>
      c <- rule i ;;
      cs <- Constraint_try rest rule ;;
      Done ((i, c) :: cs)
  end.

Definition all_satisfied {I : Type} (cs : list (I * constraint)) : Prop :=
  Forall (fun ic => satisfied (snd ic)) cs.

(** Python's [sum] over a generator of numbers. *)
Definition psum (xs : list R) : R := fold_right Rplus 0 xs.

(** A parameter that may hold [float("inf")]. *)
Inductive xreal : Type :=
| finite (x : R)
| inf.

Definition is_inf (x : xreal) : bool :=
  match x with
  | inf => true
  | finite _ => false
  end.

(** [Param(..., default=d)]. *)
Definition with_default {A : Type} (d : A) (v : option A) : A :=
  match v with
  | Some a => a
  | None => d
  end.

(** Comparisons of numbers, as Python booleans. *)
Definition Rleb (x y : R) : bool := if Rle_dec x y then true else false.
Definition Rltb (x y : R) : bool := if Rlt_dec x y then true else false.
Definition Reqb (x y : R) : bool := if Req_dec_T x y then true else false.

(** Variable domains and bounds. *)
Definition NonNegativeReals (v : R) : Prop := 0 <= v.
Definition Binary (v : R) : Prop := v = 0 \/ v = 1.

Definition bounds := (option R * option R)%type.

Definition within_bounds (b : bounds) (v : R) : Prop :=
  match fst b with Some lo => lo <= v | None => True end /\
  match snd b with Some hi => v <= hi | None => True end.

(** [Var(index, within=domain, bounds=...)]: what a value assignment
    must satisfy at every index. *)
Definition Var {I : Type} (index : list I) (domain : R -> Prop)
           (bnds : I -> bounds) (value : I -> R) : Prop :=
  forall i, In i index -> domain (value i) /\ within_bounds (bnds i) (value i).

Definition unbounded {I : Type} (_ : I) : bounds := (None, None).

(** [BuildCheck(index, rule=...)] raises when the rule is false at some
    index. *)
Definition BuildCheck {I : Type} (index : list I) (rule : I -> bool)
  : outcome unit :=
  if forallb rule index then Done tt
  else Raised (ValueError "BuildCheck identified error").

(** Membership tests on index sets. *)
Definition in_strs (x : string) (l : list string) : bool :=
  existsb (String.eqb x) l.
Definition in_Zs (x : Z) (l : list Z) : bool :=
  existsb (Z.eqb x) l.
Definition in_pairs (x : string * Z) (l : list (string * Z)) : bool :=
  existsb (fun y => String.eqb (fst x) (fst y) && Z.eqb (snd x) (snd y)) l.
Definition in_zone_pairs (x : string * string) (l : list (string * string)) : bool :=
  existsb (fun y => String.eqb (fst x) (fst y) && String.eqb (snd x) (snd y)) l.

End Pyomo.
Import Pyomo.

(** ** The model object

    The tables an instance is built from. The temporal index comes from
    [switch_model.timescales], [gen_load_zone] and the project list from
    [generation_projects_info.csv], [TPS_FOR_GEN] from the dispatch module,
    the line tables from [switch_model.transmission.transport.build]. A
    column with a default, or one a row may leave out, is an [option]. *)

Record model : Type := {
  (* timescales *)
  PERIODS : list period;
  period_start : period -> R;
  period_length_years : period -> R;
  TIMEPOINTS : list timepoint;
  tp_period : timepoint -> period;
  tp_duration_hrs : timepoint -> R;
  tp_previous : timepoint -> timepoint;
  TPS_IN_PERIOD : period -> list timepoint;
  (* load zones *)
  LOAD_ZONES : list zone;
  zone_demand_mw : zone * timepoint -> R;
  (* generation projects *)
  GENERATION_PROJECTS : list gen;
  gen_load_zone : gen -> zone;
  gen_max_age : gen -> Z;
  gen_retirement_year_input : gen -> option R;
  gen_capacity_limit_mw : gen -> option R;
  gen_min_build_capacity_input : gen -> option R;
  PREDETERMINED_GEN_BLD_YRS : list (gen * year);
  GEN_BLD_YRS : list (gen * year);
  gen_predetermined_cap : gen * year -> R;
  TPS_FOR_GEN : gen -> list timepoint;
  (* storage *)
  STORAGE_GENS : list gen;
  gen_storage_efficiency : gen -> R;
  gen_discharge_efficiency_input : gen -> option R;
  gen_storage_energy_to_power_ratio_input : gen -> option xreal;
  gen_storage_max_cycles_per_year_input : gen -> option xreal;
  gen_self_discharge_rate_input : gen -> option R;
  gen_min_soc_input : gen -> option R;
  gen_predetermined_storage_energy_mwh : gen * year -> option R;
  (* transmission *)
  TRANSMISSION_LINES : list tx_line;
  trans_lz1 : tx_line -> zone;
  trans_lz2 : tx_line -> zone;
  trans_d_line : zone * zone -> tx_line;
  trans_efficiency : tx_line -> R
}.

(** The values of the decision variables, and of the expressions that
    modules outside this development derive from their own variables
    ([DispatchGen], [TxCapacityNameplateAvailable]). *)

Record solution : Type := {
  BuildGen : gen * year -> R;
  BuildMinGenCap : gen * year -> R;
  BuildStorageEnergy : gen * year -> R;
  ChargeStorage : gen * timepoint -> R;
  StateOfCharge : gen * timepoint -> R;
  DispatchGen : gen * timepoint -> R;
  DispatchTx : zone * zone * timepoint -> R;
  TxCapacityNameplateAvailable : tx_line * period -> R
}.

(** ** Load zones and the energy balance *)

Module LoadZones.

(** The lists every module may append to, as attributes of the model
    object. [Distributed_Power_Withdrawals] exists only when the
    [local_td] module has defined it. *)
Record ledger : Type := {
  Zone_Power_Injections : list string;
  Zone_Power_Withdrawals : list string;
  Distributed_Power_Withdrawals : option (list string)
}.

Definition define_dynamic_lists (mod_ : ledger) : ledger :=
  {| Zone_Power_Injections := [];
     Zone_Power_Withdrawals := [];
     Distributed_Power_Withdrawals := Distributed_Power_Withdrawals mod_ |}.

Definition append_injection (name : string) (mod_ : ledger) : ledger :=
  {| Zone_Power_Injections := Zone_Power_Injections mod_ ++ [name];
     Zone_Power_Withdrawals := Zone_Power_Withdrawals mod_;
     Distributed_Power_Withdrawals := Distributed_Power_Withdrawals mod_ |}.

Definition append_withdrawal (name : string) (mod_ : ledger) : ledger :=
  {| Zone_Power_Injections := Zone_Power_Injections mod_;
     Zone_Power_Withdrawals := Zone_Power_Withdrawals mod_ ++ [name];
     Distributed_Power_Withdrawals := Distributed_Power_Withdrawals mod_ |}.

(** The part of [define_components] that touches the lists: demand goes
    to the distributed node when there is one ([try]), to the zonal
    withdrawals otherwise ([except AttributeError]). *)
Definition define_components (mod_ : ledger) : ledger :=
  match Distributed_Power_Withdrawals mod_ with
  | Some d =>
      {| Zone_Power_Injections := Zone_Power_Injections mod_;
         Zone_Power_Withdrawals := Zone_Power_Withdrawals mod_;
         Distributed_Power_Withdrawals := Some (d ++ ["zone_demand_mw"%string]) |}
  | None => append_withdrawal "zone_demand_mw" mod_
  end.

(** [getattr(m, component)]: the model's components indexed by
    (zone, timepoint), at the values of a solution. *)
Definition namespace := string -> option (zone -> timepoint -> R).

Definition getattr (ns : namespace) (component : string)
  : outcome (zone -> timepoint -> R) :=
  match ns component with
  | Some f => Done f
  | None => Raised (AttributeError component)
  end.

(** The components the names of a list resolve to. *)
Definition resolves (ns : namespace) (names : list string)
           (fs : list (zone -> timepoint -> R)) : Prop :=
  Forall2 (fun c f => ns c = Some f) names fs.

(** [sum(getattr(m, component)[z, t] for component in components)] *)
Fixpoint component_sum (ns : namespace) (components : list string)
         (z : zone) (t : timepoint) : outcome R :=
  match components with
  | [] => Done 0
  | component :: rest =>
      f <- getattr ns component ;;
      s <- component_sum ns rest z t ;;
      Done (f z t + s)
  end.

Definition ZONE_TIMEPOINTS (m : model) : list (zone * timepoint) :=
  list_prod (LOAD_ZONES m) (TIMEPOINTS m).

Definition Zone_Energy_Balance_rule (ns : namespace) (mod_ : ledger)
           (zt : zone * timepoint) : outcome constraint :=
  let (z, t) := zt in
  lhs <- component_sum ns (Zone_Power_Injections mod_) z t ;;
  rhs <- component_sum ns (Zone_Power_Withdrawals mod_) z t ;;
  Done (EqC lhs rhs).

(** [define_dynamic_components] *)
Definition Zone_Energy_Balance (ns : namespace) (mod_ : ledger) (m : model)
  : outcome (list ((zone * timepoint) * constraint)) :=
  Constraint_try (ZONE_TIMEPOINTS m) (Zone_Energy_Balance_rule ns mod_).

End LoadZones.

(** ** Generation build-out ([generators/core/build.py]) *)

Module Build.

(** [load_inputs]: the capacity-limited projects are those with a value
    in the [gen_capacity_limit_mw] column. *)
Definition CAPACITY_LIMITED_GENS (m : model) : list gen :=
  filter (fun g => match gen_capacity_limit_mw m g with
                   | Some _ => true
                   | None => false
                   end) (GENERATION_PROJECTS m).

Definition PREDETERMINED_BLD_YRS (m : model) : list year :=
  nodup Z.eq_dec (map snd (PREDETERMINED_GEN_BLD_YRS m)).

Definition NEW_GEN_BLD_YRS (m : model) : list (gen * year) :=
  filter (fun gb => negb (in_pairs gb (PREDETERMINED_GEN_BLD_YRS m)))
         (GEN_BLD_YRS m).

Definition gen_retirement_year (m : model) (g : gen) : R :=
  with_default 0 (gen_retirement_year_input m g).

Definition gen_build_can_operate_in_period
           (m : model) (g : gen) (build_year : year) (p : period) : bool :=
  let online :=
    if in_Zs build_year (PERIODS m) then period_start m build_year
    else IZR build_year in
  let retirement :=
    if Reqb (gen_retirement_year m g) 0 then online + IZR (gen_max_age m g)
    else gen_retirement_year m g in
  Rleb online (period_start m p + 0.5 * period_length_years m p)
  && Rltb (period_start m p + 0.5 * period_length_years m p) retirement.

(** The operability test in the words of the specification: a build
    year comes online at the start of the period it names, or in the
    year itself when it names none; it retires [gen_max_age] years
    later unless a (nonzero) retirement year is given; it can operate in
    the periods whose midpoint lies between the two. *)
Definition online_year (m : model) (b : year) : R :=
  if in_Zs b (PERIODS m) then period_start m b else IZR b.

Definition retirement_year (m : model) (g : gen) (b : year) : R :=
  match gen_retirement_year_input m g with
  | Some y => if Req_dec_T y 0 then online_year m b + IZR (gen_max_age m g)
              else y
  | None => online_year m b + IZR (gen_max_age m g)
  end.

Definition operable (m : model) (g : gen) (b : year) (p : period) : Prop :=
  online_year m b <= period_start m p + 0.5 * period_length_years m p
  /\ period_start m p + 0.5 * period_length_years m p < retirement_year m g b.

Definition no_predetermined_bld_yr_vs_period_conflict (m : model)
  : outcome unit :=
  BuildCheck (list_prod (PREDETERMINED_BLD_YRS m) (PERIODS m))
             (fun bp => negb (Z.eqb (fst bp) (snd bp))).

Definition PERIODS_FOR_GEN_BLD_YR (m : model) (g : gen) (bld_yr : year)
  : list period :=
  filter (fun p => gen_build_can_operate_in_period m g bld_yr p) (PERIODS m).

Definition BLD_YRS_FOR_GEN (m : model) (g : gen) : list year :=
  nodup Z.eq_dec
        (map snd (filter (fun gb => String.eqb (fst gb) g) (GEN_BLD_YRS m))).

Definition BLD_YRS_FOR_GEN_PERIOD (m : model) (g : gen) (p : period)
  : list year :=
  nodup Z.eq_dec
        (filter (fun bld_yr => gen_build_can_operate_in_period m g bld_yr p)
                (BLD_YRS_FOR_GEN m g)).

Definition PERIODS_FOR_GEN (m : model) (g : gen) : list period :=
  filter (fun p => (0 <? List.length (BLD_YRS_FOR_GEN_PERIOD m g p))%nat)
         (PERIODS m).

Definition bounds_BuildGen (m : model) (gb : gen * year) : bounds :=
  let (g, bld_yr) := gb in
  if in_pairs (g, bld_yr) (PREDETERMINED_GEN_BLD_YRS m) then
    (Some (gen_predetermined_cap m (g, bld_yr)),
     Some (gen_predetermined_cap m (g, bld_yr)))
  else if in_strs g (CAPACITY_LIMITED_GENS m) then
    (Some 0, gen_capacity_limit_mw m g)
  else
    (Some 0, None).

Definition BuildGen_var (m : model) (s : solution) : Prop :=
  Var (GEN_BLD_YRS m) NonNegativeReals (bounds_BuildGen m) (BuildGen s).

Definition GEN_PERIODS (m : model) : list (gen * period) :=
  flat_map (fun g => map (pair g) (PERIODS_FOR_GEN m g))
           (GENERATION_PROJECTS m).

Definition GenCapacity (m : model) (s : solution) (gp : gen * period) : R :=
  let (g, p) := gp in
  psum (map (fun bld_yr => BuildGen s (g, bld_yr))
            (BLD_YRS_FOR_GEN_PERIOD m g p)).

Definition gen_min_build_capacity (m : model) (g : gen) : R :=
  with_default 0 (gen_min_build_capacity_input m g).

Definition NEW_GEN_WITH_MIN_BUILD_YEARS (m : model) : list (gen * year) :=
  filter (fun gp => Rltb 0 (gen_min_build_capacity m (fst gp)))
         (NEW_GEN_BLD_YRS m).

Definition BuildMinGenCap_var (m : model) (s : solution) : Prop :=
  Var (NEW_GEN_WITH_MIN_BUILD_YEARS m) Binary (@unbounded _) (BuildMinGenCap s).

Definition Enforce_Min_Build_Lower (m : model) (s : solution)
  : list ((gen * year) * constraint) :=
  Constraint (NEW_GEN_WITH_MIN_BUILD_YEARS m)
    (fun gp => let (g, p) := gp in
       Some (LeC (BuildMinGenCap s (g, p) * gen_min_build_capacity m g)
                 (BuildGen s (g, p)))).

Definition _gen_max_cap_for_binary_constraints : R := 10 ^ 5.

Definition Enforce_Min_Build_Upper (m : model) (s : solution)
  : list ((gen * year) * constraint) :=
  Constraint (NEW_GEN_WITH_MIN_BUILD_YEARS m)
    (fun gp => let (g, p) := gp in
       Some (LeC (BuildGen s (g, p))
                 (BuildMinGenCap s (g, p) * _gen_max_cap_for_binary_constraints))).

(** What a solution of the build module satisfies. *)
Definition feasible (m : model) (s : solution) : Prop :=
  BuildGen_var m s /\
  BuildMinGenCap_var m s /\
  all_satisfied (Enforce_Min_Build_Lower m s) /\
  all_satisfied (Enforce_Min_Build_Upper m s).

End Build.

(** ** Python arithmetic used by the storage rules *)

Module PyMath.

(** [x ** y] on numbers with [0 <= x]: [0.0 ** 0] is [1.0], [0.0 ** y]
    is [0.0] for positive [y], and otherwise [exp (y * ln x)]. The base
    is [1 - gen_self_discharge_rate[g]] with the rate a [PercentFraction],
    the exponent a positive duration in days. *)
Definition pow (x y : R) : R :=
  if Req_dec_T x 0 then (if Req_dec_T y 0 then 1 else 0)
  else Rpower x y.

(** [x / y] raises on a zero divisor. *)
Definition div (x y : R) : outcome R :=
  if Req_dec_T y 0 then Raised ZeroDivisionError else Done (x / y).

(** [math.log(x)] raises on [x <= 0]. *)
Definition log (x : R) : outcome R :=
  if Rlt_dec 0 x then Done (ln x)
  else Raised (ValueError "math domain error").

End PyMath.

(** ** Storage ([generators/extensions/storage.py]) *)

Module Storage.

(** *** Loading and construction: which projects are storage projects *)

(** The data portal after the tables are read: under the name of a
    parameter, the dictionary from the projects whose row has a value to
    that value; a name nothing was read for has no entry. *)
Record switch_data : Type := {
  data_GENERATION_PROJECTS : list gen;
  data_Params : list (string * list (gen * R));
  data_STORAGE_GENS : option (list gen)
}.

Definition keys {V : Type} (d : list (gen * V)) : list gen := map fst d.


(** [switch_data.data(name=...)]: the KeyError of a name without data. *)
Definition data (sd : switch_data) (name : string)
  : outcome (list (gen * R)) :=
  match find (fun nd => String.eqb (fst nd) name) (data_Params sd) with
  | Some nd => Done (snd nd)
  | None => Raised (KeyError name)
  end.

(** [load_inputs]: the storage projects are the keys of the efficiency
    column. *)
Definition load_inputs (sd : switch_data) : outcome switch_data :=
  d <- data sd "gen_storage_efficiency" ;;
  Done {| data_GENERATION_PROJECTS := data_GENERATION_PROJECTS sd;
          data_Params := data_Params sd;
          data_STORAGE_GENS := Some (keys d) |}.

Definition PercentFraction (v : R) : bool := Rleb 0 v && Rleb v 1.

Definition in_NonNegativeReals (v : R) : bool := Rleb 0 v.

(** [STORAGE_GENS = Set(within=GENERATION_PROJECTS)], built from the
    data portal: a member outside the domain raises. *)
Definition construct_STORAGE_GENS (sd : switch_data) : outcome (list gen) :=
  match data_STORAGE_GENS sd with
  | None => Done []
  | Some gens =>
      if forallb (fun g => in_strs g (data_GENERATION_PROJECTS sd)) gens
      then Done gens
      else Raised (ValueError "value not in the domain of STORAGE_GENS")
  end.

(** Building a [Param(index, within=...)] from the dictionary read for it:
    Pyomo sets the values key by key, and raises a RuntimeError naming the
    parameter and the key at the first key outside the index set, or
    value outside the domain. An index without a value is no error at
    this stage: see [Param_value]. *)
Fixpoint set_values (param : string) (index : list gen) (within : R -> bool)
         (d : list (gen * R)) : outcome (list (gen * R)) :=
  match d with
  | [] => Done []
  | (g, v) :: rest =>
      if in_strs g index && within v then
        vs <- set_values param index within rest ;;
        Done ((g, v) :: vs)
      else Raised (RuntimeError param g)
  end.

Definition construct_Param (sd : switch_data) (index : list gen)
           (declaration : string * (R -> bool))
  : outcome (string * list (gen * R)) :=
  let (param, within) := declaration in
  match find (fun nd => String.eqb (fst nd) param) (data_Params sd) with
  | Some nd =>
      vs <- set_values param index within (snd nd) ;;
      Done (param, vs)
  | None => Done (param, [])
  end.


(** The parameters indexed by [STORAGE_GENS], in the order of their
    declaration, each with its domain. *)
Definition STORAGE_GENS_Params : list (string * (R -> bool)) :=
  [("gen_storage_efficiency", PercentFraction);
   ("gen_discharge_efficiency", PercentFraction);
   ("gen_store_to_release_ratio", in_NonNegativeReals);
   ("gen_storage_energy_to_power_ratio", in_NonNegativeReals);
   ("gen_storage_max_cycles_per_year", in_NonNegativeReals);
   ("gen_self_discharge_rate", PercentFraction);
   ("gen_land_use_rate", in_NonNegativeReals);
   ("gen_min_soc", PercentFraction)]%string.

Fixpoint construct_Params (sd : switch_data) (index : list gen)
         (declarations : list (string * (R -> bool)))
  : outcome (list (string * list (gen * R))) :=
  match declarations with
  | [] => Done []
  | declaration :: rest =>
      p <- construct_Param sd index declaration ;;
      ps <- construct_Params sd index rest ;;
      Done (p :: ps)
  end.

(** What construction leaves of the storage data: the set and the values
    of the parameters indexed by it. *)
Record storage_components : Type := {
  built_STORAGE_GENS : list gen;
  built_Params : list (string * list (gen * R))
}.

(** Loading the inputs, then building [STORAGE_GENS] and the parameters
    indexed by it, as creating the model instance does; an exception at
    any step ends the construction of the model. *)
Definition construct (sd : switch_data) : outcome storage_components :=
  sd' <- load_inputs sd ;;
  gens <- construct_STORAGE_GENS sd' ;;
  params <- construct_Params sd' gens STORAGE_GENS_Params ;;
  Done {| built_STORAGE_GENS := gens; built_Params := params |}.



(** *** Parameters with defaults *)

Definition gen_discharge_efficiency (m : model) (g : gen) : R :=
  with_default 1 (gen_discharge_efficiency_input m g).
Definition gen_storage_energy_to_power_ratio (m : model) (g : gen) : xreal :=
  with_default inf (gen_storage_energy_to_power_ratio_input m g).
Definition gen_storage_max_cycles_per_year (m : model) (g : gen) : xreal :=
  with_default inf (gen_storage_max_cycles_per_year_input m g).
Definition gen_self_discharge_rate (m : model) (g : gen) : R :=
  with_default 0 (gen_self_discharge_rate_input m g).
Definition gen_min_soc (m : model) (g : gen) : R :=
  with_default 0 (gen_min_soc_input m g).

(** *** Index sets *)

Definition STORAGE_GEN_PERIODS (m : model) : list (gen * period) :=
  flat_map (fun g => map (pair g) (Build.PERIODS_FOR_GEN m g))
           (STORAGE_GENS m).

Definition STORAGE_GEN_BLD_YRS (m : model) : list (gen * year) :=
  flat_map (fun g => map (pair g) (Build.BLD_YRS_FOR_GEN m g))
           (STORAGE_GENS m).

Definition PREDETERMINED_STORAGE_GEN_BLD_YRS (m : model) : list (gen * year) :=
  filter (fun gb => match gen_predetermined_storage_energy_mwh m gb with
                    | Some _ => true
                    | None => false
                    end) (PREDETERMINED_GEN_BLD_YRS m).

Definition STORAGE_GEN_TPS (m : model) : list (gen * timepoint) :=
  flat_map (fun g => map (pair g) (TPS_FOR_GEN m g)) (STORAGE_GENS m).

(** *** Build decisions *)

Definition bounds_BuildStorageEnergy (m : model) (gb : gen * year) : bounds :=
  let (g, bld_yr) := gb in
  if in_pairs (g, bld_yr) (PREDETERMINED_STORAGE_GEN_BLD_YRS m) then
    (gen_predetermined_storage_energy_mwh m (g, bld_yr),
     gen_predetermined_storage_energy_mwh m (g, bld_yr))
  else
    (Some 0, None).

Definition BuildStorageEnergy_var (m : model) (s : solution) : Prop :=
  Var (STORAGE_GEN_BLD_YRS m) NonNegativeReals
      (bounds_BuildStorageEnergy m) (BuildStorageEnergy s).

Definition StorageEnergyCapacity (m : model) (s : solution)
           (gp : gen * period) : R :=
  let (g, p) := gp in
  psum (map (fun bld_yr => BuildStorageEnergy s (g, bld_yr))
            (Build.BLD_YRS_FOR_GEN_PERIOD m g p)).

(** *** Charging *)

Definition ChargeStorage_var (m : model) (s : solution) : Prop :=
  Var (STORAGE_GEN_TPS m) NonNegativeReals (@unbounded _) (ChargeStorage s).

(** [Storage_Charge_Summation_dict[z, t]]: the set of storage projects
    of zone [z] that can run at [t]. *)
Definition Storage_Charge_Summation_dict (m : model) (zt : zone * timepoint)
  : list gen :=
  nodup string_dec
        (map fst (filter (fun gt => String.eqb (gen_load_zone m (fst gt)) (fst zt)
                                    && Z.eqb (snd gt) (snd zt))
                         (STORAGE_GEN_TPS m))).

Definition StorageNetCharge (m : model) (s : solution)
           (z : zone) (t : timepoint) : R :=
  let relevant_projects := Storage_Charge_Summation_dict m (z, t) in
  psum (map (fun g => ChargeStorage s (g, t)) relevant_projects).

Definition define_components (mod_ : LoadZones.ledger) : LoadZones.ledger :=
  LoadZones.append_withdrawal "StorageNetCharge" mod_.

Definition Enforce_Fixed_Energy_Storage_Ratio_rule (m : model) (s : solution)
           (gy : gen * year) : option constraint :=
  let (g, y) := gy in
  match gen_storage_energy_to_power_ratio m g with
  | inf => None
  | finite ratio =>
      Some (EqC (BuildStorageEnergy s (g, y)) (ratio * BuildGen s (g, y)))
  end.

Definition Enforce_Fixed_Energy_Storage_Ratio (m : model) (s : solution)
  : list ((gen * year) * constraint) :=
  Constraint (STORAGE_GEN_BLD_YRS m)
             (Enforce_Fixed_Energy_Storage_Ratio_rule m s).

(** *** State of charge *)

Definition StateOfCharge_var (m : model) (s : solution) : Prop :=
  Var (STORAGE_GEN_TPS m) NonNegativeReals (@unbounded _) (StateOfCharge s).

Definition StorageFlow (m : model) (s : solution) (gt : gen * timepoint)
  : outcome R :=
  let (g, t) := gt in
  discharge <- PyMath.div (DispatchGen s (g, t)) (gen_discharge_efficiency m g) ;;
  Done (ChargeStorage s (g, t) * gen_storage_efficiency m g - discharge).

Definition Track_State_Of_Charge_rule (m : model) (s : solution)
           (gt : gen * timepoint) : outcome constraint :=
  let (g, t) := gt in
  let storage_efficiency := 1 - gen_self_discharge_rate m g in
  let tp_duration_days := tp_duration_hrs m t / 24 in
  let carry_over_energy :=
    StateOfCharge s (g, tp_previous m t)
    * PyMath.pow storage_efficiency tp_duration_days in
  flow <- StorageFlow m s (g, t) ;;
  factor <- (if Reqb storage_efficiency 1 then Done (tp_duration_hrs m t)
             else
               l <- PyMath.log storage_efficiency ;;
               PyMath.div
                 (24 * (PyMath.pow storage_efficiency tp_duration_days - 1)) l) ;;
  let flow_energy := flow * factor in
  Done (EqC (StateOfCharge s (g, t)) (carry_over_energy + flow_energy)).

Definition Track_State_Of_Charge (m : model) (s : solution)
  : outcome (list ((gen * timepoint) * constraint)) :=
  Constraint_try (STORAGE_GEN_TPS m) (Track_State_Of_Charge_rule m s).

(** The comment of the rule: the state of charge Z follows
    dZ/dt = -rZ + StorageFlow with r the instantaneous decay rate, and
    exp(-24r) = 1 - daily decay rate. [charge_after r Z0 flow tau] is the
    charge [tau] hours after a charge of [Z0], under a constant flow. *)
Definition instantaneous_decay_rate (daily_decay_rate : R) : R :=
  - ln (1 - daily_decay_rate) / 24.

Definition charge_after (r Z0 flow tau : R) : R :=
  Z0 * exp (- r * tau) + flow * ((1 - exp (- r * tau)) / r).

Definition State_Of_Charge_Upper_Limit_rule (m : model) (s : solution)
           (gt : gen * timepoint) : option constraint :=
  let (g, t) := gt in
  Some (LeC (StateOfCharge s (g, t))
            (StorageEnergyCapacity m s (g, tp_period m t))).

Definition State_Of_Charge_Upper_Limit (m : model) (s : solution)
  : list ((gen * timepoint) * constraint) :=
  Constraint (STORAGE_GEN_TPS m) (State_Of_Charge_Upper_Limit_rule m s).

Definition State_Of_Charge_Lower_Limit_rule (m : model) (s : solution)
           (gt : gen * timepoint) : option constraint :=
  let (g, t) := gt in
  Some (GeC (StateOfCharge s (g, t))
            (StorageEnergyCapacity m s (g, tp_period m t) * gen_min_soc m g)).

Definition State_Of_Charge_Lower_Limit (m : model) (s : solution)
  : list ((gen * timepoint) * constraint) :=
  Constraint (STORAGE_GEN_TPS m) (State_Of_Charge_Lower_Limit_rule m s).

Definition Battery_Cycle_Limit_rule (m : model) (s : solution)
           (gp : gen * period) : option constraint :=
  let (g, p) := gp in
  match gen_storage_max_cycles_per_year m g with
  | inf => None
  | finite max_cycles =>
      Some (LeC (psum (map (fun tp => DispatchGen s (g, tp) * tp_duration_hrs m tp)
                           (TPS_IN_PERIOD m p)))
                (max_cycles * StorageEnergyCapacity m s (g, p)
                 * period_length_years m p))
  end.

Definition Battery_Cycle_Limit (m : model) (s : solution)
  : list ((gen * period) * constraint) :=
  Constraint (STORAGE_GEN_PERIODS m) (Battery_Cycle_Limit_rule m s).

(** What a solution satisfies on the state of charge. *)
Definition feasible_state_of_charge (m : model) (s : solution) : Prop :=
  StateOfCharge_var m s /\
  all_satisfied (State_Of_Charge_Upper_Limit m s) /\
  all_satisfied (State_Of_Charge_Lower_Limit m s).

End Storage.

(** ** Transmission dispatch ([transmission/transport/dispatch.py]) *)

Module TxDispatch.

Definition zone_pair_eq_dec (x y : zone * zone) : {x = y} + {x <> y}.
Proof. decide equality; apply string_dec. Defined.

(** Modelled from the spec: [transmission/transport/build.py], which
    defines [DIRECTIONAL_TX] and [TX_CONNECTIONS_TO_ZONE], is not part of
    the sources. A line connects two zones and is an undirected line
    under two directional corridors, one each way. *)
Definition DIRECTIONAL_TX (m : model) : list (zone * zone) :=
  nodup zone_pair_eq_dec
        (flat_map (fun tx => [(trans_lz1 m tx, trans_lz2 m tx);
                              (trans_lz2 m tx, trans_lz1 m tx)])
                  (TRANSMISSION_LINES m)).

(** Modelled from the spec: the zones with a corridor ending at [z]
    (see [DIRECTIONAL_TX]). *)
Definition TX_CONNECTIONS_TO_ZONE (m : model) (z : zone) : list zone :=
  filter (fun z' => in_zone_pairs (z', z) (DIRECTIONAL_TX m)) (LOAD_ZONES m).

(** The corridors ending at a zone, and those leaving it. *)
Definition corridors_into (m : model) (z : zone) : list (zone * zone) :=
  filter (fun c => String.eqb (snd c) z) (DIRECTIONAL_TX m).
Definition corridors_out_of (m : model) (z : zone) : list (zone * zone) :=
  filter (fun c => String.eqb (fst c) z) (DIRECTIONAL_TX m).

Definition TRANS_TIMEPOINTS (m : model) : list (zone * zone * timepoint) :=
  list_prod (DIRECTIONAL_TX m) (TIMEPOINTS m).

Definition DispatchTx_var (m : model) (s : solution) : Prop :=
  Var (TRANS_TIMEPOINTS m) NonNegativeReals (@unbounded _) (DispatchTx s).

Definition Maximum_DispatchTx_rule (m : model) (s : solution)
           (i : zone * zone * timepoint) : option constraint :=
  let '(zone_from, zone_to, tp) := i in
  Some (LeC (DispatchTx s (zone_from, zone_to, tp))
            (TxCapacityNameplateAvailable s
               (trans_d_line m (zone_from, zone_to), tp_period m tp))).

Definition Maximum_DispatchTx (m : model) (s : solution)
  : list ((zone * zone * timepoint) * constraint) :=
  Constraint (TRANS_TIMEPOINTS m) (Maximum_DispatchTx_rule m s).

Definition TxPowerSent (m : model) (s : solution)
           (i : zone * zone * timepoint) : R :=
  let '(zone_from, zone_to, tp) := i in
  DispatchTx s (zone_from, zone_to, tp).

Definition TxPowerReceived (m : model) (s : solution)
           (i : zone * zone * timepoint) : R :=
  let '(zone_from, zone_to, tp) := i in
  DispatchTx s (zone_from, zone_to, tp)
  * trans_efficiency m (trans_d_line m (zone_from, zone_to)).

Definition TXPowerNet_calculation (m : model) (s : solution)
           (z : zone) (tp : timepoint) : R :=
  psum (map (fun zone_from => TxPowerReceived m s (zone_from, z, tp))
            (TX_CONNECTIONS_TO_ZONE m z))
  - psum (map (fun zone_to => TxPowerSent m s (z, zone_to, tp))
              (TX_CONNECTIONS_TO_ZONE m z)).

Definition TXPowerNet := TXPowerNet_calculation.

Definition define_components (mod_ : LoadZones.ledger) : LoadZones.ledger :=
  LoadZones.append_injection "TXPowerNet" mod_.

End TxDispatch.

(** ** A two-zone instance

    Two periods, two timepoints that follow each other round, a coal plant
    built in 2000, a wind site limited to 50 MW, a battery with a 2015
    vintage, a nuclear project with a minimum build size, and one line. *)

Module Example.

Local Open Scope string_scope.

Definition m : model := {|
  PERIODS := [2020; 2030]%Z;
  period_start := fun p => IZR p;
  period_length_years := fun _ => 10;
  TIMEPOINTS := [1; 2]%Z;
  tp_period := fun _ => 2020%Z;
  tp_duration_hrs := fun _ => 1;
  tp_previous := fun t => if (t =? 1)%Z then 2%Z else 1%Z;
  TPS_IN_PERIOD := fun p => if (p =? 2020)%Z then [1; 2]%Z else [];
  LOAD_ZONES := ["North"; "South"];
  zone_demand_mw := fun zt =>
    if String.eqb (fst zt) "North"
    then (if (snd zt =? 1)%Z then 5 else 4.25)
    else (if (snd zt =? 1)%Z then 81 else 90);
  GENERATION_PROJECTS := ["Coal"; "Wind"; "Battery"; "Nuclear"];
  gen_load_zone := fun g =>
    if String.eqb g "Coal" || String.eqb g "Battery" then "North" else "South";
  gen_max_age := fun g => if String.eqb g "Coal" then 40%Z else 20%Z;
  gen_retirement_year_input := fun _ => None;
  gen_capacity_limit_mw := fun g => if String.eqb g "Wind" then Some 50 else None;
  gen_min_build_capacity_input := fun g =>
    if String.eqb g "Nuclear" then Some 500 else None;
  PREDETERMINED_GEN_BLD_YRS := [("Coal", 2000%Z); ("Battery", 2015%Z)];
  GEN_BLD_YRS := [("Coal", 2000%Z); ("Wind", 2020%Z); ("Wind", 2030%Z);
                  ("Battery", 2015%Z); ("Battery", 2020%Z);
                  ("Nuclear", 2030%Z)];
  gen_predetermined_cap := fun gb =>
    if String.eqb (fst gb) "Coal" then 100 else 10;
  TPS_FOR_GEN := fun _ => [1; 2]%Z;
  STORAGE_GENS := ["Battery"];
  gen_storage_efficiency := fun _ => 0.85;
  gen_discharge_efficiency_input := fun _ => None;
  gen_storage_energy_to_power_ratio_input := fun _ => Some (finite 4);
  gen_storage_max_cycles_per_year_input := fun _ => None;
  gen_self_discharge_rate_input := fun _ => None;
  gen_min_soc_input := fun _ => None;
  gen_predetermined_storage_energy_mwh := fun gb =>
    if String.eqb (fst gb) "Battery" && (snd gb =? 2015)%Z then Some 40
    else None;
  TRANSMISSION_LINES := ["N-S"];
  trans_lz1 := fun _ => "North";
  trans_lz2 := fun _ => "South";
  trans_d_line := fun _ => "N-S";
  trans_efficiency := fun _ => 0.9
|}.

Definition s : solution := {|
  BuildGen := fun gb =>
    if String.eqb (fst gb) "Coal" then 100
    else if String.eqb (fst gb) "Nuclear" then 600
    else if String.eqb (fst gb) "Wind"
         then (if (snd gb =? 2020)%Z then 50 else 0)
         else (if (snd gb =? 2015)%Z then 10 else 0);
  BuildMinGenCap := fun _ => 1;
  BuildStorageEnergy := fun gb => if (snd gb =? 2015)%Z then 40 else 0;
  ChargeStorage := fun gt => if (snd gt =? 1)%Z then 5 else 0;
  StateOfCharge := fun gt => if (snd gt =? 1)%Z then 4.25 else 0;
  DispatchGen := fun gt =>
    if String.eqb (fst gt) "Coal" then 100
    else if String.eqb (fst gt) "Battery"
         then (if (snd gt =? 1)%Z then 0 else 4.25)
         else 0;
  DispatchTx := fun i =>
    if String.eqb (fst (fst i)) "North"
    then (if (snd i =? 1)%Z then 90 else 100)
    else 0;
  TxCapacityNameplateAvailable := fun _ => 150
|}.

(** The same instance with other storage losses. *)
Definition with_losses (self_discharge_rate discharge_efficiency : option R)
  : model := {|
  PERIODS := PERIODS m;
  period_start := period_start m;
  period_length_years := period_length_years m;
  TIMEPOINTS := TIMEPOINTS m;
  tp_period := tp_period m;
  tp_duration_hrs := tp_duration_hrs m;
  tp_previous := tp_previous m;
  TPS_IN_PERIOD := TPS_IN_PERIOD m;
  LOAD_ZONES := LOAD_ZONES m;
  zone_demand_mw := zone_demand_mw m;
  GENERATION_PROJECTS := GENERATION_PROJECTS m;
  gen_load_zone := gen_load_zone m;
  gen_max_age := gen_max_age m;
  gen_retirement_year_input := gen_retirement_year_input m;
  gen_capacity_limit_mw := gen_capacity_limit_mw m;
  gen_min_build_capacity_input := gen_min_build_capacity_input m;
  PREDETERMINED_GEN_BLD_YRS := PREDETERMINED_GEN_BLD_YRS m;
  GEN_BLD_YRS := GEN_BLD_YRS m;
  gen_predetermined_cap := gen_predetermined_cap m;
  TPS_FOR_GEN := TPS_FOR_GEN m;
  STORAGE_GENS := STORAGE_GENS m;
  gen_storage_efficiency := gen_storage_efficiency m;
  gen_discharge_efficiency_input := fun _ => discharge_efficiency;
  gen_storage_energy_to_power_ratio_input :=
    gen_storage_energy_to_power_ratio_input m;
  gen_storage_max_cycles_per_year_input :=
    gen_storage_max_cycles_per_year_input m;
  gen_self_discharge_rate_input := fun _ => self_discharge_rate;
  gen_min_soc_input := gen_min_soc_input m;
  gen_predetermined_storage_energy_mwh :=
    gen_predetermined_storage_energy_mwh m;
  TRANSMISSION_LINES := TRANSMISSION_LINES m;
  trans_lz1 := trans_lz1 m;
  trans_lz2 := trans_lz2 m;
  trans_d_line := trans_d_line m;
  trans_efficiency := trans_efficiency m
|}.

(** A battery that loses its whole charge in a day: the rate is 1, the
    top of [PercentFraction]. *)
Definition m_full_decay : model := with_losses (Some 1) None.

(** A battery none of whose stored energy reaches the grid: the
    discharge efficiency is 0, the bottom of [PercentFraction]. *)
Definition m_no_discharge : model := with_losses None (Some 0).

(** The dispatch module's zonal total, as one more registered term. *)
Definition ZoneTotalCentralDispatch (z : zone) (t : timepoint) : R :=
  psum (map (fun g => DispatchGen s (g, t))
            (filter (fun g => String.eqb (gen_load_zone m g) z)
                    (GENERATION_PROJECTS m))).

Definition ns : LoadZones.namespace := fun name =>
  if String.eqb name "zone_demand_mw"
  then Some (fun z t => zone_demand_mw m (z, t))
  else if String.eqb name "StorageNetCharge"
  then Some (Storage.StorageNetCharge m s)
  else if String.eqb name "TXPowerNet"
  then Some (TxDispatch.TXPowerNet m s)
  else if String.eqb name "ZoneTotalCentralDispatch"
  then Some ZoneTotalCentralDispatch
  else None.

Definition empty_ledger : LoadZones.ledger :=
  {| LoadZones.Zone_Power_Injections := [];
     LoadZones.Zone_Power_Withdrawals := [];
     LoadZones.Distributed_Power_Withdrawals := None |}.

(** The lists after each module has run its [define_components]. *)
Definition ledger : LoadZones.ledger :=
  TxDispatch.define_components
    (Storage.define_components
       (LoadZones.append_injection "ZoneTotalCentralDispatch"
          (LoadZones.define_components
             (LoadZones.define_dynamic_lists empty_ledger)))).

(** The data portal of an input set in which one project has storage
    columns but no round-trip efficiency. *)
Definition sd : Storage.switch_data := {|
  Storage.data_GENERATION_PROJECTS := ["Battery"; "Pumped_Hydro"];
  Storage.data_Params :=
    [("gen_storage_efficiency", [("Battery", 0.85)]);
     ("gen_storage_energy_to_power_ratio",
      [("Battery", 4); ("Pumped_Hydro", 8)])];
  Storage.data_STORAGE_GENS := None
|}.

(** The same input set with the efficiency of the second project given. *)
Definition sd_complete : Storage.switch_data := {|
  Storage.data_GENERATION_PROJECTS := ["Battery"; "Pumped_Hydro"];
  Storage.data_Params :=
    [("gen_storage_efficiency", [("Battery", 0.85); ("Pumped_Hydro", 0.8)]);
     ("gen_storage_energy_to_power_ratio",
      [("Battery", 4); ("Pumped_Hydro", 8)])];
  Storage.data_STORAGE_GENS := None
|}.

End Example.

(** ** Generation build-out: input checks and the potential limit
    ([generators/core/build.py]) *)

Module BuildChecks.

(** [GEN_BLD_YRS = Set(..., validate=...)]: every pair read from
    [gen_build_costs.csv] has to be a predetermined build or a project
    with a period; the set raises at the first pair that is neither. *)
Definition GEN_BLD_YRS_validate_rule (m : model) (gb : gen * year) : bool :=
  in_pairs gb (PREDETERMINED_GEN_BLD_YRS m)
  || in_pairs gb (list_prod (GENERATION_PROJECTS m) (PERIODS m)).

Definition GEN_BLD_YRS_validate (m : model) : outcome unit :=
  if forallb (GEN_BLD_YRS_validate_rule m) (GEN_BLD_YRS m) then Done tt
  else Raised (ValueError "GEN_BLD_YRS: validation failed").

Definition max_build_potential_scaling_factor : R := 0.1.

(** [gen_capacity_limit_mw[g]] has no default: reading it at a project
    without a value raises. *)
Definition Max_Build_Potential_rule (m : model) (s : solution)
           (gp : gen * period) : outcome constraint :=
  let (g, p) := gp in
  match gen_capacity_limit_mw m g with
  | Some limit =>
      Done (GeC (limit * max_build_potential_scaling_factor)
                (Build.GenCapacity m s (g, p)
                 * max_build_potential_scaling_factor))
  | None => Raised (ValueError "no value for uninitialized Param")
  end.

Definition Max_Build_Potential (m : model) (s : solution)
  : outcome (list ((gen * period) * constraint)) :=
  Constraint_try (list_prod (Build.CAPACITY_LIMITED_GENS m) (PERIODS m))
                 (Max_Build_Potential_rule m s).

(** The midpoint of a period, the cutoff of the operability test. *)
Definition period_midpoint (m : model) (p : period) : R :=
  period_start m p + 0.5 * period_length_years m p.

End BuildChecks.

(** ** Timeseries as the storage recursion sees them *)

Module Timeseries.

(** [chain m prev ts]: the timepoints [ts] follow each other, the first
    one after [prev], as [tp_previous] has it. *)
Fixpoint chain (m : model) (prev : timepoint) (ts : list timepoint) : Prop :=
  match ts with
  | [] => True
  | t :: rest => tp_previous m t = prev /\ chain m t rest
  end.

(** A timeseries whose first timepoint follows its last one: [tp_previous]
    wraps around within the timeseries. *)
Definition wraps_around (m : model) (ts : list timepoint) : Prop :=
  match ts with
  | [] => True
  | t :: rest => chain m (last rest t) (t :: rest)
  end.

End Timeseries.

(** ** Storage: the energy a flow adds over a timepoint *)

Module StorageEnergy.

(** [m.StorageFlow[g, t]] as a number, where the discharge efficiency is
    not 0. *)
Definition net_flow (m : model) (s : solution) (g : gen) (t : timepoint) : R :=
  ChargeStorage s (g, t) * gen_storage_efficiency m g
  - DispatchGen s (g, t) / Storage.gen_discharge_efficiency m g.

(** The factor by which [Track_State_Of_Charge_rule] multiplies the flow:
    the duration when nothing decays, the integral of the decay over the
    duration otherwise. *)
Definition flow_energy_factor (daily_decay_rate duration : R) : R :=
  if Req_dec_T (1 - daily_decay_rate) 1 then duration
  else 24 * (Rpower (1 - daily_decay_rate) (duration / 24) - 1)
       / ln (1 - daily_decay_rate).

End StorageEnergy.

(** ** The two-zone instance with a cycle limit on the battery *)

Module ExampleCycles.

Definition m : model := {|
  PERIODS := PERIODS Example.m;
  period_start := period_start Example.m;
  period_length_years := period_length_years Example.m;
  TIMEPOINTS := TIMEPOINTS Example.m;
  tp_period := tp_period Example.m;
  tp_duration_hrs := tp_duration_hrs Example.m;
  tp_previous := tp_previous Example.m;
  TPS_IN_PERIOD := TPS_IN_PERIOD Example.m;
  LOAD_ZONES := LOAD_ZONES Example.m;
  zone_demand_mw := zone_demand_mw Example.m;
  GENERATION_PROJECTS := GENERATION_PROJECTS Example.m;
  gen_load_zone := gen_load_zone Example.m;
  gen_max_age := gen_max_age Example.m;
  gen_retirement_year_input := gen_retirement_year_input Example.m;
  gen_capacity_limit_mw := gen_capacity_limit_mw Example.m;
  gen_min_build_capacity_input := gen_min_build_capacity_input Example.m;
  PREDETERMINED_GEN_BLD_YRS := PREDETERMINED_GEN_BLD_YRS Example.m;
  GEN_BLD_YRS := GEN_BLD_YRS Example.m;
  gen_predetermined_cap := gen_predetermined_cap Example.m;
  TPS_FOR_GEN := TPS_FOR_GEN Example.m;
  STORAGE_GENS := STORAGE_GENS Example.m;
  gen_storage_efficiency := gen_storage_efficiency Example.m;
  gen_discharge_efficiency_input := gen_discharge_efficiency_input Example.m;
  gen_storage_energy_to_power_ratio_input :=
    gen_storage_energy_to_power_ratio_input Example.m;
  gen_storage_max_cycles_per_year_input := fun _ => Some (finite 300);
  gen_self_discharge_rate_input := gen_self_discharge_rate_input Example.m;
  gen_min_soc_input := gen_min_soc_input Example.m;
  gen_predetermined_storage_energy_mwh :=
    gen_predetermined_storage_energy_mwh Example.m;
  TRANSMISSION_LINES := TRANSMISSION_LINES Example.m;
  trans_lz1 := trans_lz1 Example.m;
  trans_lz2 := trans_lz2 Example.m;
  trans_d_line := trans_d_line Example.m;
  trans_efficiency := trans_efficiency Example.m
|}.

End ExampleCycles.

(** ** The load-balance tables ([post_solve] of
    [balancing/load_zones.py]) *)

Module LoadBalanceReport.

(** A cell of an output row: an identifier, a period or timepoint label,
    or a number. *)
Inductive cell : Type :=
| Text (s : string)
| Label (z : Z)
| Number (x : R).

Definition cell_number (c : cell) : R :=
  match c with
  | Number x => x
  | _ => 0
  end.

(** What the tables read besides the balance terms: the timestamps and
    the weights of the timepoints ([switch_model.timescales]) and the
    normalised dual of the balance constraint ([m.get_dual]). *)
Record report_inputs : Type := {
  tp_timestamp : timepoint -> string;
  tp_weight_in_year : timepoint -> R;
  normalized_energy_balance_dual : zone -> timepoint -> R
}.

(** [tuple(getattr(m, component)[z, t] for component in components)] *)
Fixpoint component_values (ns : LoadZones.namespace) (components : list string)
         (z : zone) (t : timepoint) : outcome (list R) :=
  match components with
  | [] => Done []
  | component :: rest =>
      f <- LoadZones.getattr ns component ;;
      vs <- component_values ns rest z t ;;
      Done (f z t :: vs)
  end.

Definition load_balance_headings (mod_ : LoadZones.ledger) : list string :=
  ["load_zone"; "timestamp";
   "normalized_energy_balance_duals_dollar_per_mwh"]%string
  ++ (LoadZones.Zone_Power_Injections mod_
      ++ LoadZones.Zone_Power_Withdrawals mod_).

(** The [values] of a row of load_balance.csv. *)
Definition load_balance_values (ns : LoadZones.namespace)
           (mod_ : LoadZones.ledger) (r : report_inputs)
           (z : zone) (t : timepoint) : outcome (list cell) :=
  injections <- component_values ns (LoadZones.Zone_Power_Injections mod_) z t ;;
  withdrawals <- component_values ns (LoadZones.Zone_Power_Withdrawals mod_) z t ;;
  Done ([Text z; Text (tp_timestamp r t);
         Number (normalized_energy_balance_dual r z t)]
        ++ map Number injections
        ++ map (fun x => Number (- x)) withdrawals).

Definition get_component_per_year (ns : LoadZones.namespace) (m : model)
           (r : report_inputs) (z : zone) (p : period) (component : string)
  : outcome R :=
  f <- LoadZones.getattr ns component ;;
  Done (psum (map (fun t => f z t * tp_weight_in_year r t) (TPS_IN_PERIOD m p))).

(** [tuple(get_component_per_year(m, z, p, component) for component in ...)] *)
Fixpoint components_per_year (ns : LoadZones.namespace) (m : model)
         (r : report_inputs) (components : list string)
         (z : zone) (p : period) : outcome (list R) :=
  match components with
  | [] => Done []
  | component :: rest =>
      v <- get_component_per_year ns m r z p component ;;
      vs <- components_per_year ns m r rest z p ;;
      Done (v :: vs)
  end.

Definition load_balance_annual_zonal_headings (mod_ : LoadZones.ledger)
  : list string :=
  ["load_zone"; "period"]%string
  ++ (LoadZones.Zone_Power_Injections mod_
      ++ LoadZones.Zone_Power_Withdrawals mod_).

(** The [values] of a row of load_balance_annual_zonal.csv. *)
Definition load_balance_annual_zonal_values (ns : LoadZones.namespace)
           (mod_ : LoadZones.ledger) (m : model) (r : report_inputs)
           (z : zone) (p : period) : outcome (list cell) :=
  injections <-
    components_per_year ns m r (LoadZones.Zone_Power_Injections mod_) z p ;;
  withdrawals <-
    components_per_year ns m r (LoadZones.Zone_Power_Withdrawals mod_) z p ;;
  Done ([Text z; Label p]
        ++ map Number injections
        ++ map (fun x => Number (- x)) withdrawals).

(** The total of the columns of a row after the first [skip] ones. *)
Definition columns_total (skip : nat) (row : list cell) : R :=
  psum (map cell_number (skipn skip row)).

(** [sum(get_component_per_year(m, z, p, component) for z in zones)] *)
Fixpoint component_per_year_all_zones (ns : LoadZones.namespace) (m : model)
         (r : report_inputs) (zones : list zone) (p : period)
         (component : string) : outcome R :=
  match zones with
  | [] => Done 0
  | z :: rest =>
      v <- get_component_per_year ns m r z p component ;;
      total <- component_per_year_all_zones ns m r rest p component ;;
      Done (v + total)
  end.

(** [tuple(sum(... for z in m.LOAD_ZONES) for component in components)] *)
Fixpoint components_per_year_all_zones (ns : LoadZones.namespace) (m : model)
         (r : report_inputs) (components : list string) (p : period)
  : outcome (list R) :=
  match components with
  | [] => Done []
  | component :: rest =>
      v <- component_per_year_all_zones ns m r (LOAD_ZONES m) p component ;;
      vs <- components_per_year_all_zones ns m r rest p ;;
      Done (v :: vs)
  end.

Definition load_balance_annual_headings (mod_ : LoadZones.ledger)
  : list string :=
  ["period"]%string
  ++ (LoadZones.Zone_Power_Injections mod_
      ++ LoadZones.Zone_Power_Withdrawals mod_).

(** The [values] of a row of load_balance_annual.csv. *)
Definition load_balance_annual_values (ns : LoadZones.namespace)
           (mod_ : LoadZones.ledger) (m : model) (r : report_inputs)
           (p : period) : outcome (list cell) :=
  injections <-
    components_per_year_all_zones ns m r
      (LoadZones.Zone_Power_Injections mod_) p ;;
  withdrawals <-
    components_per_year_all_zones ns m r
      (LoadZones.Zone_Power_Withdrawals mod_) p ;;
  Done ([Label p]
        ++ map Number injections
        ++ map (fun x => Number (- x)) withdrawals).

End LoadBalanceReport.

(** ** The construction dictionaries of build.py

    [GENS_IN_ZONE] and [GENS_BY_TECHNOLOGY] are filled through a
    dictionary kept as an attribute of the model: the first call of the
    initializer builds it in one pass over the projects, every call pops
    its own entry, and the call that empties it deletes the attribute. *)

Module ConstructionDict.

(** A Python dictionary from names to lists of projects, in insertion
    order. *)
Definition dict := list (string * list gen).

Definition get (d : dict) (k : string) : option (list gen) :=
  option_map snd (find (fun kv => String.eqb (fst kv) k) d).

(** [d[k] = v] *)
Fixpoint set (d : dict) (k : string) (v : list gen) : dict :=
  match d with
  | [] => [(k, v)]
  | (k', v') :: rest =>
      if String.eqb k' k then (k, v) :: rest else (k', v') :: set rest k v
  end.

(** [d[k].append(g)]; [None] is the KeyError of a missing key. *)
Definition append (d : dict) (k : string) (g : gen) : option dict :=
  match get d k with
  | Some v => Some (set d k (v ++ [g]))
  | None => None
  end.

(** [d.pop(k)]; [None] is the KeyError of a missing key. *)
Definition pop (d : dict) (k : string) : option (list gen * dict) :=
  match get d k with
  | Some v => Some (v, filter (fun kv => negb (String.eqb (fst kv) k)) d)
  | None => None
  end.

(** [{k: [] for k in keys}] *)
Definition empty_lists (keys : list string) : dict :=
  fold_left (fun d k => set d k []) keys [].

(** [for g in gens: d[key_of[g]].append(g)] *)
Fixpoint fill (key_of : gen -> string) (gens : list gen) (d : dict)
  : option dict :=
  match gens with
  | [] => Some d
  | g :: rest =>
      match append d (key_of g) g with
      | Some d' => fill key_of rest d'
      | None => None
      end
  end.

(** One call of the initializer. The state is the attribute: [None] when
    the model has no such attribute. The result is the popped list and the
    attribute afterwards; [None] for the call is a KeyError. *)
Definition init (keys : list string) (key_of : gen -> string)
           (gens : list gen) (attribute : option dict) (k : string)
  : option (list gen * option dict) :=
  match (match attribute with
         | Some d => Some d
         | None => fill key_of gens (empty_lists keys)
         end) with
  | None => None
  | Some d =>
      match pop d k with
      | None => None
      | Some (result, d') =>
          Some (result, match d' with
                        | [] => None
                        | _ :: _ => Some d'
                        end)
      end
  end.

(** Pyomo building an indexed set: the initializer is called once for
    each index, in order. *)
Fixpoint init_each (keys : list string) (key_of : gen -> string)
         (gens : list gen) (attribute : option dict) (index : list string)
  : option (list (string * list gen) * option dict) :=
  match index with
  | [] => Some ([], attribute)
  | k :: rest =>
      match init keys key_of gens attribute k with
      | None => None
      | Some (result, attribute') =>
          match init_each keys key_of gens attribute' rest with
          | None => None
          | Some (results, attribute'') =>
              Some ((k, result) :: results, attribute'')
          end
      end
  end.

Definition GENS_IN_ZONE_init (m : model) (attribute : option dict) (z : zone)
  : option (list gen * option dict) :=
  init (LOAD_ZONES m) (gen_load_zone m) (GENERATION_PROJECTS m) attribute z.

(** [GENS_IN_ZONE = Set(LOAD_ZONES, initialize=GENS_IN_ZONE_init)] *)
Definition GENS_IN_ZONE (m : model)
  : option (list (zone * list gen) * option dict) :=
  init_each (LOAD_ZONES m) (gen_load_zone m) (GENERATION_PROJECTS m)
            None (LOAD_ZONES m).

(** [GENERATION_TECHNOLOGIES]: the set of the technologies of the
    projects; [gen_tech] is a column of generation_projects_info.csv. *)
Definition GENERATION_TECHNOLOGIES (m : model) (gen_tech : gen -> string)
  : list string :=
  nodup string_dec (map gen_tech (GENERATION_PROJECTS m)).

Definition GENS_BY_TECHNOLOGY_init (m : model) (gen_tech : gen -> string)
           (attribute : option dict) (t : string)
  : option (list gen * option dict) :=
  init (GENERATION_TECHNOLOGIES m gen_tech) gen_tech (GENERATION_PROJECTS m)
       attribute t.

Definition GENS_BY_TECHNOLOGY (m : model) (gen_tech : gen -> string)
  : option (list (string * list gen) * option dict) :=
  init_each (GENERATION_TECHNOLOGIES m gen_tech) gen_tech
            (GENERATION_PROJECTS m) None (GENERATION_TECHNOLOGIES m gen_tech).

(** The projects of a key, in the order of the project list. *)
Definition gens_with (key_of : gen -> string) (gens : list gen) (k : string)
  : list gen :=
  filter (fun g => String.eqb (key_of g) k) gens.

End ConstructionDict.

(** ** Production tax credit ([policies/ptc.py])

    The module reads [BLD_YRS_FOR_GEN_PERIOD] and [BuildGen] of the build
    module. [GEN_TPS], [GENS_IN_PERIOD] and [DispatchGen] belong to the
    dispatch module and are taken as they are given. A lookup returns
    [None] where Pyomo raises the KeyError of an index outside the index
    set of the component. *)

Module PTC.

Record inputs : Type := {
  (** ptc_values.csv: the (period, technology) rows and their
      [ptc_value] column *)
  ptc_years : list (period * string);
  ptc_value : period * string -> option R;
  gen_tech : gen -> string;
  GEN_TPS : list (gen * timepoint);
  GENS_IN_PERIOD : period -> list gen
}.

Definition in_ptc_years (k : period * string) (l : list (period * string))
  : bool :=
  existsb (fun k' => Z.eqb (fst k') (fst k) && String.eqb (snd k') (snd k)) l.

(** [ptc_inputs[p, tech]]: a parameter over [ptc_years] with default 0. *)
Definition ptc_inputs (i : inputs) (k : period * string) : option R :=
  if in_ptc_years k (ptc_years i)
  then Some (with_default 0 (ptc_value i k))
  else None.

Definition ptc_eligible_yrs (m : model) (g : gen) (p : period) : list year :=
  nodup Z.eq_dec
        (filter (fun bld_yr => (2025 <=? bld_yr)%Z && (bld_yr <? 2035)%Z
                               && (p <? 2040)%Z)
                (Build.BLD_YRS_FOR_GEN_PERIOD m g p)).

Definition PTC_Capacity (m : model) (s : solution) (gp : gen * period) : R :=
  let (g, p) := gp in
  psum (map (fun bld_yr => BuildGen s (g, bld_yr)) (ptc_eligible_yrs m g p)).

Definition PTC_CapacityInTP (m : model) (s : solution) (gt : gen * timepoint)
  : R :=
  let (g, t) := gt in PTC_Capacity m s (g, tp_period m t).

(** The variable [PTC], as a value for every index. *)
Definition PTC_var (i : inputs) (PTC : gen * timepoint -> R) : Prop :=
  Var (GEN_TPS i) NonNegativeReals (@unbounded _) PTC.

Definition PTC_lower_bound (m : model) (i : inputs) (s : solution)
           (PTC : gen * timepoint -> R)
  : list ((gen * timepoint) * constraint) :=
  Constraint (GEN_TPS i)
    (fun gt => Some (LeC (PTC gt) (PTC_CapacityInTP m s gt))).

Definition PTC_upper_bound (i : inputs) (s : solution)
           (PTC : gen * timepoint -> R)
  : list ((gen * timepoint) * constraint) :=
  Constraint (GEN_TPS i)
    (fun gt => Some (LeC (PTC gt) (DispatchGen s gt))).

(** [m.PTC[g, t]] *)
Definition PTC_at (i : inputs) (PTC : gen * timepoint -> R)
           (gt : gen * timepoint) : option R :=
  if in_pairs gt (GEN_TPS i) then Some (PTC gt) else None.

(** [sum(...)] over terms whose evaluation may raise. *)
Fixpoint sum_terms (terms : list (option R)) : option R :=
  match terms with
  | [] => Some 0
  | None :: _ => None
  | Some x :: rest =>
      match sum_terms rest with
      | Some total => Some (x + total)
      | None => None
      end
  end.

(** The technologies with a row in ptc_values.csv:
    [set([item[1] for item in m.ptc_years.data()])]. *)
Definition ptc_techs (i : inputs) : list string :=
  nodup string_dec (map snd (ptc_years i)).

Definition credited (m : model) (i : inputs) (t : timepoint) (g : gen) : bool :=
  in_strs (gen_tech i g) (ptc_techs i) && (tp_period m t <? 2040)%Z.

Definition PTC_term (m : model) (i : inputs) (PTC : gen * timepoint -> R)
           (t : timepoint) (g : gen) : option R :=
  match PTC_at i PTC (g, t), ptc_inputs i (tp_period m t, gen_tech i g) with
  | Some x, Some v => Some (- x * v)
  | _, _ => None
  end.

Definition PTC_per_tp (m : model) (i : inputs) (PTC : gen * timepoint -> R)
           (t : timepoint) : option R :=
  sum_terms (map (PTC_term m i PTC t)
                 (filter (credited m i t) (GENS_IN_PERIOD i (tp_period m t)))).

End PTC.

(** The two-zone instance with its timepoints in the 2030 period, the
    nuclear project running, and a credit of 15 $/MWh for nuclear and
    wind in that period. *)
Module ExamplePTC.

Local Open Scope string_scope.

Definition m : model := {|
  PERIODS := PERIODS Example.m;
  period_start := period_start Example.m;
  period_length_years := period_length_years Example.m;
  TIMEPOINTS := TIMEPOINTS Example.m;
  tp_period := fun _ => 2030%Z;
  tp_duration_hrs := tp_duration_hrs Example.m;
  tp_previous := tp_previous Example.m;
  TPS_IN_PERIOD := fun p => if (p =? 2030)%Z then [1; 2]%Z else [];
  LOAD_ZONES := LOAD_ZONES Example.m;
  zone_demand_mw := zone_demand_mw Example.m;
  GENERATION_PROJECTS := GENERATION_PROJECTS Example.m;
  gen_load_zone := gen_load_zone Example.m;
  gen_max_age := gen_max_age Example.m;
  gen_retirement_year_input := gen_retirement_year_input Example.m;
  gen_capacity_limit_mw := gen_capacity_limit_mw Example.m;
  gen_min_build_capacity_input := gen_min_build_capacity_input Example.m;
  PREDETERMINED_GEN_BLD_YRS := PREDETERMINED_GEN_BLD_YRS Example.m;
  GEN_BLD_YRS := GEN_BLD_YRS Example.m;
  gen_predetermined_cap := gen_predetermined_cap Example.m;
  TPS_FOR_GEN := TPS_FOR_GEN Example.m;
  STORAGE_GENS := STORAGE_GENS Example.m;
  gen_storage_efficiency := gen_storage_efficiency Example.m;
  gen_discharge_efficiency_input := gen_discharge_efficiency_input Example.m;
  gen_storage_energy_to_power_ratio_input :=
    gen_storage_energy_to_power_ratio_input Example.m;
  gen_storage_max_cycles_per_year_input :=
    gen_storage_max_cycles_per_year_input Example.m;
  gen_self_discharge_rate_input := gen_self_discharge_rate_input Example.m;
  gen_min_soc_input := gen_min_soc_input Example.m;
  gen_predetermined_storage_energy_mwh :=
    gen_predetermined_storage_energy_mwh Example.m;
  TRANSMISSION_LINES := TRANSMISSION_LINES Example.m;
  trans_lz1 := trans_lz1 Example.m;
  trans_lz2 := trans_lz2 Example.m;
  trans_d_line := trans_d_line Example.m;
  trans_efficiency := trans_efficiency Example.m
|}.

Definition s : solution := {|
  BuildGen := BuildGen Example.s;
  BuildMinGenCap := BuildMinGenCap Example.s;
  BuildStorageEnergy := BuildStorageEnergy Example.s;
  ChargeStorage := ChargeStorage Example.s;
  StateOfCharge := StateOfCharge Example.s;
  DispatchGen := fun gt =>
    if String.eqb (fst gt) "Nuclear" then 500 else 0;
  DispatchTx := DispatchTx Example.s;
  TxCapacityNameplateAvailable := TxCapacityNameplateAvailable Example.s
|}.

Definition i : PTC.inputs := {|
  PTC.ptc_years := [(2030%Z, "Nuclear-tech"); (2030%Z, "Wind-tech")];
  PTC.ptc_value := fun _ => Some 15;
  PTC.gen_tech := fun g => g ++ "-tech";
  PTC.GEN_TPS := [("Nuclear", 1%Z); ("Wind", 1%Z)];
  PTC.GENS_IN_PERIOD := fun _ => ["Nuclear"; "Wind"]
|}.

Definition PTC : gen * timepoint -> R :=
  fun gt => if String.eqb (fst gt) "Nuclear" then 3 else 0.

End ExamplePTC.

(** ** The cached summation of storage charging
    ([rule] of [StorageNetCharge] in [generators/extensions/storage.py])

    The rule as it is written, with the dictionary it caches on the model
    and pops from. [Storage.StorageNetCharge] above is what one call per
    index returns. *)

Module ChargeSummation.

Definition key := (zone * timepoint)%type.

Definition key_eqb (k k' : key) : bool :=
  String.eqb (fst k) (fst k') && Z.eqb (snd k) (snd k').

(** A [collections.defaultdict(set)], in insertion order; a set is a
    list without repetition. *)
Definition dict := list (key * list gen).

Definition get (d : dict) (k : key) : option (list gen) :=
  option_map snd (find (fun kv => key_eqb (fst kv) k) d).

(** [d[k].add(g)]: a missing key starts from the empty set. *)
Fixpoint add (d : dict) (k : key) (g : gen) : dict :=
  match d with
  | [] => [(k, [g])]
  | (k', v) :: rest =>
      if key_eqb k' k
      then (k', if in_strs g v then v else v ++ [g]) :: rest
      else (k', v) :: add rest k g
  end.

(** [d.pop(k, {})] *)
Definition pop (d : dict) (k : key) : list gen * dict :=
  match get d k with
  | Some v => (v, filter (fun kv => negb (key_eqb (fst kv) k)) d)
  | None => ([], d)
  end.

(** The dictionary of the first call. *)
Definition Storage_Charge_Summation_dict (m : model) : dict :=
  fold_left (fun d gt =>
               let '(g, t2) := gt in
               let z2 := gen_load_zone m g in
               add d (z2, t2) g)
            (Storage.STORAGE_GEN_TPS m) [].

(** One call of the rule. The state is the attribute of the model:
    [None] before the first call. *)
Definition rule (m : model) (s : solution) (attribute : option dict)
           (zt : key) : R * option dict :=
  let (z, t) := zt in
  let d := match attribute with
           | Some d => d
           | None => Storage_Charge_Summation_dict m
           end in
  let (relevant_projects, d') := pop d (z, t) in
  (psum (map (fun g => ChargeStorage s (g, t)) relevant_projects), Some d').

(** Pyomo building the expression: the rule is called once for each
    index, in order. *)
Fixpoint rule_each (m : model) (s : solution) (attribute : option dict)
         (index : list key) : list (key * R) * option dict :=
  match index with
  | [] => ([], attribute)
  | zt :: rest =>
      let (value, attribute') := rule m s attribute zt in
      let (values, attribute'') := rule_each m s attribute' rest in
      ((zt, value) :: values, attribute'')
  end.

(** [StorageNetCharge = Expression(LOAD_ZONES, TIMEPOINTS, rule=rule)] *)
Definition StorageNetCharge (m : model) (s : solution)
  : list (key * R) * option dict :=
  rule_each m s None (list_prod (LOAD_ZONES m) (TIMEPOINTS m)).

End ChargeSummation.

(** ** Fixed costs of generation ([define_components] of build.py)

    The capital recovery factor [crf] and the interest rate come from the
    financials module and are taken as they are given. *)

Module BuildCosts.

Record inputs : Type := {
  gen_connect_cost_per_mw : gen -> R;
  gen_overnight_cost : gen * year -> R;
  gen_fixed_om : gen * year -> R;
  interest_rate : R;
  crf : R -> Z -> R
}.

Definition gen_capital_cost_annual (m : model) (c : inputs) (gb : gen * year)
  : R :=
  let (g, bld_yr) := gb in
  (gen_overnight_cost c (g, bld_yr) + gen_connect_cost_per_mw c g)
  * crf c (interest_rate c) (gen_max_age m g).

Definition GenCapitalCosts (m : model) (c : inputs) (s : solution)
           (gp : gen * period) : R :=
  let (g, p) := gp in
  psum (map (fun bld_yr => BuildGen s (g, bld_yr)
                           * gen_capital_cost_annual m c (g, bld_yr))
            (Build.BLD_YRS_FOR_GEN_PERIOD m g p)).

Definition GenFixedOMCosts (m : model) (c : inputs) (s : solution)
           (gp : gen * period) : R :=
  let (g, p) := gp in
  psum (map (fun bld_yr => BuildGen s (g, bld_yr) * gen_fixed_om c (g, bld_yr))
            (Build.BLD_YRS_FOR_GEN_PERIOD m g p)).

Definition TotalGenFixedCosts (m : model) (c : inputs) (s : solution)
           (p : period) : R :=
  psum (map (fun g => GenCapitalCosts m c s (g, p) + GenFixedOMCosts m c s (g, p))
            (GENERATION_PROJECTS m)).

End BuildCosts.

(** ** Projects by energy source ([define_components] of build.py)

    [FUELS] and [ENERGY_SOURCES] come from the energy-sources module and
    are taken as they are given; [FUELS_FOR_MULTIFUEL_GEN] is input
    data. *)

Module EnergySources.

Record inputs : Type := {
  FUELS : list string;
  ENERGY_SOURCES : list string;
  gen_energy_source : gen -> string;
  FUELS_FOR_MULTIFUEL_GEN : gen -> list string
}.

Definition gen_uses_fuel (i : inputs) (g : gen) : bool :=
  in_strs (gen_energy_source i g) (FUELS i)
  || String.eqb (gen_energy_source i g) "multiple".

Definition NON_FUEL_BASED_GENS (m : model) (i : inputs) : list gen :=
  filter (fun g => negb (gen_uses_fuel i g)) (GENERATION_PROJECTS m).

Definition FUEL_BASED_GENS (m : model) (i : inputs) : list gen :=
  filter (fun g => gen_uses_fuel i g) (GENERATION_PROJECTS m).

Definition MULTIFUEL_GENS (m : model) (i : inputs) : list gen :=
  filter (fun g => String.eqb (gen_energy_source i g) "multiple")
         (GENERATION_PROJECTS m).

(** An indexed set: the initializer's values, without repetition. *)
Definition FUELS_FOR_GEN (m : model) (i : inputs) (g : gen) : list string :=
  nodup string_dec
        (if in_strs g (MULTIFUEL_GENS m i)
         then FUELS_FOR_MULTIFUEL_GEN i g
         else [gen_energy_source i g]).

(** [for f in fuels: d[f].append(g)] *)
Fixpoint append_each (d : ConstructionDict.dict) (fuels : list string)
         (g : gen) : option ConstructionDict.dict :=
  match fuels with
  | [] => Some d
  | f :: rest =>
      match ConstructionDict.append d f g with
      | Some d' => append_each d' rest g
      | None => None
      end
  end.

(** The loop over the projects of the first call. *)
Fixpoint fill (m : model) (i : inputs) (gens : list gen)
         (d : ConstructionDict.dict) : option ConstructionDict.dict :=
  match gens with
  | [] => Some d
  | g :: rest =>
      match (if in_strs g (FUEL_BASED_GENS m i)
             then append_each d (FUELS_FOR_GEN m i g) g
             else ConstructionDict.append d (gen_energy_source i g) g) with
      | Some d' => fill m i rest d'
      | None => None
      end
  end.

Definition GENS_BY_ENERGY_SOURCE_init (m : model) (i : inputs)
           (attribute : option ConstructionDict.dict) (e : string)
  : option (list gen * option ConstructionDict.dict) :=
  match (match attribute with
         | Some d => Some d
         | None => fill m i (GENERATION_PROJECTS m)
                        (ConstructionDict.empty_lists (ENERGY_SOURCES i))
         end) with
  | None => None
  | Some d =>
      match ConstructionDict.pop d e with
      | None => None
      | Some (result, d') =>
          Some (result, match d' with
                        | [] => None
                        | _ :: _ => Some d'
                        end)
      end
  end.

(** The initializer called once for each index, in order. *)
Fixpoint GENS_BY_ENERGY_SOURCE_each (m : model) (i : inputs)
         (attribute : option ConstructionDict.dict) (index : list string)
  : option (list (string * list gen) * option ConstructionDict.dict) :=
  match index with
  | [] => Some ([], attribute)
  | e :: rest =>
      match GENS_BY_ENERGY_SOURCE_init m i attribute e with
      | None => None
      | Some (result, attribute') =>
          match GENS_BY_ENERGY_SOURCE_each m i attribute' rest with
          | None => None
          | Some (results, attribute'') =>
              Some ((e, result) :: results, attribute'')
          end
      end
  end.

(** [GENS_BY_ENERGY_SOURCE = Set(ENERGY_SOURCES, initialize=...)] *)
Definition GENS_BY_ENERGY_SOURCE (m : model) (i : inputs)
  : option (list (string * list gen) * option ConstructionDict.dict) :=
  GENS_BY_ENERGY_SOURCE_each m i None (ENERGY_SOURCES i).

(** The energy sources a project is filed under. *)
Definition sources_of (m : model) (i : inputs) (g : gen) : list string :=
  if in_strs g (FUEL_BASED_GENS m i)
  then FUELS_FOR_GEN m i g
  else [gen_energy_source i g].

End EnergySources.

(** The two-zone instance with a coal plant that can also burn gas. *)
Module ExampleEnergy.

Local Open Scope string_scope.

Definition i : EnergySources.inputs := {|
  EnergySources.FUELS := ["Coal"; "Gas"; "Uranium"];
  EnergySources.ENERGY_SOURCES := ["Coal"; "Gas"; "Uranium"; "Wind";
                                   "Electricity"];
  EnergySources.gen_energy_source := fun g =>
    if String.eqb g "Coal" then "multiple"
    else if String.eqb g "Nuclear" then "Uranium"
    else if String.eqb g "Battery" then "Electricity"
    else g;
  EnergySources.FUELS_FOR_MULTIFUEL_GEN := fun _ => ["Coal"; "Gas"]
|}.

End ExampleEnergy.

(** * Properties *)

(** ** Kernel lemmas *)

Section KernelFacts.

Lemma Rleb_true_iff (x y : R) : Rleb x y = true <-> x <= y.
Proof. unfold Rleb; destruct (Rle_dec x y); split; intros; congruence || auto. Qed.

Lemma Rltb_true_iff (x y : R) : Rltb x y = true <-> x < y.
Proof. unfold Rltb; destruct (Rlt_dec x y); split; intros; congruence || auto. Qed.

Lemma Reqb_true_iff (x y : R) : Reqb x y = true <-> x = y.
Proof. unfold Reqb; destruct (Req_dec_T x y); split; intros; congruence || auto. Qed.

Lemma Reqb_false_iff (x y : R) : Reqb x y = false <-> x <> y.
Proof. unfold Reqb; destruct (Req_dec_T x y); split; intros; congruence || auto. Qed.

Lemma in_strs_iff (x : string) (l : list string) : in_strs x l = true <-> In x l.
Proof.
  unfold in_strs; rewrite existsb_exists; split.
  - intros [y [Hy He]]. apply String.eqb_eq in He. now subst.
  - intros H. exists x. split; [assumption | apply String.eqb_refl].
Qed.

Lemma in_Zs_iff (x : Z) (l : list Z) : in_Zs x l = true <-> In x l.
Proof.
  unfold in_Zs; rewrite existsb_exists; split.
  - intros [y [Hy He]]. apply Z.eqb_eq in He. now subst.
  - intros H. exists x. split; [assumption | apply Z.eqb_refl].
Qed.

Lemma in_pairs_iff (x : string * Z) (l : list (string * Z)) :
  in_pairs x l = true <-> In x l.
Proof.
  unfold in_pairs; rewrite existsb_exists; split.
  - intros [[a b] [Hy He]]. destruct x as [u v]; simpl in He.
    apply andb_true_iff in He as [H1 H2].
    apply String.eqb_eq in H1. apply Z.eqb_eq in H2. now subst.
  - intros H. exists x. split; [assumption |].
    now rewrite String.eqb_refl, Z.eqb_refl.
Qed.

Lemma in_zone_pairs_iff (x : string * string) (l : list (string * string)) :
  in_zone_pairs x l = true <-> In x l.
Proof.
  unfold in_zone_pairs; rewrite existsb_exists; split.
  - intros [[a b] [Hy He]]. destruct x as [u v]; simpl in He.
    apply andb_true_iff in He as [H1 H2].
    apply String.eqb_eq in H1. apply String.eqb_eq in H2. now subst.
  - intros H. exists x. split; [assumption |].
    now rewrite !String.eqb_refl.
Qed.

Variable I : Type.

Lemma Constraint_In (index : list I) (rule : I -> option constraint) i c :
  In (i, c) (Constraint index rule) <-> In i index /\ rule i = Some c.
Proof.
  unfold Constraint; rewrite in_flat_map; split.
  - intros [j [Hj Hin]]. destruct (rule j) as [c'|] eqn:E; simpl in Hin.
    + destruct Hin as [Heq | []]. inversion Heq; subst. auto.
    + contradiction.
  - intros [Hi Hr]. exists i. rewrite Hr. simpl; auto.
Qed.

Lemma Constraint_satisfied (index : list I) (rule : I -> option constraint) i c :
  all_satisfied (Constraint index rule) ->
  In i index -> rule i = Some c -> satisfied c.
Proof.
  intros Hall Hi Hr. unfold all_satisfied in Hall.
  rewrite Forall_forall in Hall.
  apply (Hall (i, c)). apply Constraint_In; auto.
Qed.

Lemma Constraint_try_Done (index : list I) (rule : I -> outcome constraint) cs :
  Constraint_try index rule = Done cs ->
  map fst cs = index /\
  forall i, In i index -> exists c, rule i = Done c /\ In (i, c) cs.
Proof.
  revert cs; induction index as [| j rest IH]; intros cs H; simpl in H.
  - inversion H; subst. split; [reflexivity | intros i []].
  - destruct (rule j) as [c|e] eqn:Ej; simpl in H; [| discriminate].
    destruct (Constraint_try rest rule) as [cs'|e] eqn:Er; simpl in H;
      [| discriminate].
    inversion H; subst; clear H.
    destruct (IH cs' eq_refl) as [Hfst Hall]. split.
    + simpl. now rewrite Hfst.
    + intros i [<- | Hi].
      * exists c. split; [assumption | now left].
      * destruct (Hall i Hi) as [c' [Hc' Hin]].
        exists c'. split; [assumption | now right].
Qed.

Lemma Constraint_try_Raised (index : list I) (rule : I -> outcome constraint) i e :
  In i index -> rule i = Raised e ->
  exists e', Constraint_try index rule = Raised e'.
Proof.
  induction index as [| j rest IH]; intros Hi Hr; [contradiction |].
  simpl. destruct Hi as [-> | Hi].
  - rewrite Hr. simpl. eauto.
  - destruct (rule j) as [c|e0]; simpl; [| eauto].
    destruct (IH Hi Hr) as [e' ->]. simpl. eauto.
Qed.

End KernelFacts.

Lemma psum_nonneg (xs : list R) : Forall (fun x => 0 <= x) xs -> 0 <= psum xs.
Proof.
  induction 1 as [| x xs Hx _ IH]; simpl; lra.
Qed.

Lemma psum_Permutation (xs ys : list R) : Permutation xs ys -> psum xs = psum ys.
Proof.
  induction 1; simpl; lra.
Qed.

(** ** Energy balance *)

Section EnergyBalance.

Import LoadZones.

Lemma component_sum_Done ns names z t v :
  component_sum ns names z t = Done v ->
  exists fs, resolves ns names fs /\ v = psum (map (fun f => f z t) fs).
Proof.
  revert v; induction names as [| c rest IH]; intros v H; simpl in H.
  - inversion H; subst. exists []. split; [constructor | reflexivity].
  - unfold getattr in H. destruct (ns c) as [f|] eqn:Ec; simpl in H;
      [| discriminate].
    destruct (component_sum ns rest z t) as [s|e] eqn:Er; simpl in H;
      [| discriminate].
    inversion H; subst; clear H.
    destruct (IH s eq_refl) as [fs [Hfs Hs]].
    exists (f :: fs). split; [constructor; assumption |].
    simpl. now rewrite Hs.
Qed.

Lemma resolves_functional ns names fs fs' :
  resolves ns names fs -> resolves ns names fs' -> fs = fs'.
Proof.
  intros H; revert fs'; induction H as [| c f names fs Hc _ IH];
    intros fs' H'; inversion H'; subst; [reflexivity |].
  f_equal; [congruence | auto].
Qed.

Lemma define_dynamic_lists_empty mod_ :
  Zone_Power_Injections (define_dynamic_lists mod_) = [] /\
  Zone_Power_Withdrawals (define_dynamic_lists mod_) = [].
Proof. split; reflexivity. Qed.

Lemma append_injection_registers name mod_ :
  Zone_Power_Injections (append_injection name mod_)
  = Zone_Power_Injections mod_ ++ [name] /\
  Zone_Power_Withdrawals (append_injection name mod_)
  = Zone_Power_Withdrawals mod_.
Proof. split; reflexivity. Qed.

Lemma append_withdrawal_registers name mod_ :
  Zone_Power_Withdrawals (append_withdrawal name mod_)
  = Zone_Power_Withdrawals mod_ ++ [name] /\
  Zone_Power_Injections (append_withdrawal name mod_)
  = Zone_Power_Injections mod_.
Proof. split; reflexivity. Qed.

End EnergyBalance.

(** C1. The balance constraint is emitted once for every pair of the cross
    product of load zones and timepoints, and where it is satisfied the
    components registered as injections, each evaluated at (z, t), sum to
    the same value as the components registered as withdrawals, whatever
    names the modules appended to the two lists. *)
Theorem Zone_Energy_Balance_conservation :
  forall (ns : LoadZones.namespace) (mod_ : LoadZones.ledger) (m : model) cs,
    LoadZones.Zone_Energy_Balance ns mod_ m = Done cs ->
    all_satisfied cs ->
    map fst cs = list_prod (LOAD_ZONES m) (TIMEPOINTS m) /\
    forall z t, In z (LOAD_ZONES m) -> In t (TIMEPOINTS m) ->
      exists injections withdrawals,
        LoadZones.resolves ns (LoadZones.Zone_Power_Injections mod_) injections /\
        LoadZones.resolves ns (LoadZones.Zone_Power_Withdrawals mod_) withdrawals /\
        In ((z, t), EqC (psum (map (fun f => f z t) injections))
                        (psum (map (fun f => f z t) withdrawals))) cs /\
        psum (map (fun f => f z t) injections)
        = psum (map (fun f => f z t) withdrawals).
Proof.
  intros ns mod_ m cs Hcs Hsat.
  unfold LoadZones.Zone_Energy_Balance, LoadZones.ZONE_TIMEPOINTS in Hcs.
  destruct (Constraint_try_Done _ _ Hcs) as [Hfst Hall].
  split; [assumption |].
  intros z t Hz Ht.
  destruct (Hall (z, t)) as [c [Hc Hin]]; [now apply in_prod |].
  unfold LoadZones.Zone_Energy_Balance_rule in Hc.
  destruct (LoadZones.component_sum ns (LoadZones.Zone_Power_Injections mod_) z t)
    as [lhs|e] eqn:El; simpl in Hc; [| discriminate].
  destruct (LoadZones.component_sum ns (LoadZones.Zone_Power_Withdrawals mod_) z t)
    as [rhs|e] eqn:Er; simpl in Hc; [| discriminate].
  inversion Hc; subst c; clear Hc.
  destruct (component_sum_Done _ _ _ _ El) as [inj [Hinj ->]].
  destruct (component_sum_Done _ _ _ _ Er) as [wd [Hwd ->]].
  exists inj, wd. repeat split; try assumption.
  unfold all_satisfied in Hsat. rewrite Forall_forall in Hsat.
  exact (Hsat _ Hin).
Qed.

Lemma Example_Zone_Energy_Balance :
  exists cs,
    LoadZones.Zone_Energy_Balance Example.ns Example.ledger Example.m = Done cs
    /\ all_satisfied cs.
Proof.
  eexists. split.
  - vm_compute. reflexivity.
  - repeat constructor; simpl; lra.
Defined.

Lemma Zone_Energy_Balance_conservation_witness :
  exists injections withdrawals,
    LoadZones.resolves Example.ns
      ["ZoneTotalCentralDispatch"; "TXPowerNet"]%string injections /\
    LoadZones.resolves Example.ns
      ["zone_demand_mw"; "StorageNetCharge"]%string withdrawals /\
    psum (map (fun f => f "North"%string 1%Z) injections)
    = psum (map (fun f => f "North"%string 1%Z) withdrawals).
Proof.
  destruct Example_Zone_Energy_Balance as [cs [Hcs Hsat]].
  destruct (Zone_Energy_Balance_conservation _ _ _ Hcs Hsat) as [_ H].
  destruct (H "North"%string 1%Z) as [inj [wd [Hi [Hw [_ Heq]]]]].
  - simpl; auto.
  - simpl; auto.
  - exists inj, wd. repeat split; assumption.
Defined.

(** ** Installed capacity *)

Section Capacity.

Variable m : model.

Lemma BLD_YRS_FOR_GEN_In g b :
  In b (Build.BLD_YRS_FOR_GEN m g) <-> In (g, b) (GEN_BLD_YRS m).
Proof.
  unfold Build.BLD_YRS_FOR_GEN. rewrite nodup_In, in_map_iff. split.
  - intros [[g' b'] [Hb Hin]]. simpl in Hb; subst b'.
    apply filter_In in Hin as [Hin Hg]. simpl in Hg.
    apply String.eqb_eq in Hg. now subst.
  - intros Hin. exists (g, b). split; [reflexivity |].
    apply filter_In. split; [assumption | apply String.eqb_refl].
Qed.

Lemma gen_retirement_year_spec g b :
  (if Reqb (Build.gen_retirement_year m g) 0
   then Build.online_year m b + IZR (gen_max_age m g)
   else Build.gen_retirement_year m g)
  = Build.retirement_year m g b.
Proof.
  unfold Build.gen_retirement_year, Build.retirement_year, with_default, Reqb.
  destruct (gen_retirement_year_input m g) as [y|].
  - destruct (Req_dec_T y 0); reflexivity.
  - destruct (Req_dec_T 0 0); [reflexivity | contradiction].
Qed.

Lemma gen_build_can_operate_in_period_spec g b p :
  Build.gen_build_can_operate_in_period m g b p = true
  <-> Build.operable m g b p.
Proof.
  unfold Build.gen_build_can_operate_in_period.
  fold (Build.online_year m b). rewrite gen_retirement_year_spec.
  rewrite andb_true_iff, Rleb_true_iff, Rltb_true_iff. reflexivity.
Qed.

Lemma BLD_YRS_FOR_GEN_PERIOD_In g p b :
  In b (Build.BLD_YRS_FOR_GEN_PERIOD m g p)
  <-> In (g, b) (GEN_BLD_YRS m) /\ Build.operable m g b p.
Proof.
  unfold Build.BLD_YRS_FOR_GEN_PERIOD.
  rewrite nodup_In, filter_In, BLD_YRS_FOR_GEN_In,
    gen_build_can_operate_in_period_spec.
  reflexivity.
Qed.

Lemma BLD_YRS_FOR_GEN_PERIOD_NoDup g p :
  NoDup (Build.BLD_YRS_FOR_GEN_PERIOD m g p).
Proof. apply NoDup_nodup. Qed.

End Capacity.

(** C3. The installed capacity of project g in period p is the sum of
    BuildGen[g, b] over the build years b of g, each counted once, that
    pass the operability test for p (online <= period start + half the
    period length < retirement; online is the start of the period that b
    names, or b itself; retirement is online + max age unless a retirement
    year is given); as every BuildGen is non-negative, it is >= 0. *)
Theorem GenCapacity_sums_operable_builds :
  forall (m : model) (s : solution) (g : gen) (p : period),
    Build.BuildGen_var m s ->
    exists build_years,
      NoDup build_years /\
      (forall b, In b build_years
                 <-> In (g, b) (GEN_BLD_YRS m) /\ Build.operable m g b p) /\
      Build.GenCapacity m s (g, p)
      = psum (map (fun b => BuildGen s (g, b)) build_years) /\
      0 <= Build.GenCapacity m s (g, p).
Proof.
  intros m s g p Hvar.
  exists (Build.BLD_YRS_FOR_GEN_PERIOD m g p).
  split; [apply BLD_YRS_FOR_GEN_PERIOD_NoDup |].
  split; [intros b; apply BLD_YRS_FOR_GEN_PERIOD_In |].
  split; [reflexivity |].
  unfold Build.GenCapacity. apply psum_nonneg.
  rewrite Forall_forall. intros x Hx.
  apply in_map_iff in Hx as [b [<- Hb]].
  apply BLD_YRS_FOR_GEN_PERIOD_In in Hb as [Hb _].
  destruct (Hvar (g, b) Hb) as [Hdom _]. exact Hdom.
Qed.

Lemma Example_BuildGen_var : Build.BuildGen_var Example.m Example.s.
Proof.
  intros i Hi. simpl in Hi.
  repeat (destruct Hi as [<- | Hi]; [vm_compute; repeat split; lra |]).
  contradiction.
Defined.

Lemma GenCapacity_sums_operable_builds_witness :
  exists build_years,
    NoDup build_years /\
    (forall b, In b build_years
               <-> In ("Coal"%string, b) (GEN_BLD_YRS Example.m)
                   /\ Build.operable Example.m "Coal"%string b 2020%Z) /\
    Build.GenCapacity Example.m Example.s ("Coal"%string, 2020%Z)
    = psum (map (fun b => BuildGen Example.s ("Coal"%string, b)) build_years) /\
    0 <= Build.GenCapacity Example.m Example.s ("Coal"%string, 2020%Z).
Proof.
  exact (GenCapacity_sums_operable_builds "Coal"%string 2020%Z
           Example_BuildGen_var).
Defined.

(** Evaluating the comparisons of a rule at given numbers. *)
Ltac decide_R :=
  repeat match goal with
         | |- context [Req_dec_T ?a ?b] => destruct (Req_dec_T a b); try lra
         | |- context [Rle_dec ?a ?b] => destruct (Rle_dec a b); try lra
         | |- context [Rlt_dec ?a ?b] => destruct (Rlt_dec a b); try lra
         end.

Example Example_BLD_YRS_FOR_Battery_2030 :
  Build.BLD_YRS_FOR_GEN_PERIOD Example.m "Battery"%string 2030%Z = [2020%Z].
Proof.
  unfold Build.BLD_YRS_FOR_GEN_PERIOD, Build.BLD_YRS_FOR_GEN.
  cbn -[Rplus Rmult IZR Build.gen_build_can_operate_in_period].
  unfold Build.gen_build_can_operate_in_period, Build.gen_retirement_year,
    Reqb, Rleb, Rltb.
  cbn -[Rplus Rmult IZR Rle_dec Rlt_dec Req_dec_T].
  decide_R. reflexivity.
Qed.

Example Example_GenCapacity_Coal_2020 :
  Build.GenCapacity Example.m Example.s ("Coal"%string, 2020%Z) = 100.
Proof.
  unfold Build.GenCapacity, Build.BLD_YRS_FOR_GEN_PERIOD, Build.BLD_YRS_FOR_GEN.
  cbn -[Rplus Rmult IZR Build.gen_build_can_operate_in_period].
  unfold Build.gen_build_can_operate_in_period, Build.gen_retirement_year,
    Reqb, Rleb, Rltb.
  cbn -[Rplus Rmult IZR Rle_dec Rlt_dec Req_dec_T].
  decide_R. simpl. lra.
Qed.

(** ** State of charge bounds *)

(** C4. For every storage project g and timepoint t of STORAGE_GEN_TPS, a
    solution within the variable's domain that satisfies the upper and
    lower limit constraints has 0 <= StateOfCharge[g,t] <=
    StorageEnergyCapacity[g, period(t)] and StateOfCharge[g,t] >=
    gen_min_soc[g] * StorageEnergyCapacity[g, period(t)]; gen_min_soc is 0
    where the input gives none. *)
Theorem StateOfCharge_within_capacity :
  forall (m : model) (s : solution) (g : gen) (t : timepoint),
    Storage.feasible_state_of_charge m s ->
    In (g, t) (Storage.STORAGE_GEN_TPS m) ->
    0 <= StateOfCharge s (g, t)
      <= Storage.StorageEnergyCapacity m s (g, tp_period m t) /\
    StateOfCharge s (g, t)
      >= Storage.gen_min_soc m g
         * Storage.StorageEnergyCapacity m s (g, tp_period m t) /\
    (gen_min_soc_input m g = None -> Storage.gen_min_soc m g = 0).
Proof.
  intros m s g t [Hvar [Hup Hlo]] Hin.
  destruct (Hvar (g, t) Hin) as [Hdom _].
  pose proof (Constraint_satisfied _ _ (g, t) Hup Hin eq_refl) as Hu.
  pose proof (Constraint_satisfied _ _ (g, t) Hlo Hin eq_refl) as Hl.
  cbn [satisfied] in Hu, Hl. unfold NonNegativeReals in Hdom.
  split; [lra | split; [lra |]].
  intros Hnone. unfold Storage.gen_min_soc. now rewrite Hnone.
Qed.

Lemma Example_BLD_YRS_FOR_Battery_2020 :
  Build.BLD_YRS_FOR_GEN_PERIOD Example.m "Battery"%string 2020%Z
  = [2015%Z; 2020%Z].
Proof.
  unfold Build.BLD_YRS_FOR_GEN_PERIOD, Build.BLD_YRS_FOR_GEN.
  cbn -[Rplus Rmult IZR Build.gen_build_can_operate_in_period].
  unfold Build.gen_build_can_operate_in_period, Build.gen_retirement_year,
    Reqb, Rleb, Rltb.
  cbn -[Rplus Rmult IZR Rle_dec Rlt_dec Req_dec_T].
  decide_R. reflexivity.
Defined.

Lemma Example_feasible_state_of_charge :
  Storage.feasible_state_of_charge Example.m Example.s.
Proof.
  split; [| split].
  - intros i Hi. simpl in Hi.
    repeat (destruct Hi as [<- | Hi]; [vm_compute; repeat split; lra |]).
    contradiction.
  - unfold all_satisfied, Storage.State_Of_Charge_Upper_Limit.
    rewrite Forall_forall. intros [[g t] c] Hin.
    apply Constraint_In in Hin as [Hin Hr]. inversion Hr; subst c; clear Hr.
    simpl in Hin. cbn [snd satisfied tp_period Example.m].
    repeat (destruct Hin as [Heq | Hin];
            [inversion Heq; subst; rewrite Example_BLD_YRS_FOR_Battery_2020;
             simpl; lra |]).
    contradiction.
  - unfold all_satisfied, Storage.State_Of_Charge_Lower_Limit.
    rewrite Forall_forall. intros [[g t] c] Hin.
    apply Constraint_In in Hin as [Hin Hr]. inversion Hr; subst c; clear Hr.
    simpl in Hin. cbn [snd satisfied tp_period Example.m].
    repeat (destruct Hin as [Heq | Hin];
            [inversion Heq; subst; rewrite Example_BLD_YRS_FOR_Battery_2020;
             unfold Storage.gen_min_soc; simpl; lra |]).
    contradiction.
Defined.

Lemma StateOfCharge_within_capacity_witness :
  0 <= StateOfCharge Example.s ("Battery"%string, 1%Z)
    <= Storage.StorageEnergyCapacity Example.m Example.s
         ("Battery"%string, tp_period Example.m 1%Z) /\
  StateOfCharge Example.s ("Battery"%string, 1%Z)
    >= Storage.gen_min_soc Example.m "Battery"%string
       * Storage.StorageEnergyCapacity Example.m Example.s
           ("Battery"%string, tp_period Example.m 1%Z) /\
  (gen_min_soc_input Example.m "Battery"%string = None ->
   Storage.gen_min_soc Example.m "Battery"%string = 0).
Proof.
  apply (StateOfCharge_within_capacity (m:=Example.m) (s:=Example.s)
           "Battery"%string 1%Z Example_feasible_state_of_charge).
  simpl. auto.
Defined.

(** ** Bounds on the build decisions *)

Section BuildBounds.

Variable m : model.

Lemma CAPACITY_LIMITED_GENS_limit g :
  In g (Build.CAPACITY_LIMITED_GENS m) ->
  exists lim, gen_capacity_limit_mw m g = Some lim.
Proof.
  unfold Build.CAPACITY_LIMITED_GENS. rewrite filter_In. intros [_ H].
  destruct (gen_capacity_limit_mw m g) as [lim|]; [eauto | discriminate].
Qed.

Lemma PREDETERMINED_STORAGE_GEN_BLD_YRS_In gb :
  In gb (Storage.PREDETERMINED_STORAGE_GEN_BLD_YRS m)
  <-> In gb (PREDETERMINED_GEN_BLD_YRS m)
      /\ exists e, gen_predetermined_storage_energy_mwh m gb = Some e.
Proof.
  unfold Storage.PREDETERMINED_STORAGE_GEN_BLD_YRS. rewrite filter_In.
  destruct (gen_predetermined_storage_energy_mwh m gb) as [e|]; split;
    intros [H1 H2]; split; eauto; try discriminate;
    try (destruct H2 as [e' He]; discriminate).
Qed.

Lemma in_pairs_false (x : string * Z) (l : list (string * Z)) :
  in_pairs x l = false <-> ~ In x l.
Proof.
  rewrite <- in_pairs_iff. destruct (in_pairs x l); split; intros H;
    congruence || auto.
Qed.

Lemma in_strs_false (x : string) (l : list string) :
  in_strs x l = false <-> ~ In x l.
Proof.
  rewrite <- in_strs_iff. destruct (in_strs x l); split; intros H;
    congruence || auto.
Qed.

Lemma bounds_BuildGen_predetermined g y :
  In (g, y) (PREDETERMINED_GEN_BLD_YRS m) ->
  Build.bounds_BuildGen m (g, y)
  = (Some (gen_predetermined_cap m (g, y)),
     Some (gen_predetermined_cap m (g, y))).
Proof.
  intros H. unfold Build.bounds_BuildGen.
  apply in_pairs_iff in H. now rewrite H.
Qed.

Lemma bounds_BuildGen_limited g y lim :
  ~ In (g, y) (PREDETERMINED_GEN_BLD_YRS m) ->
  In g (Build.CAPACITY_LIMITED_GENS m) ->
  gen_capacity_limit_mw m g = Some lim ->
  Build.bounds_BuildGen m (g, y) = (Some 0, Some lim).
Proof.
  intros Hn Hc Hl. unfold Build.bounds_BuildGen.
  apply in_pairs_false in Hn. apply in_strs_iff in Hc.
  now rewrite Hn, Hc, Hl.
Qed.

Lemma bounds_BuildGen_free g y :
  ~ In (g, y) (PREDETERMINED_GEN_BLD_YRS m) ->
  ~ In g (Build.CAPACITY_LIMITED_GENS m) ->
  Build.bounds_BuildGen m (g, y) = (Some 0, None).
Proof.
  intros Hn Hc. unfold Build.bounds_BuildGen.
  apply in_pairs_false in Hn. apply in_strs_false in Hc.
  now rewrite Hn, Hc.
Qed.

Lemma bounds_BuildStorageEnergy_predetermined g y e :
  In (g, y) (PREDETERMINED_GEN_BLD_YRS m) ->
  gen_predetermined_storage_energy_mwh m (g, y) = Some e ->
  Storage.bounds_BuildStorageEnergy m (g, y) = (Some e, Some e).
Proof.
  intros Hp He. unfold Storage.bounds_BuildStorageEnergy.
  assert (H : In (g, y) (Storage.PREDETERMINED_STORAGE_GEN_BLD_YRS m))
    by (apply PREDETERMINED_STORAGE_GEN_BLD_YRS_In; eauto).
  apply in_pairs_iff in H. now rewrite H, He.
Qed.

Lemma bounds_BuildStorageEnergy_free g y :
  ~ In (g, y) (PREDETERMINED_GEN_BLD_YRS m)
  \/ gen_predetermined_storage_energy_mwh m (g, y) = None ->
  Storage.bounds_BuildStorageEnergy m (g, y) = (Some 0, None).
Proof.
  intros H. unfold Storage.bounds_BuildStorageEnergy.
  assert (Hn : ~ In (g, y) (Storage.PREDETERMINED_STORAGE_GEN_BLD_YRS m)).
  { rewrite PREDETERMINED_STORAGE_GEN_BLD_YRS_In. intros [Hp [e He]].
    destruct H as [H | H]; [auto | congruence]. }
  apply in_pairs_false in Hn. now rewrite Hn.
Qed.

End BuildBounds.

(** C5. Bounds of the build decisions of a pair (g, y). BuildGen: a
    predetermined pair has lower bound = upper bound = the predetermined
    capacity, so its value is that capacity; otherwise a capacity-limited
    project has bounds [0, gen_capacity_limit_mw]; otherwise the bounds are
    0 and none. BuildStorageEnergy: a predetermined pair with a
    predetermined storage energy value is pinned to that value; any other
    pair has lower bound 0 and no upper bound. *)
Theorem build_decision_bounds :
  forall (m : model) (s : solution) (g : gen) (y : year),
    Build.BuildGen_var m s ->
    Storage.BuildStorageEnergy_var m s ->
    (In (g, y) (GEN_BLD_YRS m) ->
     (In (g, y) (PREDETERMINED_GEN_BLD_YRS m) ->
      Build.bounds_BuildGen m (g, y)
      = (Some (gen_predetermined_cap m (g, y)),
         Some (gen_predetermined_cap m (g, y)))
      /\ BuildGen s (g, y) = gen_predetermined_cap m (g, y)) /\
     (~ In (g, y) (PREDETERMINED_GEN_BLD_YRS m) ->
      In g (Build.CAPACITY_LIMITED_GENS m) ->
      exists lim,
        gen_capacity_limit_mw m g = Some lim
        /\ Build.bounds_BuildGen m (g, y) = (Some 0, Some lim)
        /\ 0 <= BuildGen s (g, y) <= lim) /\
     (~ In (g, y) (PREDETERMINED_GEN_BLD_YRS m) ->
      ~ In g (Build.CAPACITY_LIMITED_GENS m) ->
      Build.bounds_BuildGen m (g, y) = (Some 0, None)
      /\ 0 <= BuildGen s (g, y))) /\
    (In (g, y) (Storage.STORAGE_GEN_BLD_YRS m) ->
     (forall e,
         In (g, y) (PREDETERMINED_GEN_BLD_YRS m) ->
         gen_predetermined_storage_energy_mwh m (g, y) = Some e ->
         Storage.bounds_BuildStorageEnergy m (g, y) = (Some e, Some e)
         /\ BuildStorageEnergy s (g, y) = e) /\
     (~ In (g, y) (PREDETERMINED_GEN_BLD_YRS m)
      \/ gen_predetermined_storage_energy_mwh m (g, y) = None ->
      Storage.bounds_BuildStorageEnergy m (g, y) = (Some 0, None)
      /\ 0 <= BuildStorageEnergy s (g, y))).
Proof.
  intros m s g y HG HS. split.
  - intros Hin. destruct (HG (g, y) Hin) as [Hdom [Hlo Hhi]].
    unfold NonNegativeReals in Hdom. repeat split.
    + now apply bounds_BuildGen_predetermined.
    + rewrite (@bounds_BuildGen_predetermined m g y H) in Hlo, Hhi.
      simpl in Hlo, Hhi. lra.
    + intros Hn Hc.
      destruct (@CAPACITY_LIMITED_GENS_limit m g Hc) as [lim Hlim].
      exists lim. rewrite (@bounds_BuildGen_limited m g y lim Hn Hc Hlim) in *.
      simpl in Hlo, Hhi. repeat split; auto.
    + now apply bounds_BuildGen_free.
    + assumption.
  - intros Hin. destruct (HS (g, y) Hin) as [Hdom [Hlo Hhi]].
    unfold NonNegativeReals in Hdom. split.
    + intros e Hp He.
      rewrite (@bounds_BuildStorageEnergy_predetermined m g y e Hp He) in *.
      simpl in Hlo, Hhi. split; [reflexivity | lra].
    + intros H. split; [now apply bounds_BuildStorageEnergy_free | assumption].
Qed.

Lemma Example_BuildStorageEnergy_var :
  Storage.BuildStorageEnergy_var Example.m Example.s.
Proof.
  intros i Hi. simpl in Hi.
  repeat (destruct Hi as [<- | Hi]; [vm_compute; repeat split; lra |]).
  contradiction.
Defined.

Lemma build_decision_bounds_witness :
  BuildGen Example.s ("Battery"%string, 2015%Z) = 10 /\
  BuildStorageEnergy Example.s ("Battery"%string, 2015%Z) = 40 /\
  (exists lim,
      gen_capacity_limit_mw Example.m "Wind"%string = Some lim
      /\ Build.bounds_BuildGen Example.m ("Wind"%string, 2020%Z)
         = (Some 0, Some lim)
      /\ 0 <= BuildGen Example.s ("Wind"%string, 2020%Z) <= lim).
Proof.
  destruct (build_decision_bounds "Battery"%string 2015%Z
              Example_BuildGen_var Example_BuildStorageEnergy_var)
    as [HG HS].
  destruct (build_decision_bounds "Wind"%string 2020%Z
              Example_BuildGen_var Example_BuildStorageEnergy_var)
    as [HW _].
  split; [| split].
  - destruct HG as [Hp _]; [simpl; auto 10 |].
    destruct Hp as [_ Hv]; [simpl; auto |].
    exact Hv.
  - destruct HS as [Hp _]; [simpl; auto |].
    destruct (Hp 40) as [_ Hv]; [simpl; auto | reflexivity | exact Hv].
  - destruct HW as [_ [Hl _]]; [simpl; auto 10 |].
    apply Hl.
    + simpl. intros [H | [H | []]]; discriminate.
    + simpl. auto.
Defined.

(** ** Minimum build size *)

Section MinBuild.

Variable m : model.

Lemma NEW_GEN_BLD_YRS_In gb :
  In gb (Build.NEW_GEN_BLD_YRS m)
  <-> In gb (GEN_BLD_YRS m) /\ ~ In gb (PREDETERMINED_GEN_BLD_YRS m).
Proof.
  unfold Build.NEW_GEN_BLD_YRS. rewrite filter_In, negb_true_iff.
  now rewrite in_pairs_false.
Qed.

Lemma NEW_GEN_WITH_MIN_BUILD_YEARS_In g y :
  In (g, y) (Build.NEW_GEN_WITH_MIN_BUILD_YEARS m)
  <-> In (g, y) (Build.NEW_GEN_BLD_YRS m)
      /\ 0 < Build.gen_min_build_capacity m g.
Proof.
  unfold Build.NEW_GEN_WITH_MIN_BUILD_YEARS.
  rewrite filter_In, Rltb_true_iff. reflexivity.
Qed.

End MinBuild.

(** C6. For a new (project, build-year) whose project has a positive
    minimum build capacity there is a binary gate BuildMinGenCap, and the
    two constraints give: gate 0 forces BuildGen = 0; gate 1 forces
    gen_min_build_capacity <= BuildGen <= 10^5. For a project without a
    positive minimum there is no gate and neither constraint is emitted. *)
Theorem minimum_build_gate :
  forall (m : model) (s : solution) (g : gen) (y : year),
    Build.feasible m s ->
    In (g, y) (Build.NEW_GEN_BLD_YRS m) ->
    (0 < Build.gen_min_build_capacity m g ->
     In (g, y) (Build.NEW_GEN_WITH_MIN_BUILD_YEARS m) /\
     Binary (BuildMinGenCap s (g, y)) /\
     (BuildMinGenCap s (g, y) = 0 -> BuildGen s (g, y) = 0) /\
     (BuildMinGenCap s (g, y) = 1 ->
      Build.gen_min_build_capacity m g <= BuildGen s (g, y) <= 100000)) /\
    (~ 0 < Build.gen_min_build_capacity m g ->
     ~ In (g, y) (Build.NEW_GEN_WITH_MIN_BUILD_YEARS m) /\
     (forall c, ~ In ((g, y), c) (Build.Enforce_Min_Build_Lower m s)) /\
     (forall c, ~ In ((g, y), c) (Build.Enforce_Min_Build_Upper m s))).
Proof.
  intros m s g y [HG [HB [HL HU]]] Hnew. split.
  - intros Hpos.
    assert (Hin : In (g, y) (Build.NEW_GEN_WITH_MIN_BUILD_YEARS m))
      by (apply NEW_GEN_WITH_MIN_BUILD_YEARS_In; auto).
    apply NEW_GEN_BLD_YRS_In in Hnew as [Hgen _].
    destruct (HG (g, y) Hgen) as [Hnn _]. unfold NonNegativeReals in Hnn.
    destruct (HB (g, y) Hin) as [Hbin _].
    pose proof (Constraint_satisfied _ _ (g, y) HL Hin eq_refl) as Hlo.
    pose proof (Constraint_satisfied _ _ (g, y) HU Hin eq_refl) as Hup.
    cbn [satisfied] in Hlo, Hup.
    unfold Build._gen_max_cap_for_binary_constraints in Hup.
    split; [assumption | split; [assumption | split]].
    + intros H. rewrite H in Hup. lra.
    + intros H. rewrite H in Hlo, Hup. lra.
  - intros Hn.
    assert (Hout : ~ In (g, y) (Build.NEW_GEN_WITH_MIN_BUILD_YEARS m)).
    { rewrite NEW_GEN_WITH_MIN_BUILD_YEARS_In. tauto. }
    repeat split; try assumption; intros c Hc;
      apply Constraint_In in Hc as [Hc _]; auto.
Qed.

Lemma Example_NEW_GEN_WITH_MIN_BUILD_YEARS :
  Build.NEW_GEN_WITH_MIN_BUILD_YEARS Example.m = [("Nuclear"%string, 2030%Z)].
Proof.
  unfold Build.NEW_GEN_WITH_MIN_BUILD_YEARS, Build.NEW_GEN_BLD_YRS,
    Build.gen_min_build_capacity, Rltb.
  cbn -[Rlt_dec IZR]. decide_R. reflexivity.
Defined.

Lemma Example_Build_feasible : Build.feasible Example.m Example.s.
Proof.
  split; [exact Example_BuildGen_var | split; [| split]].
  - unfold Build.BuildMinGenCap_var.
    rewrite Example_NEW_GEN_WITH_MIN_BUILD_YEARS.
    intros i [<- | []]. split; [right; reflexivity | split; exact Logic.I].
  - unfold Build.Enforce_Min_Build_Lower.
    rewrite Example_NEW_GEN_WITH_MIN_BUILD_YEARS.
    repeat constructor. unfold Build.gen_min_build_capacity. simpl. lra.
  - unfold Build.Enforce_Min_Build_Upper.
    rewrite Example_NEW_GEN_WITH_MIN_BUILD_YEARS.
    repeat constructor. unfold Build._gen_max_cap_for_binary_constraints.
    simpl. lra.
Defined.

Lemma minimum_build_gate_witness :
  In ("Nuclear"%string, 2030%Z) (Build.NEW_GEN_WITH_MIN_BUILD_YEARS Example.m) /\
  Binary (BuildMinGenCap Example.s ("Nuclear"%string, 2030%Z)) /\
  Build.gen_min_build_capacity Example.m "Nuclear"%string
  <= BuildGen Example.s ("Nuclear"%string, 2030%Z) <= 100000.
Proof.
  destruct (minimum_build_gate "Nuclear"%string 2030%Z Example_Build_feasible)
    as [Hpos _].
  - apply NEW_GEN_BLD_YRS_In. split; [simpl; auto 10 |].
    simpl. intros [H | [H | []]]; discriminate.
  - destruct Hpos as [Hin [Hbin [_ Hone]]].
    + unfold Build.gen_min_build_capacity. simpl. lra.
    + split; [exact Hin | split; [exact Hbin | apply Hone; reflexivity]].
Defined.

(** ** Infinite sentinels *)

(** C7. The fixed energy-to-power-ratio rule returns Constraint.Skip
    exactly when gen_storage_energy_to_power_ratio[g] is infinite and
    otherwise BuildStorageEnergy[g,y] = ratio * BuildGen[g,y]; the
    cycle-limit rule returns Constraint.Skip exactly when
    gen_storage_max_cycles_per_year[g] is infinite and otherwise bounds the
    sum of DispatchGen[g,tp] * tp_duration_hrs[tp] over the timepoints of
    the period by max cycles * StorageEnergyCapacity[g,p] *
    period_length_years[p]. A constraint is emitted at an index of the
    constraint's index set exactly when the parameter is finite. *)
Theorem infinite_sentinels_skip_constraints :
  forall (m : model) (s : solution) (g : gen),
    (forall y,
        (Storage.Enforce_Fixed_Energy_Storage_Ratio_rule m s (g, y) = None
         <-> Storage.gen_storage_energy_to_power_ratio m g = inf) /\
        (forall ratio,
            Storage.gen_storage_energy_to_power_ratio m g = finite ratio ->
            Storage.Enforce_Fixed_Energy_Storage_Ratio_rule m s (g, y)
            = Some (EqC (BuildStorageEnergy s (g, y))
                        (ratio * BuildGen s (g, y)))) /\
        (In (g, y) (Storage.STORAGE_GEN_BLD_YRS m) ->
         ((exists c, In ((g, y), c) (Storage.Enforce_Fixed_Energy_Storage_Ratio m s))
          <-> Storage.gen_storage_energy_to_power_ratio m g <> inf))) /\
    (forall p,
        (Storage.Battery_Cycle_Limit_rule m s (g, p) = None
         <-> Storage.gen_storage_max_cycles_per_year m g = inf) /\
        (forall max_cycles,
            Storage.gen_storage_max_cycles_per_year m g = finite max_cycles ->
            Storage.Battery_Cycle_Limit_rule m s (g, p)
            = Some (LeC (psum (map (fun tp => DispatchGen s (g, tp)
                                              * tp_duration_hrs m tp)
                                   (TPS_IN_PERIOD m p)))
                        (max_cycles * Storage.StorageEnergyCapacity m s (g, p)
                         * period_length_years m p))) /\
        (In (g, p) (Storage.STORAGE_GEN_PERIODS m) ->
         ((exists c, In ((g, p), c) (Storage.Battery_Cycle_Limit m s))
          <-> Storage.gen_storage_max_cycles_per_year m g <> inf))).
Proof.
  intros m s g. split.
  - intros y. unfold Storage.Enforce_Fixed_Energy_Storage_Ratio.
    unfold Storage.Enforce_Fixed_Energy_Storage_Ratio_rule.
    destruct (Storage.gen_storage_energy_to_power_ratio m g) as [r|] eqn:E.
    + split; [split; discriminate |]. split.
      * intros ratio Hr. inversion Hr; subst. reflexivity.
      * intros Hin. split; [discriminate |]. intros _.
        eexists. apply Constraint_In. split; [exact Hin |].
        cbn. rewrite E. reflexivity.
    + split; [split; reflexivity |]. split; [discriminate |].
      intros Hin. split; [| congruence].
      intros [c Hc]. apply Constraint_In in Hc as [_ Hc].
      cbn in Hc. rewrite E in Hc. discriminate.
  - intros p. unfold Storage.Battery_Cycle_Limit.
    unfold Storage.Battery_Cycle_Limit_rule.
    destruct (Storage.gen_storage_max_cycles_per_year m g) as [r|] eqn:E.
    + split; [split; discriminate |]. split.
      * intros mc Hr. inversion Hr; subst. reflexivity.
      * intros Hin. split; [discriminate |]. intros _.
        eexists. apply Constraint_In. split; [exact Hin |].
        cbn. rewrite E. reflexivity.
    + split; [split; reflexivity |]. split; [discriminate |].
      intros Hin. split; [| congruence].
      intros [c Hc]. apply Constraint_In in Hc as [_ Hc].
      cbn in Hc. rewrite E in Hc. discriminate.
Qed.

Lemma infinite_sentinels_skip_constraints_witness :
  Storage.Enforce_Fixed_Energy_Storage_Ratio_rule Example.m Example.s
    ("Battery"%string, 2015%Z)
  = Some (EqC (BuildStorageEnergy Example.s ("Battery"%string, 2015%Z))
              (4 * BuildGen Example.s ("Battery"%string, 2015%Z))) /\
  Storage.Battery_Cycle_Limit_rule Example.m Example.s
    ("Battery"%string, 2020%Z) = None.
Proof.
  destruct (infinite_sentinels_skip_constraints Example.m Example.s
              "Battery"%string) as [HR HC].
  split.
  - destruct (HR 2015%Z) as [_ [H _]]. apply H. reflexivity.
  - destruct (HC 2020%Z) as [[_ H] _]. apply H. reflexivity.
Defined.

(** ** Predetermined build years against period labels *)

Section BuildYearCheck.

Variable m : model.

Lemma PREDETERMINED_BLD_YRS_In b :
  In b (Build.PREDETERMINED_BLD_YRS m)
  <-> exists g, In (g, b) (PREDETERMINED_GEN_BLD_YRS m).
Proof.
  unfold Build.PREDETERMINED_BLD_YRS. rewrite nodup_In, in_map_iff. split.
  - intros [[g b'] [Hb Hin]]. simpl in Hb; subst. eauto.
  - intros [g Hin]. exists (g, b). auto.
Qed.

Lemma BuildCheck_Done (I : Type) (index : list I) (rule : I -> bool) :
  BuildCheck index rule = Done tt <-> forall i, In i index -> rule i = true.
Proof.
  unfold BuildCheck. rewrite <- forallb_forall.
  destruct (forallb rule index); split; intros; congruence.
Qed.

Lemma BuildCheck_Raised (I : Type) (index : list I) (rule : I -> bool) e :
  BuildCheck index rule = Raised e ->
  exists i, In i index /\ rule i = false.
Proof.
  unfold BuildCheck. destruct (forallb rule index) eqn:E; [discriminate |].
  intros _. induction index as [| j rest IH]; [discriminate |].
  simpl in E. apply andb_false_iff in E as [E | E].
  - exists j. split; [now left | assumption].
  - destruct (IH E) as [i [Hi Hr]]. exists i. split; [now right | assumption].
Qed.

Lemma BuildCheck_outcome (I : Type) (index : list I) (rule : I -> bool) :
  BuildCheck index rule = Done tt
  \/ BuildCheck index rule = Raised (ValueError "BuildCheck identified error").
Proof. unfold BuildCheck. destruct (forallb rule index); auto. Qed.

End BuildYearCheck.

(** C9. The build check succeeds exactly when no build year of the
    predetermined set equals a period label, and raises otherwise: if some
    predetermined build year is also a period, construction fails. *)
Theorem predetermined_bld_yr_vs_period_check :
  forall (m : model),
    (Build.no_predetermined_bld_yr_vs_period_conflict m = Done tt
     <-> forall g b p, In (g, b) (PREDETERMINED_GEN_BLD_YRS m) ->
                       In p (PERIODS m) -> b <> p) /\
    ((exists g b, In (g, b) (PREDETERMINED_GEN_BLD_YRS m) /\ In b (PERIODS m))
     <-> exists e, Build.no_predetermined_bld_yr_vs_period_conflict m = Raised e).
Proof.
  intros m.
  assert (Hiff : Build.no_predetermined_bld_yr_vs_period_conflict m = Done tt
                 <-> forall g b p, In (g, b) (PREDETERMINED_GEN_BLD_YRS m) ->
                                   In p (PERIODS m) -> b <> p).
  { unfold Build.no_predetermined_bld_yr_vs_period_conflict.
    rewrite BuildCheck_Done. split.
    - intros H g b p Hb Hp.
      assert (Hin : In (b, p) (list_prod (Build.PREDETERMINED_BLD_YRS m) (PERIODS m))).
      { apply in_prod; [apply PREDETERMINED_BLD_YRS_In; eauto | assumption]. }
      apply H in Hin. simpl in Hin.
      apply negb_true_iff, Z.eqb_neq in Hin. exact Hin.
    - intros H [b p] Hin. apply in_prod_iff in Hin as [Hb Hp].
      apply PREDETERMINED_BLD_YRS_In in Hb as [g Hb].
      simpl. apply negb_true_iff, Z.eqb_neq. eauto. }
  split; [exact Hiff |]. split.
  - intros [g [b [Hb Hp]]].
    destruct (BuildCheck_outcome
                (list_prod (Build.PREDETERMINED_BLD_YRS m) (PERIODS m))
                (fun bp => negb (Z.eqb (fst bp) (snd bp)))) as [Hd | Hr].
    + exfalso. fold (Build.no_predetermined_bld_yr_vs_period_conflict m) in Hd.
      rewrite Hiff in Hd. exact (Hd g b b Hb Hp eq_refl).
    + eexists. exact Hr.
  - intros [e He].
    apply BuildCheck_Raised in He as [[b p] [Hin Hr]].
    apply in_prod_iff in Hin as [Hb Hp].
    apply PREDETERMINED_BLD_YRS_In in Hb as [g Hb].
    simpl in Hr. apply negb_false_iff, Z.eqb_eq in Hr. subst p.
    exists g, b. auto.
Qed.

Lemma predetermined_bld_yr_vs_period_check_witness :
  Build.no_predetermined_bld_yr_vs_period_conflict Example.m = Done tt.
Proof.
  apply (predetermined_bld_yr_vs_period_check Example.m).
  intros g b p Hb Hp. simpl in Hb, Hp.
  destruct Hb as [Hb | [Hb | []]]; inversion Hb; subst;
    destruct Hp as [Hp | [Hp | []]]; subst; discriminate.
Defined.

(** ** Which projects are storage projects *)

Section StorageProjects.

Import Storage.








End StorageProjects.


(** The input with a project that has an energy-to-power ratio and no
    efficiency: construction stops at that parameter and project. *)
Lemma Example_sd_rejected :
  Storage.construct Example.sd
  = Raised (RuntimeError "gen_storage_energy_to_power_ratio" "Pumped_Hydro").
Proof.
  unfold Storage.construct, Storage.load_inputs, Storage.data. simpl.
  unfold Storage.PercentFraction, Storage.in_NonNegativeReals, Rleb.
  decide_R; reflexivity.
Qed.

(** With the efficiency given, the same input is built. *)
Lemma Example_sd_complete_built :
  exists c, Storage.construct Example.sd_complete = Done c
            /\ Storage.built_STORAGE_GENS c
               = ["Battery"%string; "Pumped_Hydro"%string].
Proof.
  unfold Storage.construct, Storage.load_inputs, Storage.data. simpl.
  unfold Storage.PercentFraction, Storage.in_NonNegativeReals, Rleb.
  decide_R; simpl; eexists; split; reflexivity.
Qed.


(** ** Transmission dispatch *)

Section Transmission.

Import TxDispatch.

Variable m : model.

Lemma DIRECTIONAL_TX_In a b :
  In (a, b) (DIRECTIONAL_TX m)
  <-> exists tx, In tx (TRANSMISSION_LINES m)
                 /\ ((a, b) = (trans_lz1 m tx, trans_lz2 m tx)
                     \/ (a, b) = (trans_lz2 m tx, trans_lz1 m tx)).
Proof.
  unfold DIRECTIONAL_TX. rewrite nodup_In, in_flat_map. split.
  - intros [tx [Htx [H | [H | []]]]]; exists tx; split; auto.
  - intros [tx [Htx [H | H]]]; exists tx; split; simpl; auto.
Qed.

Lemma DIRECTIONAL_TX_sym a b :
  In (a, b) (DIRECTIONAL_TX m) -> In (b, a) (DIRECTIONAL_TX m).
Proof.
  rewrite !DIRECTIONAL_TX_In. intros [tx [Htx [H | H]]];
    inversion H; subst; exists tx; split; auto.
Qed.

Lemma DIRECTIONAL_TX_NoDup : NoDup (DIRECTIONAL_TX m).
Proof. apply NoDup_nodup. Qed.

Hypothesis LOAD_ZONES_NoDup : NoDup (LOAD_ZONES m).
Hypothesis trans_lz_within :
  forall tx, In tx (TRANSMISSION_LINES m) ->
             In (trans_lz1 m tx) (LOAD_ZONES m)
             /\ In (trans_lz2 m tx) (LOAD_ZONES m).

Lemma DIRECTIONAL_TX_zones a b :
  In (a, b) (DIRECTIONAL_TX m) ->
  In a (LOAD_ZONES m) /\ In b (LOAD_ZONES m).
Proof.
  rewrite DIRECTIONAL_TX_In. intros [tx [Htx [H | H]]];
    inversion H; subst; destruct (trans_lz_within tx Htx); auto.
Qed.

Lemma TX_CONNECTIONS_TO_ZONE_In z z' :
  In z' (TX_CONNECTIONS_TO_ZONE m z) <-> In (z', z) (DIRECTIONAL_TX m).
Proof.
  unfold TX_CONNECTIONS_TO_ZONE. rewrite filter_In, in_zone_pairs_iff. split.
  - tauto.
  - intros H. split; [| assumption].
    now destruct (DIRECTIONAL_TX_zones _ _ H).
Qed.

Lemma TX_CONNECTIONS_TO_ZONE_NoDup z : NoDup (TX_CONNECTIONS_TO_ZONE m z).
Proof. unfold TX_CONNECTIONS_TO_ZONE. now apply NoDup_filter. Qed.

Lemma corridors_into_Permutation z :
  Permutation (map (fun zone_from => (zone_from, z)) (TX_CONNECTIONS_TO_ZONE m z))
              (corridors_into m z).
Proof.
  apply NoDup_Permutation.
  - apply Finite.Injective_map_NoDup; [| apply TX_CONNECTIONS_TO_ZONE_NoDup].
    intros x y H. now inversion H.
  - unfold corridors_into. apply NoDup_filter, DIRECTIONAL_TX_NoDup.
  - intros [a b]. unfold corridors_into.
    rewrite in_map_iff, filter_In. simpl. split.
    + intros [z' [Heq Hin]]. inversion Heq; subst.
      apply TX_CONNECTIONS_TO_ZONE_In in Hin.
      split; [assumption | apply String.eqb_refl].
    + intros [Hin Hb]. apply String.eqb_eq in Hb. subst b.
      exists a. split; [reflexivity |].
      now apply TX_CONNECTIONS_TO_ZONE_In.
Qed.

Lemma corridors_out_of_Permutation z :
  Permutation (map (fun zone_to => (z, zone_to)) (TX_CONNECTIONS_TO_ZONE m z))
              (corridors_out_of m z).
Proof.
  apply NoDup_Permutation.
  - apply Finite.Injective_map_NoDup; [| apply TX_CONNECTIONS_TO_ZONE_NoDup].
    intros x y H. now inversion H.
  - unfold corridors_out_of. apply NoDup_filter, DIRECTIONAL_TX_NoDup.
  - intros [a b]. unfold corridors_out_of.
    rewrite in_map_iff, filter_In. simpl. split.
    + intros [z' [Heq Hin]]. inversion Heq; subst.
      apply TX_CONNECTIONS_TO_ZONE_In, DIRECTIONAL_TX_sym in Hin.
      split; [assumption | apply String.eqb_refl].
    + intros [Hin Ha]. apply String.eqb_eq in Ha. subst a.
      exists b. split; [reflexivity |].
      now apply TX_CONNECTIONS_TO_ZONE_In, DIRECTIONAL_TX_sym.
Qed.

Lemma TXPowerNet_over_corridors (s : solution) z tp :
  TXPowerNet m s z tp
  = psum (map (fun c => TxPowerReceived m s (c, tp)) (corridors_into m z))
    - psum (map (fun c => TxPowerSent m s (c, tp)) (corridors_out_of m z)).
Proof.
  unfold TXPowerNet, TXPowerNet_calculation.
  rewrite <- (psum_Permutation
                (Permutation_map (fun c => TxPowerReceived m s (c, tp))
                                 (corridors_into_Permutation z))).
  rewrite <- (psum_Permutation
                (Permutation_map (fun c => TxPowerSent m s (c, tp))
                                 (corridors_out_of_Permutation z))).
  now rewrite !map_map.
Qed.

End Transmission.

(** C8. With the load zones a set and every line between load zones: for
    every directional corridor (zone_from, zone_to) and timepoint tp,
    DispatchTx is at most the available nameplate capacity of the
    corridor's line in the period of tp; the power received is the power
    sent times the line's efficiency; TXPowerNet[z, tp] is the sum of the
    power received over the corridors into z minus the sum of the power
    sent over the corridors out of z; and define_components appends
    TXPowerNet to the list of zonal injections. *)
Theorem transmission_dispatch_contract :
  forall (m : model) (s : solution),
    NoDup (LOAD_ZONES m) ->
    (forall tx, In tx (TRANSMISSION_LINES m) ->
                In (trans_lz1 m tx) (LOAD_ZONES m)
                /\ In (trans_lz2 m tx) (LOAD_ZONES m)) ->
    all_satisfied (TxDispatch.Maximum_DispatchTx m s) ->
    (forall zone_from zone_to tp,
        In (zone_from, zone_to) (TxDispatch.DIRECTIONAL_TX m) ->
        In tp (TIMEPOINTS m) ->
        DispatchTx s (zone_from, zone_to, tp)
        <= TxCapacityNameplateAvailable s
             (trans_d_line m (zone_from, zone_to), tp_period m tp)
        /\ TxDispatch.TxPowerSent m s (zone_from, zone_to, tp)
           = DispatchTx s (zone_from, zone_to, tp)
        /\ TxDispatch.TxPowerReceived m s (zone_from, zone_to, tp)
           = TxDispatch.TxPowerSent m s (zone_from, zone_to, tp)
             * trans_efficiency m (trans_d_line m (zone_from, zone_to))) /\
    (forall z tp,
        TxDispatch.TXPowerNet m s z tp
        = psum (map (fun c => TxDispatch.TxPowerReceived m s (c, tp))
                    (TxDispatch.corridors_into m z))
          - psum (map (fun c => TxDispatch.TxPowerSent m s (c, tp))
                      (TxDispatch.corridors_out_of m z))) /\
    (forall mod_,
        LoadZones.Zone_Power_Injections (TxDispatch.define_components mod_)
        = LoadZones.Zone_Power_Injections mod_ ++ ["TXPowerNet"%string]).
Proof.
  intros m s Hnd Hlz Hmax. split; [| split].
  - intros zf zt tp Hc Htp.
    assert (Hin : In (zf, zt, tp) (TxDispatch.TRANS_TIMEPOINTS m))
      by (apply in_prod; assumption).
    pose proof (Constraint_satisfied _ _ (zf, zt, tp) Hmax Hin eq_refl) as H.
    cbn [satisfied] in H. split; [exact H | split; reflexivity].
  - intros z tp. now apply TXPowerNet_over_corridors.
  - intros mod_. reflexivity.
Qed.

Lemma Example_Maximum_DispatchTx :
  all_satisfied (TxDispatch.Maximum_DispatchTx Example.m Example.s).
Proof.
  unfold all_satisfied, TxDispatch.Maximum_DispatchTx.
  rewrite Forall_forall. intros [[[zf zt] tp] c] Hin.
  apply Constraint_In in Hin as [_ Hr]. inversion Hr; subst c; clear Hr.
  cbn [snd satisfied]. simpl.
  destruct (String.eqb zf "North"); [destruct (tp =? 1)%Z |]; lra.
Defined.

Lemma transmission_dispatch_contract_witness :
  DispatchTx Example.s ("North"%string, "South"%string, 1%Z)
  <= TxCapacityNameplateAvailable Example.s
       (trans_d_line Example.m ("North"%string, "South"%string),
        tp_period Example.m 1%Z) /\
  TxDispatch.TXPowerNet Example.m Example.s "South"%string 1%Z
  = psum (map (fun c => TxDispatch.TxPowerReceived Example.m Example.s (c, 1%Z))
              (TxDispatch.corridors_into Example.m "South"%string))
    - psum (map (fun c => TxDispatch.TxPowerSent Example.m Example.s (c, 1%Z))
                (TxDispatch.corridors_out_of Example.m "South"%string)).
Proof.
  destruct (@transmission_dispatch_contract Example.m Example.s)
    as [Hcap [Hnet _]].
  - simpl. repeat constructor; simpl; intuition discriminate.
  - intros tx [<- | []]. simpl. auto.
  - exact Example_Maximum_DispatchTx.
  - split; [| apply Hnet].
    apply Hcap; [vm_compute; auto | simpl; auto].
Defined.

Example Example_TXPowerNet_South :
  TxDispatch.TXPowerNet Example.m Example.s "South"%string 1%Z = 81.
Proof. vm_compute. lra. Qed.

(** ** State-of-charge recursion *)

Section Decay.

Lemma pow_positive_base x y : 0 < x -> PyMath.pow x y = Rpower x y.
Proof.
  intros Hx. unfold PyMath.pow. destruct (Req_dec_T x 0); [lra | reflexivity].
Qed.

Lemma pow_zero_base y : 0 < y -> PyMath.pow 0 y = 0.
Proof.
  intros Hy. unfold PyMath.pow.
  destruct (Req_dec_T 0 0); [| contradiction].
  destruct (Req_dec_T y 0); [lra | reflexivity].
Qed.

Lemma ln_fraction_negative x : 0 < x < 1 -> ln x < 0.
Proof.
  intros [H0 H1]. rewrite <- ln_1. now apply ln_increasing.
Qed.

Lemma Rpower_one_base y : Rpower 1 y = 1.
Proof.
  unfold Rpower. rewrite ln_1, Rmult_0_r. apply exp_0.
Qed.

Lemma log_positive x : 0 < x -> PyMath.log x = Done (ln x).
Proof.
  intros Hx. unfold PyMath.log. destruct (Rlt_dec 0 x); [reflexivity | lra].
Qed.

Lemma div_nonzero x y : y <> 0 -> PyMath.div x y = Done (x / y).
Proof.
  intros Hy. unfold PyMath.div. destruct (Req_dec_T y 0); [contradiction | reflexivity].
Qed.

Lemma div_zero x : PyMath.div x 0 = Raised ZeroDivisionError.
Proof.
  unfold PyMath.div. destruct (Req_dec_T 0 0); [reflexivity | contradiction].
Qed.

Lemma log_zero : PyMath.log 0 = Raised (ValueError "math domain error").
Proof.
  unfold PyMath.log. destruct (Rlt_dec 0 0); [lra | reflexivity].
Qed.

Lemma instantaneous_decay_rate_positive daily :
  0 < daily < 1 -> 0 < Storage.instantaneous_decay_rate daily.
Proof.
  intros H. unfold Storage.instantaneous_decay_rate.
  pose proof (@ln_fraction_negative (1 - daily)). lra.
Qed.

Lemma exp_decay_derivative k tau :
  derivable_pt_lim (fun u => exp (- k * u)) tau (- k * exp (- k * tau)).
Proof.
  assert (Hlin : derivable_pt_lim (mult_real_fct (- k) id) tau (- k * 1))
    by (apply derivable_pt_lim_scal, derivable_pt_lim_id).
  assert (Hexp : derivable_pt_lim exp (mult_real_fct (- k) id tau)
                                  (exp (- k * tau)))
    by (apply derivable_pt_lim_exp).
  pose proof (derivable_pt_lim_comp _ _ _ _ _ Hlin Hexp) as H.
  replace (- k * exp (- k * tau)) with (exp (- k * tau) * (- k * 1)) by ring.
  exact (derivable_pt_lim_ext _ _ _ _ (fun z => eq_refl) H).
Qed.

(** [charge_after] starts at [Z0] and solves dZ/dt = -rZ + flow. *)
Lemma charge_after_start r Z0 flow : Storage.charge_after r Z0 flow 0 = Z0.
Proof.
  unfold Storage.charge_after. rewrite Rmult_0_r, exp_0. unfold Rdiv. ring.
Qed.

Lemma charge_after_decay r Z0 flow tau :
  r <> 0 ->
  derivable_pt_lim (Storage.charge_after r Z0 flow) tau
                   (- r * Storage.charge_after r Z0 flow tau + flow).
Proof.
  intros Hr.
  pose proof (exp_decay_derivative r tau) as He.
  pose proof (derivable_pt_lim_scal _ Z0 _ _ He) as H1.
  pose proof (derivable_pt_lim_minus _ _ _ _ _
                (derivable_pt_lim_const 1 tau) He) as H2.
  pose proof (derivable_pt_lim_scal _ (flow / r) _ _ H2) as H3.
  pose proof (derivable_pt_lim_plus _ _ _ _ _ H1 H3) as H.
  replace (- r * Storage.charge_after r Z0 flow tau + flow)
    with (Z0 * (- r * exp (- r * tau))
          + flow / r * (0 - - r * exp (- r * tau)))
    by (unfold Storage.charge_after; field; assumption).
  refine (derivable_pt_lim_ext _ _ _ _ _ H).
  intros z.
  unfold Storage.charge_after, plus_fct, mult_real_fct, minus_fct, fct_cte.
  field. assumption.
Qed.

(** The right-hand side of the tracking rule, for a daily decay rate
    strictly between 0 and 1, is that solution after the timepoint's
    duration. *)
Lemma Track_State_Of_Charge_closed_form daily Z0 flow duration :
  0 < daily < 1 ->
  Z0 * Rpower (1 - daily) (duration / 24)
  + flow * (24 * (Rpower (1 - daily) (duration / 24) - 1) / ln (1 - daily))
  = Storage.charge_after (Storage.instantaneous_decay_rate daily)
                         Z0 flow duration.
Proof.
  intros H.
  pose proof (@ln_fraction_negative (1 - daily)) as Hln.
  unfold Storage.charge_after, Storage.instantaneous_decay_rate, Rpower.
  replace (- (- ln (1 - daily) / 24) * duration)
    with (duration / 24 * ln (1 - daily)) by field.
  field. lra.
Qed.

End Decay.

(** C2 (as the code has it). For a daily self-discharge rate r with
    0 <= r < 1 and a discharge efficiency other than 0, the tracking rule
    at (g, t) is the equation
    StateOfCharge[g,t] = StateOfCharge[g, prev(t)] * (1 - r)^(duration/24)
    + flow * factor, with flow = ChargeStorage[g,t] *
    gen_storage_efficiency[g] - DispatchGen[g,t] /
    gen_discharge_efficiency[g]; the factor is the duration in hours when
    r = 0 and 24 * ((1-r)^(duration/24) - 1) / ln(1-r) when r is not 0. *)
Theorem Track_State_Of_Charge_recursion :
  forall (m : model) (s : solution) (g : gen) (t : timepoint),
    0 <= Storage.gen_self_discharge_rate m g < 1 ->
    Storage.gen_discharge_efficiency m g <> 0 ->
    exists flow factor,
      Storage.StorageFlow m s (g, t) = Done flow /\
      flow = ChargeStorage s (g, t) * gen_storage_efficiency m g
             - DispatchGen s (g, t) / Storage.gen_discharge_efficiency m g /\
      Storage.Track_State_Of_Charge_rule m s (g, t)
      = Done (EqC (StateOfCharge s (g, t))
                  (StateOfCharge s (g, tp_previous m t)
                   * Rpower (1 - Storage.gen_self_discharge_rate m g)
                            (tp_duration_hrs m t / 24)
                   + flow * factor)) /\
      (Storage.gen_self_discharge_rate m g = 0 ->
       factor = tp_duration_hrs m t) /\
      (Storage.gen_self_discharge_rate m g <> 0 ->
       factor = 24 * (Rpower (1 - Storage.gen_self_discharge_rate m g)
                             (tp_duration_hrs m t / 24) - 1)
                / ln (1 - Storage.gen_self_discharge_rate m g)).
Proof.
  intros m s g t Hr Hd.
  unfold Storage.Track_State_Of_Charge_rule, Storage.StorageFlow.
  set (r := Storage.gen_self_discharge_rate m g) in *.
  cbv zeta. rewrite (@pow_positive_base (1 - r)) by lra.
  rewrite (div_nonzero _ Hd). cbn [bind].
  eexists. destruct (Reqb (1 - r) 1) eqn:E.
  - apply Reqb_true_iff in E.
    exists (tp_duration_hrs m t). cbn [bind].
    repeat split; try reflexivity. intros Hn; lra.
  - apply Reqb_false_iff in E.
    rewrite log_positive by lra. cbn [bind].
    assert (Hln : ln (1 - r) <> 0)
      by (pose proof (@ln_fraction_negative (1 - r)); lra).
    rewrite (div_nonzero _ Hln). cbn [bind].
    eexists. repeat split; try reflexivity. intros H0; lra.
Qed.

Lemma Track_State_Of_Charge_recursion_witness :
  exists flow factor,
    Storage.Track_State_Of_Charge_rule Example.m Example.s ("Battery"%string, 1%Z)
    = Done (EqC (StateOfCharge Example.s ("Battery"%string, 1%Z))
                (StateOfCharge Example.s ("Battery"%string, 2%Z)
                 * Rpower (1 - 0) (1 / 24)
                 + flow * factor)) /\
    flow = 5 * 0.85 - 0 / 1 /\
    factor = 1.
Proof.
  destruct (@Track_State_Of_Charge_recursion
              Example.m Example.s "Battery"%string 1%Z)
    as [flow [f [_ [Hflow [Hrule [H0 _]]]]]].
  - unfold Storage.gen_self_discharge_rate. simpl. lra.
  - unfold Storage.gen_discharge_efficiency. simpl. lra.
  - exists flow, f.
    split; [exact Hrule | split; [exact Hflow | apply H0; reflexivity]].
Defined.

(** C2 (as stated) fails at the ends of the parameters' domains. At a
    self-discharge rate of 1, [math.log(0)] raises; at a discharge
    efficiency of 0 the division raises. Either way the rule yields no
    equation and the constraint cannot be built. *)
Lemma Track_State_Of_Charge_full_decay_raises :
  (Storage.gen_self_discharge_rate Example.m_full_decay "Battery"%string = 1 /\
   Storage.PercentFraction 1 = true /\
   Storage.Track_State_Of_Charge_rule Example.m_full_decay Example.s
     ("Battery"%string, 1%Z)
   = Raised (ValueError "math domain error") /\
   exists e,
     Storage.Track_State_Of_Charge Example.m_full_decay Example.s = Raised e) /\
  (Storage.gen_discharge_efficiency Example.m_no_discharge "Battery"%string = 0 /\
   Storage.PercentFraction 0 = true /\
   Storage.Track_State_Of_Charge_rule Example.m_no_discharge Example.s
     ("Battery"%string, 1%Z)
   = Raised ZeroDivisionError).
Proof.
  assert (Hrule : Storage.Track_State_Of_Charge_rule Example.m_full_decay
                    Example.s ("Battery"%string, 1%Z)
                  = Raised (ValueError "math domain error")).
  { unfold Storage.Track_State_Of_Charge_rule, Storage.StorageFlow,
      Storage.gen_self_discharge_rate, Storage.gen_discharge_efficiency.
    cbn [gen_self_discharge_rate_input gen_discharge_efficiency_input
         Example.m_full_decay Example.with_losses with_default].
    rewrite div_nonzero by lra. cbn [bind].
    replace (1 - 1) with 0 by lra.
    unfold Reqb. destruct (Req_dec_T 0 1); [lra |].
    rewrite log_zero. reflexivity. }
  split; [split; [reflexivity | split; [| split; [exact Hrule |]]] |].
  - unfold Storage.PercentFraction, Rleb. decide_R; reflexivity.
  - apply Constraint_try_Raised
      with (i := ("Battery"%string, 1%Z)) (e := ValueError "math domain error").
    + simpl. auto.
    + exact Hrule.
  - split; [reflexivity | split].
    + unfold Storage.PercentFraction, Rleb. decide_R; reflexivity.
    + unfold Storage.Track_State_Of_Charge_rule, Storage.StorageFlow,
        Storage.gen_discharge_efficiency.
      cbn [gen_discharge_efficiency_input Example.m_no_discharge
           Example.with_losses with_default].
      rewrite div_zero. reflexivity.
Qed.

(** The scenario of two one-hour timepoints: charging 5 MW at 85 percent
    efficiency stores 4.25 MWh, discharging 4.25 MW empties the store. *)
Example Example_Track_State_Of_Charge :
  exists cs,
    Storage.Track_State_Of_Charge Example.m Example.s = Done cs
    /\ all_satisfied cs.
Proof.
  unfold Storage.Track_State_Of_Charge, Storage.STORAGE_GEN_TPS.
  cbn [STORAGE_GENS TPS_FOR_GEN Example.m flat_map map app Constraint_try].
  unfold Storage.Track_State_Of_Charge_rule, Storage.gen_self_discharge_rate,
    Storage.StorageFlow, Storage.gen_discharge_efficiency.
  cbn [gen_self_discharge_rate_input gen_discharge_efficiency_input
       gen_storage_efficiency tp_duration_hrs tp_previous
       Example.m with_default].
  replace (1 - 0) with 1 by lra.
  unfold Reqb. destruct (Req_dec_T 1 1); [| contradiction].
  rewrite pow_positive_base by lra. rewrite Rpower_one_base.
  rewrite !div_nonzero by lra.
  cbn [bind]. eexists. split; [reflexivity |].
  repeat constructor; simpl; lra.
Qed.

(** * Further properties of the formulation *)

Unset Implicit Arguments.

(** ** Sums *)

Lemma psum_app (xs ys : list R) : psum (xs ++ ys) = psum xs + psum ys.
Proof. induction xs as [| x xs IH]; simpl; lra. Qed.

Lemma psum_member_le (xs : list R) (x : R) :
  Forall (fun y => 0 <= y) xs -> In x xs -> x <= psum xs.
Proof.
  induction 1 as [| y ys Hy Hys IH]; intros Hin; [contradiction |].
  pose proof (@psum_nonneg ys Hys) as Hn. simpl.
  destruct Hin as [-> | Hin]; [lra |]. specialize (IH Hin). lra.
Qed.

Lemma psum_map_ext (A : Type) (f g : A -> R) (l : list A) :
  (forall a, In a l -> f a = g a) -> psum (map f l) = psum (map g l).
Proof.
  induction l as [| a l IH]; intros H; simpl; [reflexivity |].
  rewrite (H a) by now left. rewrite IH; [reflexivity |].
  intros b Hb. apply H. now right.
Qed.

Lemma psum_map_scal (A : Type) (c : R) (f : A -> R) (l : list A) :
  psum (map (fun a => c * f a) l) = c * psum (map f l).
Proof. induction l as [| a l IH]; simpl; [lra | rewrite IH; lra]. Qed.

Lemma psum_map_plus (A : Type) (f g : A -> R) (l : list A) :
  psum (map (fun a => f a + g a) l) = psum (map f l) + psum (map g l).
Proof. induction l as [| a l IH]; simpl; [lra | rewrite IH; lra]. Qed.

Lemma psum_map_zero (A : Type) (l : list A) : psum (map (fun _ => 0) l) = 0.
Proof. induction l as [| a l IH]; simpl; [reflexivity | rewrite IH; lra]. Qed.

Lemma Constraint_try_total (I : Type) (index : list I)
      (rule : I -> outcome constraint) :
  (forall i, In i index -> exists c, rule i = Done c) ->
  exists cs, Constraint_try index rule = Done cs.
Proof.
  induction index as [| i rest IH]; intros H; simpl; [eauto |].
  destruct (H i) as [c Hc]; [now left |]. rewrite Hc. simpl.
  destruct IH as [cs Hcs]; [intros j Hj; apply H; now right |].
  rewrite Hcs. simpl. eauto.
Qed.

(** ** Periods and build years *)

Lemma PERIODS_FOR_GEN_In (m : model) (g : gen) (p : period) :
  In p (Build.PERIODS_FOR_GEN m g)
  <-> In p (PERIODS m) /\ exists b, In b (Build.BLD_YRS_FOR_GEN_PERIOD m g p).
Proof.
  unfold Build.PERIODS_FOR_GEN. rewrite filter_In.
  destruct (Build.BLD_YRS_FOR_GEN_PERIOD m g p) as [| b l]; simpl.
  - split; [intros [_ H]; discriminate | intros [_ [b []]]].
  - split; intros [Hp _]; split; eauto.
Qed.

(** X1. The two indexed sets of build.py are complementary: for a pair
    (g, b) of GEN_BLD_YRS and a period p, p is in
    PERIODS_FOR_GEN_BLD_YR[g, b] exactly when b is in
    BLD_YRS_FOR_GEN_PERIOD[g, p]. *)
Theorem PERIODS_and_BLD_YRS_complementary :
  forall (m : model) (g : gen) (b : year) (p : period),
    In (g, b) (GEN_BLD_YRS m) ->
    In p (PERIODS m) ->
    (In p (Build.PERIODS_FOR_GEN_BLD_YR m g b)
     <-> In b (Build.BLD_YRS_FOR_GEN_PERIOD m g p)).
Proof.
  intros m g b p Hgb Hp.
  unfold Build.PERIODS_FOR_GEN_BLD_YR.
  rewrite filter_In, (@BLD_YRS_FOR_GEN_PERIOD_In m g p b),
    (@gen_build_can_operate_in_period_spec m g b p).
  tauto.
Qed.

Lemma PERIODS_and_BLD_YRS_complementary_witness :
  In 2030%Z (Build.PERIODS_FOR_GEN_BLD_YR Example.m "Battery"%string 2020%Z)
  <-> In 2020%Z (Build.BLD_YRS_FOR_GEN_PERIOD Example.m "Battery"%string 2030%Z).
Proof.
  apply (@PERIODS_and_BLD_YRS_complementary
           Example.m "Battery"%string 2020%Z 2030%Z); simpl; auto 10.
Defined.

(** X2. GEN_PERIODS holds exactly the pairs of a project and a period in
    which some build year of the project can operate (so it can be a
    strict subset of GENERATION_PROJECTS x PERIODS), and where no build
    year of g can operate in p the installed capacity GenCapacity[g, p] is
    0 whatever was built. *)
Theorem GEN_PERIODS_operable_and_capacity :
  forall (m : model) (g : gen) (p : period),
    (In (g, p) (Build.GEN_PERIODS m)
     <-> In g (GENERATION_PROJECTS m) /\ In p (PERIODS m)
         /\ exists b, In (g, b) (GEN_BLD_YRS m) /\ Build.operable m g b p) /\
    (~ (exists b, In (g, b) (GEN_BLD_YRS m) /\ Build.operable m g b p) ->
     forall s, Build.GenCapacity m s (g, p) = 0).
Proof.
  intros m g p. split.
  - unfold Build.GEN_PERIODS. rewrite in_flat_map. split.
    + intros [g' [Hg Hin]]. apply in_map_iff in Hin as [p' [Heq Hp]].
      inversion Heq; subst. apply PERIODS_FOR_GEN_In in Hp as [Hp [b Hb]].
      apply BLD_YRS_FOR_GEN_PERIOD_In in Hb. eauto.
    + intros [Hg [Hp [b Hb]]]. exists g. split; [assumption |].
      apply in_map. apply PERIODS_FOR_GEN_In. split; [assumption |].
      exists b. now apply BLD_YRS_FOR_GEN_PERIOD_In.
  - intros Hno s. unfold Build.GenCapacity.
    destruct (Build.BLD_YRS_FOR_GEN_PERIOD m g p) as [| b l] eqn:E;
      [reflexivity |].
    exfalso. apply Hno. exists b.
    apply (@BLD_YRS_FOR_GEN_PERIOD_In m g p b). rewrite E. now left.
Qed.

(** X3. A build year runs over a contiguous range of periods: if it can
    operate in two periods, it can operate in every period whose midpoint
    lies between their midpoints. *)
Theorem operable_periods_contiguous :
  forall (m : model) (g : gen) (b : year) (p1 p2 p3 : period),
    Build.gen_build_can_operate_in_period m g b p1 = true ->
    Build.gen_build_can_operate_in_period m g b p3 = true ->
    BuildChecks.period_midpoint m p1 <= BuildChecks.period_midpoint m p2
      <= BuildChecks.period_midpoint m p3 ->
    Build.gen_build_can_operate_in_period m g b p2 = true.
Proof.
  intros m g b p1 p2 p3 H1 H3 Hmid.
  apply gen_build_can_operate_in_period_spec in H1, H3.
  apply gen_build_can_operate_in_period_spec.
  unfold Build.operable, BuildChecks.period_midpoint in *. lra.
Qed.

Lemma Example_Coal_operates (p : period) :
  In p (PERIODS Example.m) ->
  Build.gen_build_can_operate_in_period Example.m "Coal"%string 2000%Z p = true.
Proof.
  intros Hp. apply gen_build_can_operate_in_period_spec.
  unfold Build.operable, Build.online_year, Build.retirement_year.
  simpl in Hp.
  destruct Hp as [<- | [<- | []]]; simpl; unfold Build.online_year; simpl; lra.
Defined.

Lemma operable_periods_contiguous_witness :
  Build.gen_build_can_operate_in_period Example.m "Coal"%string 2000%Z 2030%Z
  = true.
Proof.
  apply (@operable_periods_contiguous
           Example.m "Coal"%string 2000%Z 2020%Z 2030%Z 2030%Z).
  - apply Example_Coal_operates. simpl; auto.
  - apply Example_Coal_operates. simpl; auto.
  - unfold BuildChecks.period_midpoint. simpl. lra.
Defined.

(** ** Input checks on the build years *)

Lemma GEN_BLD_YRS_validate_rule_spec (m : model) (g : gen) (b : year) :
  BuildChecks.GEN_BLD_YRS_validate_rule m (g, b) = true
  <-> In (g, b) (PREDETERMINED_GEN_BLD_YRS m)
      \/ (In g (GENERATION_PROJECTS m) /\ In b (PERIODS m)).
Proof.
  unfold BuildChecks.GEN_BLD_YRS_validate_rule.
  rewrite orb_true_iff, !in_pairs_iff, in_prod_iff. reflexivity.
Qed.

(** X4. Reading GEN_BLD_YRS succeeds exactly when every pair of
    gen_build_costs.csv is a predetermined build or pairs a known project
    with a period; a build year that is neither makes it raise. *)
Theorem GEN_BLD_YRS_validation :
  forall (m : model),
    (BuildChecks.GEN_BLD_YRS_validate m = Done tt
     <-> forall g b, In (g, b) (GEN_BLD_YRS m) ->
                     In (g, b) (PREDETERMINED_GEN_BLD_YRS m)
                     \/ (In g (GENERATION_PROJECTS m) /\ In b (PERIODS m))) /\
    ((exists g b, In (g, b) (GEN_BLD_YRS m)
                  /\ ~ In (g, b) (PREDETERMINED_GEN_BLD_YRS m)
                  /\ ~ (In g (GENERATION_PROJECTS m) /\ In b (PERIODS m)))
     -> exists e, BuildChecks.GEN_BLD_YRS_validate m = Raised e).
Proof.
  intros m.
  assert (Hiff : BuildChecks.GEN_BLD_YRS_validate m = Done tt
                 <-> forall g b, In (g, b) (GEN_BLD_YRS m) ->
                       In (g, b) (PREDETERMINED_GEN_BLD_YRS m)
                       \/ (In g (GENERATION_PROJECTS m) /\ In b (PERIODS m))).
  { unfold BuildChecks.GEN_BLD_YRS_validate.
    destruct (forallb (BuildChecks.GEN_BLD_YRS_validate_rule m) (GEN_BLD_YRS m))
      eqn:E.
    - split; [| reflexivity]. intros _ g b Hin.
      apply GEN_BLD_YRS_validate_rule_spec.
      rewrite forallb_forall in E. now apply E.
    - split; [discriminate |]. intros H. exfalso.
      assert (Ht : forallb (BuildChecks.GEN_BLD_YRS_validate_rule m)
                           (GEN_BLD_YRS m) = true).
      { apply forallb_forall. intros [g b] Hin.
        apply GEN_BLD_YRS_validate_rule_spec. now apply H. }
      congruence. }
  split; [exact Hiff |].
  intros [g [b [Hin [Hnp Hnq]]]].
  unfold BuildChecks.GEN_BLD_YRS_validate in *.
  destruct (forallb (BuildChecks.GEN_BLD_YRS_validate_rule m) (GEN_BLD_YRS m));
    [| eauto].
  exfalso. destruct Hiff as [Hd _]. destruct (Hd eq_refl g b Hin); auto.
Qed.

(** X5. When both input checks pass, a pair of GEN_BLD_YRS is a
    predetermined build exactly when its build year is not a period; a new
    build comes online at the start of the period it names and a
    predetermined build in its build year. *)
Theorem build_years_classified_by_checks :
  forall (m : model) (g : gen) (b : year),
    BuildChecks.GEN_BLD_YRS_validate m = Done tt ->
    Build.no_predetermined_bld_yr_vs_period_conflict m = Done tt ->
    In (g, b) (GEN_BLD_YRS m) ->
    (In (g, b) (PREDETERMINED_GEN_BLD_YRS m) <-> ~ In b (PERIODS m)) /\
    (In (g, b) (Build.NEW_GEN_BLD_YRS m) ->
     Build.online_year m b = period_start m b) /\
    (In (g, b) (PREDETERMINED_GEN_BLD_YRS m) ->
     Build.online_year m b = IZR b).
Proof.
  intros m g b Hval Hchk Hin.
  assert (Hv : In (g, b) (PREDETERMINED_GEN_BLD_YRS m)
               \/ (In g (GENERATION_PROJECTS m) /\ In b (PERIODS m))).
  { unfold BuildChecks.GEN_BLD_YRS_validate in Hval.
    destruct (forallb (BuildChecks.GEN_BLD_YRS_validate_rule m) (GEN_BLD_YRS m))
      eqn:E; [| discriminate].
    rewrite forallb_forall in E.
    apply GEN_BLD_YRS_validate_rule_spec. now apply E. }
  assert (Hc : forall g', In (g', b) (PREDETERMINED_GEN_BLD_YRS m) ->
                          ~ In b (PERIODS m)).
  { intros g' Hp Hb.
    unfold Build.no_predetermined_bld_yr_vs_period_conflict in Hchk.
    rewrite BuildCheck_Done in Hchk.
    assert (Hbp : In (b, b) (list_prod (Build.PREDETERMINED_BLD_YRS m) (PERIODS m))).
    { apply in_prod; [apply PREDETERMINED_BLD_YRS_In; eauto | assumption]. }
    apply Hchk in Hbp. simpl in Hbp. rewrite Z.eqb_refl in Hbp. discriminate. }
  split; [| split].
  - split; [apply Hc |]. intros Hn. destruct Hv as [Hp | [_ Hb]]; tauto.
  - intros Hnew. apply NEW_GEN_BLD_YRS_In in Hnew as [_ Hnp].
    destruct Hv as [Hp | [_ Hb]]; [contradiction |].
    unfold Build.online_year. apply in_Zs_iff in Hb. now rewrite Hb.
  - intros Hp. specialize (Hc g Hp). unfold Build.online_year.
    destruct (in_Zs b (PERIODS m)) eqn:E; [| reflexivity].
    apply in_Zs_iff in E. contradiction.
Qed.

Lemma Example_GEN_BLD_YRS_validate :
  BuildChecks.GEN_BLD_YRS_validate Example.m = Done tt.
Proof. reflexivity. Defined.

Lemma Example_no_conflict :
  Build.no_predetermined_bld_yr_vs_period_conflict Example.m = Done tt.
Proof. reflexivity. Defined.

Lemma build_years_classified_by_checks_witness :
  (In ("Battery"%string, 2015%Z) (PREDETERMINED_GEN_BLD_YRS Example.m)
   <-> ~ In 2015%Z (PERIODS Example.m)) /\
  (In ("Battery"%string, 2015%Z) (Build.NEW_GEN_BLD_YRS Example.m) ->
   Build.online_year Example.m 2015%Z = period_start Example.m 2015%Z) /\
  (In ("Battery"%string, 2015%Z) (PREDETERMINED_GEN_BLD_YRS Example.m) ->
   Build.online_year Example.m 2015%Z = IZR 2015%Z).
Proof.
  apply (@build_years_classified_by_checks Example.m "Battery"%string 2015%Z
           Example_GEN_BLD_YRS_validate Example_no_conflict).
  simpl. auto 10.
Defined.

(** ** The build potential of a capacity-limited project *)

Lemma Max_Build_Potential_built (m : model) (s : solution) :
  exists cs, BuildChecks.Max_Build_Potential m s = Done cs.
Proof.
  unfold BuildChecks.Max_Build_Potential. apply Constraint_try_total.
  intros [g p] Hin. apply in_prod_iff in Hin as [Hg _].
  destruct (@CAPACITY_LIMITED_GENS_limit m g Hg) as [lim Hlim].
  unfold BuildChecks.Max_Build_Potential_rule. rewrite Hlim. eauto.
Qed.

(** X6. Max_Build_Potential is always built (every capacity-limited
    project has its limit), and where it is satisfied by non-negative
    build decisions the capacity of a capacity-limited project in a period
    is at most gen_capacity_limit_mw, and so is every single build
    decision counted in it: the scaling factor does not change what the
    constraint allows. *)
Theorem Max_Build_Potential_limits_capacity :
  forall (m : model) (s : solution),
    Build.BuildGen_var m s ->
    exists cs,
      BuildChecks.Max_Build_Potential m s = Done cs /\
      (all_satisfied cs ->
       forall g p, In g (Build.CAPACITY_LIMITED_GENS m) -> In p (PERIODS m) ->
         exists lim,
           gen_capacity_limit_mw m g = Some lim /\
           Build.GenCapacity m s (g, p) <= lim /\
           forall b, In b (Build.BLD_YRS_FOR_GEN_PERIOD m g p) ->
                     BuildGen s (g, b) <= lim).
Proof.
  intros m s Hvar.
  destruct (Max_Build_Potential_built m s) as [cs Hcs].
  exists cs. split; [exact Hcs |].
  intros Hsat g p Hg Hp.
  destruct (@CAPACITY_LIMITED_GENS_limit m g Hg) as [lim Hlim].
  exists lim. split; [exact Hlim |].
  unfold BuildChecks.Max_Build_Potential in Hcs.
  destruct (@Constraint_try_Done _ _ _ _ Hcs) as [_ Hall].
  destruct (Hall (g, p)) as [c [Hc Hin]]; [now apply in_prod |].
  unfold BuildChecks.Max_Build_Potential_rule in Hc. rewrite Hlim in Hc.
  inversion Hc; subst c; clear Hc.
  unfold all_satisfied in Hsat. rewrite Forall_forall in Hsat.
  specialize (Hsat _ Hin). cbn [snd satisfied] in Hsat.
  unfold BuildChecks.max_build_potential_scaling_factor in Hsat.
  assert (Hcap : Build.GenCapacity m s (g, p) <= lim)
    by (unfold Build.GenCapacity; lra).
  split; [exact Hcap |].
  intros b Hb. unfold Build.GenCapacity in Hcap.
  assert (Hle : BuildGen s (g, b)
                <= psum (map (fun bld_yr => BuildGen s (g, bld_yr))
                             (Build.BLD_YRS_FOR_GEN_PERIOD m g p))).
  { apply psum_member_le.
    - rewrite Forall_forall. intros x Hx.
      apply in_map_iff in Hx as [b' [<- Hb']].
      apply BLD_YRS_FOR_GEN_PERIOD_In in Hb' as [Hb' _].
      now destruct (Hvar (g, b') Hb').
    - apply in_map_iff. eauto. }
  lra.
Qed.

Lemma Max_Build_Potential_limits_capacity_witness :
  exists cs,
    BuildChecks.Max_Build_Potential Example.m Example.s = Done cs /\
    (all_satisfied cs ->
     forall g p, In g (Build.CAPACITY_LIMITED_GENS Example.m) ->
                 In p (PERIODS Example.m) ->
       exists lim,
         gen_capacity_limit_mw Example.m g = Some lim /\
         Build.GenCapacity Example.m Example.s (g, p) <= lim /\
         forall b, In b (Build.BLD_YRS_FOR_GEN_PERIOD Example.m g p) ->
                   BuildGen Example.s (g, b) <= lim).
Proof.
  exact (@Max_Build_Potential_limits_capacity Example.m Example.s
           Example_BuildGen_var).
Defined.

(** ** Storage: energy capacity under a fixed energy-to-power ratio *)

Lemma STORAGE_GEN_BLD_YRS_In (m : model) (g : gen) (b : year) :
  In (g, b) (Storage.STORAGE_GEN_BLD_YRS m)
  <-> In g (STORAGE_GENS m) /\ In (g, b) (GEN_BLD_YRS m).
Proof.
  unfold Storage.STORAGE_GEN_BLD_YRS. rewrite in_flat_map. split.
  - intros [g' [Hg Hin]]. apply in_map_iff in Hin as [b' [Heq Hb]].
    inversion Heq; subst. split; [assumption |].
    now apply BLD_YRS_FOR_GEN_In.
  - intros [Hg Hb]. exists g. split; [assumption |].
    apply in_map. now apply BLD_YRS_FOR_GEN_In.
Qed.

Lemma STORAGE_GEN_TPS_In (m : model) (g : gen) (t : timepoint) :
  In (g, t) (Storage.STORAGE_GEN_TPS m)
  <-> In g (STORAGE_GENS m) /\ In t (TPS_FOR_GEN m g).
Proof.
  unfold Storage.STORAGE_GEN_TPS. rewrite in_flat_map. split.
  - intros [g' [Hg Hin]]. apply in_map_iff in Hin as [t' [Heq Ht]].
    inversion Heq; subst. auto.
  - intros [Hg Ht]. exists g. split; [assumption | now apply in_map].
Qed.

(** X7. For a storage project with a finite energy-to-power ratio, the
    per-vintage constraint carries over to the installed capacities: in
    every period the energy capacity is the ratio times the power
    capacity. *)
Theorem fixed_ratio_scales_energy_capacity :
  forall (m : model) (s : solution) (g : gen) (p : period) (ratio : R),
    In g (STORAGE_GENS m) ->
    Storage.gen_storage_energy_to_power_ratio m g = finite ratio ->
    all_satisfied (Storage.Enforce_Fixed_Energy_Storage_Ratio m s) ->
    Storage.StorageEnergyCapacity m s (g, p)
    = ratio * Build.GenCapacity m s (g, p).
Proof.
  intros m s g p ratio Hg Hratio Hsat.
  unfold Storage.StorageEnergyCapacity, Build.GenCapacity.
  rewrite <- psum_map_scal. apply psum_map_ext.
  intros b Hb. apply BLD_YRS_FOR_GEN_PERIOD_In in Hb as [Hb _].
  assert (Hin : In (g, b) (Storage.STORAGE_GEN_BLD_YRS m))
    by (apply STORAGE_GEN_BLD_YRS_In; auto).
  assert (Hrule : Storage.Enforce_Fixed_Energy_Storage_Ratio_rule m s (g, b)
                  = Some (EqC (BuildStorageEnergy s (g, b))
                              (ratio * BuildGen s (g, b)))).
  { unfold Storage.Enforce_Fixed_Energy_Storage_Ratio_rule.
    now rewrite Hratio. }
  exact (@Constraint_satisfied _ _ _ (g, b) _ Hsat Hin Hrule).
Qed.

Lemma Example_Enforce_Fixed_Energy_Storage_Ratio :
  all_satisfied (Storage.Enforce_Fixed_Energy_Storage_Ratio Example.m Example.s).
Proof.
  unfold all_satisfied. rewrite Forall_forall. intros [[g b] c] Hin.
  apply Constraint_In in Hin as [Hin Hr].
  simpl in Hin. destruct Hin as [Heq | [Heq | []]]; inversion Heq; subst;
    vm_compute in Hr; inversion Hr; subst; simpl; lra.
Defined.

Lemma fixed_ratio_scales_energy_capacity_witness :
  Storage.StorageEnergyCapacity Example.m Example.s ("Battery"%string, 2020%Z)
  = 4 * Build.GenCapacity Example.m Example.s ("Battery"%string, 2020%Z).
Proof.
  apply (@fixed_ratio_scales_energy_capacity
           Example.m Example.s "Battery"%string 2020%Z 4).
  - simpl. auto.
  - reflexivity.
  - exact Example_Enforce_Fixed_Energy_Storage_Ratio.
Defined.

(** ** Storage: the state of charge over a timeseries *)

Lemma Rpower_fraction_le_1 (x y : R) : 0 < x <= 1 -> 0 <= y -> Rpower x y <= 1.
Proof.
  intros Hx Hy. rewrite <- (Rpower_one_base y). now apply Rle_Rpower_l.
Qed.

Lemma psum_map_le (A : Type) (f g : A -> R) (l : list A) :
  (forall a, In a l -> f a <= g a) -> psum (map f l) <= psum (map g l).
Proof.
  induction l as [| a l IH]; intros H; simpl; [lra |].
  pose proof (H a (or_introl eq_refl)).
  assert (psum (map f l) <= psum (map g l))
    by (apply IH; intros b Hb; apply H; now right).
  lra.
Qed.

(** The rule of Track_State_Of_Charge, evaluated. *)
Lemma Track_rule_no_decay (m : model) (s : solution) (g : gen) (t : timepoint) :
  Storage.gen_self_discharge_rate m g = 0 ->
  Storage.gen_discharge_efficiency m g <> 0 ->
  Storage.Track_State_Of_Charge_rule m s (g, t)
  = Done (EqC (StateOfCharge s (g, t))
              (StateOfCharge s (g, tp_previous m t) * 1
               + (ChargeStorage s (g, t) * gen_storage_efficiency m g
                  - DispatchGen s (g, t) / Storage.gen_discharge_efficiency m g)
                 * tp_duration_hrs m t)).
Proof.
  intros Hr Hd.
  unfold Storage.Track_State_Of_Charge_rule, Storage.StorageFlow.
  rewrite Hr, (@div_nonzero _ _ Hd). cbv zeta. cbn [bind].
  replace (1 - 0) with 1 by lra.
  rewrite pow_positive_base by lra. rewrite Rpower_one_base.
  unfold Reqb. destruct (Req_dec_T 1 1); [reflexivity | contradiction].
Qed.

Lemma Track_rule_decay (m : model) (s : solution) (g : gen) (t : timepoint) :
  0 < Storage.gen_self_discharge_rate m g < 1 ->
  Storage.gen_discharge_efficiency m g <> 0 ->
  Storage.Track_State_Of_Charge_rule m s (g, t)
  = Done (EqC (StateOfCharge s (g, t))
              (StateOfCharge s (g, tp_previous m t)
               * Rpower (1 - Storage.gen_self_discharge_rate m g)
                        (tp_duration_hrs m t / 24)
               + (ChargeStorage s (g, t) * gen_storage_efficiency m g
                  - DispatchGen s (g, t) / Storage.gen_discharge_efficiency m g)
                 * (24 * (Rpower (1 - Storage.gen_self_discharge_rate m g)
                                 (tp_duration_hrs m t / 24) - 1)
                    / ln (1 - Storage.gen_self_discharge_rate m g)))).
Proof.
  intros Hr Hd.
  unfold Storage.Track_State_Of_Charge_rule, Storage.StorageFlow.
  set (r := Storage.gen_self_discharge_rate m g) in *.
  rewrite (@div_nonzero _ _ Hd). cbv zeta. cbn [bind].
  rewrite pow_positive_base by lra.
  unfold Reqb. destruct (Req_dec_T (1 - r) 1); [lra |].
  rewrite log_positive by lra. cbn [bind].
  assert (Hln : ln (1 - r) <> 0)
    by (pose proof (@ln_fraction_negative (1 - r)); lra).
  rewrite (@div_nonzero _ _ Hln). reflexivity.
Qed.

Lemma Track_satisfied (m : model) (s : solution) cs (g : gen) (t : timepoint) c :
  Storage.Track_State_Of_Charge m s = Done cs ->
  all_satisfied cs ->
  In (g, t) (Storage.STORAGE_GEN_TPS m) ->
  Storage.Track_State_Of_Charge_rule m s (g, t) = Done c ->
  satisfied c.
Proof.
  intros Hcs Hsat Hin Hrule. unfold Storage.Track_State_Of_Charge in Hcs.
  destruct (@Constraint_try_Done _ _ _ _ Hcs) as [_ Hall].
  destruct (Hall (g, t) Hin) as [c' [Hc' Hin']].
  rewrite Hrule in Hc'. inversion Hc'; subst c'.
  unfold all_satisfied in Hsat. rewrite Forall_forall in Hsat.
  exact (Hsat _ Hin').
Qed.

Lemma last_cons_default (A : Type) (l : list A) (a d d' : A) :
  last (a :: l) d = last (a :: l) d'.
Proof.
  revert a. induction l as [| b l IH]; intros a; [reflexivity |].
  change (last (b :: l) d = last (b :: l) d'). apply IH.
Qed.

Lemma last_cons_In (A : Type) (l : list A) (a d : A) : In (last (a :: l) d) (a :: l).
Proof.
  revert a. induction l as [| b l IH]; intros a; [now left |].
  right. change (In (last (b :: l) d) (b :: l)). apply IH.
Qed.

Lemma chain_telescopes (m : model) (f : timepoint -> R) :
  forall ts prev,
    Timeseries.chain m prev ts ->
    psum (map (fun t => f t - f (tp_previous m t)) ts)
    = f (last ts prev) - f prev.
Proof.
  induction ts as [| t rest IH]; intros prev Hc; [simpl; lra |].
  destruct Hc as [Hp Hc]. cbn [map psum fold_right].
  change (fold_right Rplus 0 (map (fun t0 => f t0 - f (tp_previous m t0)) rest))
    with (psum (map (fun t0 => f t0 - f (tp_previous m t0)) rest)).
  rewrite (IH t Hc), Hp.
  destruct rest as [| t' rest']; [simpl; lra |].
  rewrite (last_cons_default _ rest' t' t prev).
  change (last (t :: t' :: rest') prev) with (last (t' :: rest') prev). lra.
Qed.

Lemma wraps_around_telescopes (m : model) (f : timepoint -> R) ts :
  Timeseries.wraps_around m ts ->
  psum (map (fun t => f t - f (tp_previous m t)) ts) = 0.
Proof.
  destruct ts as [| t rest]; intros Hw; [reflexivity |].
  unfold Timeseries.wraps_around in Hw.
  rewrite (chain_telescopes m f _ _ Hw).
  destruct rest as [| t' rest']; [simpl; lra |].
  change (last (t :: t' :: rest') (last (t' :: rest') t))
    with (last (t' :: rest') (last (t' :: rest') t)).
  rewrite (last_cons_default _ rest' t' (last (t' :: rest') t) t). lra.
Qed.

Lemma chain_previous_In (m : model) :
  forall ts prev t,
    Timeseries.chain m prev ts -> In t ts ->
    tp_previous m t = prev \/ In (tp_previous m t) ts.
Proof.
  induction ts as [| t0 rest IH]; intros prev t Hc Hin; [contradiction |].
  destruct Hc as [Hp Hc]. destruct Hin as [<- | Hin]; [now left |].
  right. destruct (IH t0 t Hc Hin) as [H | H]; [left | right]; auto.
Qed.

Lemma wraps_around_previous_In (m : model) ts t :
  Timeseries.wraps_around m ts -> In t ts -> In (tp_previous m t) ts.
Proof.
  destruct ts as [| t0 rest]; intros Hw Hin; [contradiction |].
  unfold Timeseries.wraps_around in Hw.
  destruct (chain_previous_In m _ _ t Hw Hin) as [H | H]; [| assumption].
  rewrite H. destruct rest as [| t1 rest1]; [now left |].
  right. apply last_cons_In.
Qed.

Lemma flow_energy_factor_no_decay (duration : R) :
  StorageEnergy.flow_energy_factor 0 duration = duration.
Proof.
  unfold StorageEnergy.flow_energy_factor.
  destruct (Req_dec_T (1 - 0) 1); [reflexivity | lra].
Qed.

Lemma flow_energy_factor_decay (r duration : R) :
  0 < r < 1 ->
  StorageEnergy.flow_energy_factor r duration
  = 24 * (Rpower (1 - r) (duration / 24) - 1) / ln (1 - r).
Proof.
  intros Hr. unfold StorageEnergy.flow_energy_factor.
  destruct (Req_dec_T (1 - r) 1); [lra | reflexivity].
Qed.

(** What one satisfied tracking constraint says, for any rate below 1. *)
Lemma Track_step (m : model) (s : solution) cs (g : gen) (t : timepoint) :
  0 <= Storage.gen_self_discharge_rate m g < 1 ->
  Storage.gen_discharge_efficiency m g <> 0 ->
  Storage.Track_State_Of_Charge m s = Done cs ->
  all_satisfied cs ->
  In (g, t) (Storage.STORAGE_GEN_TPS m) ->
  StateOfCharge s (g, t)
  = StateOfCharge s (g, tp_previous m t)
    * Rpower (1 - Storage.gen_self_discharge_rate m g) (tp_duration_hrs m t / 24)
    + StorageEnergy.net_flow m s g t
      * StorageEnergy.flow_energy_factor (Storage.gen_self_discharge_rate m g)
                                         (tp_duration_hrs m t).
Proof.
  intros Hr Hd Hcs Hsat Hin. unfold StorageEnergy.net_flow.
  destruct (Req_dec_T (Storage.gen_self_discharge_rate m g) 0) as [H0 | Hn].
  - pose proof (Track_satisfied m s cs g t _ Hcs Hsat Hin
                  (Track_rule_no_decay m s g t H0 Hd)) as H.
    cbn [satisfied] in H. rewrite H0, flow_energy_factor_no_decay.
    replace (1 - 0) with 1 by lra. rewrite Rpower_one_base. exact H.
  - assert (Hr' : 0 < Storage.gen_self_discharge_rate m g < 1) by lra.
    pose proof (Track_satisfied m s cs g t _ Hcs Hsat Hin
                  (Track_rule_decay m s g t Hr' Hd)) as H.
    cbn [satisfied] in H. rewrite flow_energy_factor_decay by assumption.
    exact H.
Qed.

(** X8. Over a timeseries whose first timepoint follows its last one, a
    storage project is no source of energy: the energy its flows put into
    the store (charge times charging efficiency minus discharge over
    discharge efficiency, times the rule's factor) sums to at least 0, and
    to exactly 0 when there is no self-discharge. *)
Theorem storage_cycle_energy :
  forall (m : model) (s : solution) (g : gen) (ts : list timepoint) cs,
    0 <= Storage.gen_self_discharge_rate m g < 1 ->
    Storage.gen_discharge_efficiency m g <> 0 ->
    (forall t, In t ts -> 0 <= tp_duration_hrs m t) ->
    Storage.StateOfCharge_var m s ->
    Storage.Track_State_Of_Charge m s = Done cs ->
    all_satisfied cs ->
    (forall t, In t ts -> In (g, t) (Storage.STORAGE_GEN_TPS m)) ->
    Timeseries.wraps_around m ts ->
    0 <= psum (map (fun t => StorageEnergy.net_flow m s g t
                             * StorageEnergy.flow_energy_factor
                                 (Storage.gen_self_discharge_rate m g)
                                 (tp_duration_hrs m t)) ts) /\
    (Storage.gen_self_discharge_rate m g = 0 ->
     psum (map (fun t => StorageEnergy.net_flow m s g t * tp_duration_hrs m t) ts)
     = 0).
Proof.
  intros m s g ts cs Hr Hd Hdur Hvar Hcs Hsat Hin Hw.
  set (soc := fun t => StateOfCharge s (g, t)).
  pose proof (wraps_around_telescopes m soc ts Hw) as Htel.
  split.
  - rewrite <- Htel. apply psum_map_le. intros t Ht.
    pose proof (Track_step m s cs g t Hr Hd Hcs Hsat (Hin t Ht)) as Hstep.
    assert (Hprev : 0 <= StateOfCharge s (g, tp_previous m t)).
    { pose proof (wraps_around_previous_In m ts t Hw Ht) as Hp.
      now destruct (Hvar _ (Hin _ Hp)). }
    assert (Ha : Rpower (1 - Storage.gen_self_discharge_rate m g)
                        (tp_duration_hrs m t / 24) <= 1).
    { apply Rpower_fraction_le_1; [lra |].
      pose proof (Hdur t Ht). lra. }
    unfold soc. nra.
  - intros H0. rewrite <- Htel. apply psum_map_ext. intros t Ht.
    pose proof (Track_step m s cs g t Hr Hd Hcs Hsat (Hin t Ht)) as Hstep.
    rewrite H0, flow_energy_factor_no_decay in Hstep.
    replace (1 - 0) with 1 in Hstep by lra.
    rewrite Rpower_one_base in Hstep. unfold soc. lra.
Qed.

Lemma storage_cycle_energy_witness :
  psum (map (fun t => StorageEnergy.net_flow Example.m Example.s "Battery"%string t
                      * tp_duration_hrs Example.m t) [1%Z; 2%Z])
  = 0.
Proof.
  destruct Example_Track_State_Of_Charge as [cs [Hcs Hsat]].
  destruct (@storage_cycle_energy Example.m Example.s "Battery"%string
              [1%Z; 2%Z] cs) as [_ H0].
  - unfold Storage.gen_self_discharge_rate. simpl. lra.
  - unfold Storage.gen_discharge_efficiency. simpl. lra.
  - intros t _. simpl. lra.
  - exact (proj1 Example_feasible_state_of_charge).
  - exact Hcs.
  - exact Hsat.
  - intros t [<- | [<- | []]]; simpl; auto.
  - simpl. auto.
  - apply H0. reflexivity.
Defined.

(** X9. Without self-discharge, a feasible storage project can neither
    overdraw nor overfill its store within a timepoint: the energy taken
    out is at most the previous state of charge plus the energy charged,
    and what is left stays within the installed energy capacity. *)
Theorem storage_no_overdraw_no_overfill :
  forall (m : model) (s : solution) (g : gen) (t : timepoint) cs,
    Storage.gen_self_discharge_rate m g = 0 ->
    Storage.gen_discharge_efficiency m g <> 0 ->
    Storage.feasible_state_of_charge m s ->
    Storage.Track_State_Of_Charge m s = Done cs ->
    all_satisfied cs ->
    In (g, t) (Storage.STORAGE_GEN_TPS m) ->
    DispatchGen s (g, t) / Storage.gen_discharge_efficiency m g
      * tp_duration_hrs m t
    <= StateOfCharge s (g, tp_previous m t)
       + ChargeStorage s (g, t) * gen_storage_efficiency m g * tp_duration_hrs m t
    /\
    StateOfCharge s (g, tp_previous m t)
    + ChargeStorage s (g, t) * gen_storage_efficiency m g * tp_duration_hrs m t
    - DispatchGen s (g, t) / Storage.gen_discharge_efficiency m g
      * tp_duration_hrs m t
    <= Storage.StorageEnergyCapacity m s (g, tp_period m t).
Proof.
  intros m s g t cs H0 Hd [Hvar [Hup _]] Hcs Hsat Hin.
  pose proof (Track_satisfied m s cs g t _ Hcs Hsat Hin
                (Track_rule_no_decay m s g t H0 Hd)) as H.
  cbn [satisfied] in H.
  destruct (Hvar (g, t) Hin) as [Hnn _]. unfold NonNegativeReals in Hnn.
  pose proof (@Constraint_satisfied _ _ _ (g, t) _ Hup Hin eq_refl) as Hu.
  cbn [satisfied] in Hu. split; lra.
Qed.

Lemma storage_no_overdraw_no_overfill_witness :
  DispatchGen Example.s ("Battery"%string, 2%Z)
    / Storage.gen_discharge_efficiency Example.m "Battery"%string
    * tp_duration_hrs Example.m 2%Z
  <= StateOfCharge Example.s ("Battery"%string, tp_previous Example.m 2%Z)
     + ChargeStorage Example.s ("Battery"%string, 2%Z)
       * gen_storage_efficiency Example.m "Battery"%string
       * tp_duration_hrs Example.m 2%Z.
Proof.
  destruct Example_Track_State_Of_Charge as [cs [Hcs Hsat]].
  destruct (@storage_no_overdraw_no_overfill
              Example.m Example.s "Battery"%string 2%Z cs) as [H _].
  - reflexivity.
  - unfold Storage.gen_discharge_efficiency. simpl. lra.
  - exact Example_feasible_state_of_charge.
  - exact Hcs.
  - exact Hsat.
  - simpl. auto.
  - exact H.
Defined.

(** ** Storage: the cycle limit *)

Lemma STORAGE_GEN_PERIODS_In (m : model) (g : gen) (p : period) :
  In (g, p) (Storage.STORAGE_GEN_PERIODS m)
  <-> In g (STORAGE_GENS m) /\ In p (Build.PERIODS_FOR_GEN m g).
Proof.
  unfold Storage.STORAGE_GEN_PERIODS. rewrite in_flat_map. split.
  - intros [g' [Hg Hin]]. apply in_map_iff in Hin as [p' [Heq Hp]].
    inversion Heq; subst. auto.
  - intros [Hg Hp]. exists g. split; [assumption | now apply in_map].
Qed.

(** X10. Under a finite cycle limit, with non-negative dispatch and
    durations, the energy a storage project discharges in any single
    timepoint of a period is within the period's allowance of max cycles *
    energy capacity * period length; a project without energy capacity in
    the period discharges nothing. *)
Theorem cycle_limit_bounds_each_timepoint :
  forall (m : model) (s : solution) (g : gen) (p : period) (max_cycles : R),
    In (g, p) (Storage.STORAGE_GEN_PERIODS m) ->
    Storage.gen_storage_max_cycles_per_year m g = finite max_cycles ->
    all_satisfied (Storage.Battery_Cycle_Limit m s) ->
    (forall t, In t (TPS_IN_PERIOD m p) ->
               0 <= DispatchGen s (g, t) /\ 0 <= tp_duration_hrs m t) ->
    forall tp, In tp (TPS_IN_PERIOD m p) ->
      DispatchGen s (g, tp) * tp_duration_hrs m tp
      <= max_cycles * Storage.StorageEnergyCapacity m s (g, p)
         * period_length_years m p /\
      (Storage.StorageEnergyCapacity m s (g, p) = 0 ->
       DispatchGen s (g, tp) * tp_duration_hrs m tp = 0).
Proof.
  intros m s g p mc Hin Hmc Hsat Hnn tp Htp.
  assert (Hrule : Storage.Battery_Cycle_Limit_rule m s (g, p)
                  = Some (LeC (psum (map (fun t => DispatchGen s (g, t)
                                                   * tp_duration_hrs m t)
                                         (TPS_IN_PERIOD m p)))
                              (mc * Storage.StorageEnergyCapacity m s (g, p)
                               * period_length_years m p))).
  { unfold Storage.Battery_Cycle_Limit_rule. now rewrite Hmc. }
  pose proof (@Constraint_satisfied _ _ _ (g, p) _ Hsat Hin Hrule) as H.
  cbn [satisfied] in H.
  assert (Hle : DispatchGen s (g, tp) * tp_duration_hrs m tp
                <= psum (map (fun t => DispatchGen s (g, t) * tp_duration_hrs m t)
                             (TPS_IN_PERIOD m p))).
  { apply psum_member_le.
    - rewrite Forall_forall. intros x Hx.
      apply in_map_iff in Hx as [t [<- Ht]].
      destruct (Hnn t Ht). now apply Rmult_le_pos.
    - apply in_map_iff. eauto. }
  split; [lra |].
  intros H0. rewrite H0 in H.
  destruct (Hnn tp Htp) as [Hd Hh].
  pose proof (Rmult_le_pos _ _ Hd Hh). lra.
Qed.

Ltac eval_build_years :=
  unfold Build.BLD_YRS_FOR_GEN_PERIOD, Build.BLD_YRS_FOR_GEN;
  cbn -[Rplus Rmult IZR Build.gen_build_can_operate_in_period];
  unfold Build.gen_build_can_operate_in_period, Build.gen_retirement_year,
    Reqb, Rleb, Rltb;
  cbn -[Rplus Rmult IZR Rle_dec Rlt_dec Req_dec_T];
  decide_R.

Lemma ExampleCycles_BLD_YRS_2020 :
  Build.BLD_YRS_FOR_GEN_PERIOD ExampleCycles.m "Battery"%string 2020%Z
  = [2015%Z; 2020%Z].
Proof. eval_build_years. reflexivity. Defined.

Lemma ExampleCycles_BLD_YRS_2030 :
  Build.BLD_YRS_FOR_GEN_PERIOD ExampleCycles.m "Battery"%string 2030%Z
  = [2020%Z].
Proof. eval_build_years. reflexivity. Defined.

Lemma ExampleCycles_Battery_Cycle_Limit :
  all_satisfied (Storage.Battery_Cycle_Limit ExampleCycles.m Example.s).
Proof.
  unfold all_satisfied. rewrite Forall_forall. intros [[g p] c] Hin.
  apply Constraint_In in Hin as [Hin Hr].
  apply STORAGE_GEN_PERIODS_In in Hin as [Hg Hp].
  apply PERIODS_FOR_GEN_In in Hp as [Hp _].
  simpl in Hg. destruct Hg as [<- | []].
  unfold Storage.Battery_Cycle_Limit_rule in Hr.
  assert (E : Storage.gen_storage_max_cycles_per_year
                ExampleCycles.m "Battery"%string = finite 300) by reflexivity.
  rewrite E in Hr. injection Hr as <-. cbn [snd satisfied].
  unfold Storage.StorageEnergyCapacity.
  simpl in Hp. destruct Hp as [<- | [<- | []]].
  - rewrite ExampleCycles_BLD_YRS_2020. simpl. lra.
  - rewrite ExampleCycles_BLD_YRS_2030. simpl. lra.
Defined.

Lemma cycle_limit_bounds_each_timepoint_witness :
  DispatchGen Example.s ("Battery"%string, 2%Z)
  * tp_duration_hrs ExampleCycles.m 2%Z
  <= 300 * Storage.StorageEnergyCapacity ExampleCycles.m Example.s
             ("Battery"%string, 2020%Z)
     * period_length_years ExampleCycles.m 2020%Z.
Proof.
  destruct (cycle_limit_bounds_each_timepoint
              ExampleCycles.m Example.s "Battery"%string 2020%Z 300) with (tp := 2%Z)
    as [H _].
  - apply STORAGE_GEN_PERIODS_In. split; [simpl; auto |].
    apply PERIODS_FOR_GEN_In. split; [simpl; auto |].
    exists 2015%Z. rewrite ExampleCycles_BLD_YRS_2020. simpl. auto.
  - reflexivity.
  - exact ExampleCycles_Battery_Cycle_Limit.
  - intros t [<- | [<- | []]]; simpl; lra.
  - simpl. auto.
  - exact H.
Defined.

(** ** Sums over the zones of what belongs to each zone *)

Lemma psum_indicator (zones : list string) (k : string) (x : R) :
  NoDup zones -> In k zones ->
  psum (map (fun z => if String.eqb k z then x else 0) zones) = x.
Proof.
  induction 1 as [| z zones Hz Hnd IH]; intros Hin; [contradiction |].
  simpl. destruct (String.eqb k z) eqn:E.
  - apply String.eqb_eq in E. subst z.
    rewrite (psum_map_ext _ _ (fun _ => 0)), psum_map_zero; [lra |].
    intros z' Hz'. destruct (String.eqb k z') eqn:E'; [| reflexivity].
    apply String.eqb_eq in E'. subst z'. contradiction.
  - destruct Hin as [-> | Hin]; [rewrite String.eqb_refl in E; discriminate |].
    rewrite (IH Hin). lra.
Qed.

Lemma psum_partition (A : Type) (key : A -> string) (f : A -> R)
      (zones : list string) (l : list A) :
  NoDup zones ->
  (forall a, In a l -> In (key a) zones) ->
  psum (map (fun z => psum (map f (filter (fun a => String.eqb (key a) z) l)))
            zones)
  = psum (map f l).
Proof.
  intros Hnd. induction l as [| a l IH]; intros Hk.
  - simpl. apply psum_map_zero.
  - rewrite (psum_map_ext _ _
               (fun z => (if String.eqb (key a) z then f a else 0)
                         + psum (map f (filter (fun a' => String.eqb (key a') z) l)))).
    + rewrite psum_map_plus, IH by (intros b Hb; apply Hk; now right).
      rewrite psum_indicator by (auto; apply Hk; now left).
      reflexivity.
    + intros z _. simpl. destruct (String.eqb (key a) z); simpl; lra.
Qed.

(** ** Transmission: what the zones gain and lose together *)

(** X11. Summed over all load zones, the net transmission injections of
    a timepoint are the dispatch of every corridor times (efficiency - 1):
    what the lines lose. With efficiencies of at most 1 and non-negative
    dispatch the total is never positive, so transmission creates no
    energy. *)
Theorem transmission_net_is_the_losses :
  forall (m : model) (s : solution) (tp : timepoint),
    NoDup (LOAD_ZONES m) ->
    (forall tx, In tx (TRANSMISSION_LINES m) ->
                In (trans_lz1 m tx) (LOAD_ZONES m)
                /\ In (trans_lz2 m tx) (LOAD_ZONES m)) ->
    psum (map (fun z => TxDispatch.TXPowerNet m s z tp) (LOAD_ZONES m))
    = psum (map (fun c => DispatchTx s (c, tp)
                          * (trans_efficiency m (trans_d_line m c) - 1))
                (TxDispatch.DIRECTIONAL_TX m)) /\
    ((forall c, In c (TxDispatch.DIRECTIONAL_TX m) ->
                0 <= DispatchTx s (c, tp)
                /\ trans_efficiency m (trans_d_line m c) <= 1) ->
     psum (map (fun z => TxDispatch.TXPowerNet m s z tp) (LOAD_ZONES m)) <= 0).
Proof.
  intros m s tp Hnd Hlz.
  assert (Heq : psum (map (fun z => TxDispatch.TXPowerNet m s z tp) (LOAD_ZONES m))
                = psum (map (fun c => DispatchTx s (c, tp)
                                      * (trans_efficiency m (trans_d_line m c) - 1))
                            (TxDispatch.DIRECTIONAL_TX m))).
  { rewrite (psum_map_ext _ _
               (fun z => psum (map (fun c => TxDispatch.TxPowerReceived m s (c, tp))
                                   (TxDispatch.corridors_into m z))
                         + -1 * psum (map (fun c => TxDispatch.TxPowerSent m s (c, tp))
                                          (TxDispatch.corridors_out_of m z)))).
    - rewrite psum_map_plus, psum_map_scal.
      unfold TxDispatch.corridors_into, TxDispatch.corridors_out_of.
      rewrite (psum_partition _ snd), (psum_partition _ fst); try assumption.
      + rewrite <- psum_map_scal, <- psum_map_plus. apply psum_map_ext.
        intros [zf zt] _. simpl. lra.
      + intros [a b] Hc. simpl.
        now destruct (@DIRECTIONAL_TX_zones m Hlz a b Hc).
      + intros [a b] Hc. simpl.
        now destruct (@DIRECTIONAL_TX_zones m Hlz a b Hc).
    - intros z _. rewrite (@TXPowerNet_over_corridors m Hnd Hlz s z tp). lra. }
  split; [exact Heq |].
  intros Hc. rewrite Heq.
  rewrite <- (psum_map_zero _ (TxDispatch.DIRECTIONAL_TX m)).
  apply psum_map_le. intros c Hin. destruct (Hc c Hin) as [Hd He]. nra.
Qed.

Lemma transmission_net_is_the_losses_witness :
  psum (map (fun z => TxDispatch.TXPowerNet Example.m Example.s z 1%Z)
            (LOAD_ZONES Example.m)) <= 0.
Proof.
  destruct (transmission_net_is_the_losses Example.m Example.s 1%Z) as [_ H].
  - simpl. repeat constructor; simpl; intuition discriminate.
  - intros tx [<- | []]. simpl. auto.
  - apply H. intros [zf zt] _. simpl.
    destruct (String.eqb zf "North"); lra.
Defined.

(** ** Storage: charging seen from the zones *)

Lemma filter_andb (A : Type) (f g : A -> bool) (l : list A) :
  filter (fun a => f a && g a) l = filter f (filter g l).
Proof.
  induction l as [| a l IH]; [reflexivity |]. simpl.
  destruct (g a); simpl; destruct (f a); simpl; now rewrite IH.
Qed.

Lemma NoDup_map_fst_same_snd (l : list (gen * timepoint)) (t : timepoint) :
  NoDup l -> (forall a, In a l -> snd a = t) -> NoDup (map fst l).
Proof.
  induction 1 as [| a l Ha Hnd IH]; intros Hs; simpl; constructor.
  - intros Hin. apply in_map_iff in Hin as [b [Hb Hin]].
    apply Ha. replace a with b; [assumption |].
    destruct a as [g1 t1], b as [g2 t2]. simpl in Hb. subst g2.
    pose proof (Hs (g1, t1) (or_introl eq_refl)) as H1.
    pose proof (Hs (g1, t2) (or_intror Hin)) as H2.
    simpl in H1, H2. congruence.
  - apply IH. intros b Hb. apply Hs. now right.
Qed.

Lemma StorageNetCharge_over_pairs (m : model) (s : solution)
      (z : zone) (t : timepoint) :
  NoDup (Storage.STORAGE_GEN_TPS m) ->
  Storage.StorageNetCharge m s z t
  = psum (map (ChargeStorage s)
              (filter (fun gt => String.eqb (gen_load_zone m (fst gt)) z)
                      (filter (fun gt => Z.eqb (snd gt) t)
                              (Storage.STORAGE_GEN_TPS m)))).
Proof.
  intros Hnd.
  unfold Storage.StorageNetCharge, Storage.Storage_Charge_Summation_dict.
  cbn [fst snd].
  rewrite (filter_andb _ (fun gt => String.eqb (gen_load_zone m (fst gt)) z)
                       (fun gt => Z.eqb (snd gt) t)).
  set (lt := filter (fun gt => Z.eqb (snd gt) t) (Storage.STORAGE_GEN_TPS m)).
  set (lz := filter (fun gt => String.eqb (gen_load_zone m (fst gt)) z) lt).
  assert (Hsnd : forall a, In a lz -> snd a = t).
  { intros a Ha. apply filter_In in Ha as [Ha _].
    apply filter_In in Ha as [_ Ha]. now apply Z.eqb_eq in Ha. }
  assert (Hlz : NoDup lz) by (apply NoDup_filter, NoDup_filter, Hnd).
  rewrite nodup_fixed_point by (apply (NoDup_map_fst_same_snd lz t); assumption).
  rewrite map_map. apply psum_map_ext.
  intros [g t'] Ha. specialize (Hsnd _ Ha). simpl in Hsnd. now subst t'.
Qed.

(** X12. At a timepoint, the storage charging that the load zones see
    adds up to the charging of the storage projects: every project that
    can run then is counted in exactly one zone, its own. *)
Theorem StorageNetCharge_covers_every_project_once :
  forall (m : model) (s : solution) (t : timepoint),
    NoDup (LOAD_ZONES m) ->
    NoDup (Storage.STORAGE_GEN_TPS m) ->
    (forall g, In g (STORAGE_GENS m) -> In (gen_load_zone m g) (LOAD_ZONES m)) ->
    psum (map (fun z => Storage.StorageNetCharge m s z t) (LOAD_ZONES m))
    = psum (map (ChargeStorage s)
                (filter (fun gt => Z.eqb (snd gt) t)
                        (Storage.STORAGE_GEN_TPS m))).
Proof.
  intros m s t Hz Hnd Hlz.
  rewrite (psum_map_ext _ _ _ _
             (fun z _ => StorageNetCharge_over_pairs m s z t Hnd)).
  apply (psum_partition _ (fun gt => gen_load_zone m (fst gt))); [assumption |].
  intros [g t'] Hin. apply filter_In in Hin as [Hin _].
  apply STORAGE_GEN_TPS_In in Hin as [Hg _]. simpl. now apply Hlz.
Qed.

Lemma StorageNetCharge_covers_every_project_once_witness :
  psum (map (fun z => Storage.StorageNetCharge Example.m Example.s z 1%Z)
            (LOAD_ZONES Example.m))
  = psum (map (ChargeStorage Example.s)
              (filter (fun gt => Z.eqb (snd gt) 1%Z)
                      (Storage.STORAGE_GEN_TPS Example.m))).
Proof.
  apply (StorageNetCharge_covers_every_project_once Example.m Example.s 1%Z).
  - simpl. repeat constructor; simpl; intuition discriminate.
  - simpl. repeat constructor; simpl; intuition discriminate.
  - intros g [<- | []]. simpl. auto.
Defined.

(** ** The registry of balance terms *)

Lemma component_sum_Permutation (ns : LoadZones.namespace)
      (l l' : list string) (z : zone) (t : timepoint) :
  Permutation l l' ->
  forall v, LoadZones.component_sum ns l z t = Done v ->
            LoadZones.component_sum ns l' z t = Done v.
Proof.
  induction 1 as [| x l l' Hp IH | x y l | l l1 l2 H1 IH1 H2 IH2]; intros v Hv.
  - exact Hv.
  - simpl in *. unfold LoadZones.getattr in *.
    destruct (ns x) as [f |]; simpl in *; [| discriminate].
    destruct (LoadZones.component_sum ns l z t) as [s0 | e] eqn:E; simpl in *;
      [| discriminate].
    rewrite (IH s0 eq_refl). simpl. exact Hv.
  - simpl in *. unfold LoadZones.getattr in *.
    destruct (ns x) as [fx |]; simpl in *;
      destruct (ns y) as [fy |]; simpl in *; try discriminate.
    destruct (LoadZones.component_sum ns l z t) as [s0 | e]; simpl in *;
      [| discriminate].
    inversion Hv; subst v. f_equal. lra.
  - auto.
Qed.

Lemma Constraint_try_rule_ext (I : Type) (index : list I)
      (rule1 rule2 : I -> outcome constraint) :
  (forall i c, In i index -> rule1 i = Done c -> rule2 i = Done c) ->
  forall cs, Constraint_try index rule1 = Done cs ->
             Constraint_try index rule2 = Done cs.
Proof.
  induction index as [| i rest IH]; intros H cs Hcs; [exact Hcs |].
  simpl in *. destruct (rule1 i) as [c | e] eqn:E1; simpl in Hcs;
    [| discriminate].
  rewrite (H i c (or_introl eq_refl) E1). simpl.
  destruct (Constraint_try rest rule1) as [cs' | e] eqn:Er; simpl in Hcs;
    [| discriminate].
  rewrite (IH (fun j c' Hj => H j c' (or_intror Hj)) cs' eq_refl).
  exact Hcs.
Qed.

Lemma Zone_Energy_Balance_rule_Permutation (ns : LoadZones.namespace)
      (mod1 mod2 : LoadZones.ledger) (zt : zone * timepoint) c :
  Permutation (LoadZones.Zone_Power_Injections mod1)
              (LoadZones.Zone_Power_Injections mod2) ->
  Permutation (LoadZones.Zone_Power_Withdrawals mod1)
              (LoadZones.Zone_Power_Withdrawals mod2) ->
  LoadZones.Zone_Energy_Balance_rule ns mod1 zt = Done c ->
  LoadZones.Zone_Energy_Balance_rule ns mod2 zt = Done c.
Proof.
  intros Hi Hw. destruct zt as [z t].
  unfold LoadZones.Zone_Energy_Balance_rule.
  destruct (LoadZones.component_sum ns (LoadZones.Zone_Power_Injections mod1) z t)
    as [lhs | e] eqn:El; simpl; [| discriminate].
  destruct (LoadZones.component_sum ns (LoadZones.Zone_Power_Withdrawals mod1) z t)
    as [rhs | e] eqn:Er; simpl; [| discriminate].
  intros Hc.
  rewrite (component_sum_Permutation ns _ _ z t Hi lhs El). simpl.
  rewrite (component_sum_Permutation ns _ _ z t Hw rhs Er). simpl.
  exact Hc.
Qed.

(** X13. The order in which modules register their terms does not change
    the balance constraint: for two registries whose injection lists and
    whose withdrawal lists hold the same names in another order, the
    constraint is built for one exactly when it is built for the other,
    and with the same relations. *)
Theorem Zone_Energy_Balance_ignores_registration_order :
  forall (ns : LoadZones.namespace) (mod1 mod2 : LoadZones.ledger) (m : model),
    Permutation (LoadZones.Zone_Power_Injections mod1)
                (LoadZones.Zone_Power_Injections mod2) ->
    Permutation (LoadZones.Zone_Power_Withdrawals mod1)
                (LoadZones.Zone_Power_Withdrawals mod2) ->
    forall cs,
      LoadZones.Zone_Energy_Balance ns mod1 m = Done cs
      <-> LoadZones.Zone_Energy_Balance ns mod2 m = Done cs.
Proof.
  intros ns mod1 mod2 m Hi Hw cs. unfold LoadZones.Zone_Energy_Balance.
  split; apply Constraint_try_rule_ext; intros i c _.
  - now apply Zone_Energy_Balance_rule_Permutation.
  - apply Zone_Energy_Balance_rule_Permutation; now apply Permutation_sym.
Qed.

Lemma Zone_Energy_Balance_ignores_registration_order_witness :
  exists cs,
    LoadZones.Zone_Energy_Balance Example.ns Example.ledger Example.m = Done cs
    /\ LoadZones.Zone_Energy_Balance Example.ns
         (LoadZones.define_components
            (Storage.define_components
               (LoadZones.append_injection "ZoneTotalCentralDispatch"%string
                  (TxDispatch.define_components
                     (LoadZones.define_dynamic_lists Example.empty_ledger)))))
         Example.m = Done cs.
Proof.
  destruct Example_Zone_Energy_Balance as [cs [Hcs _]].
  exists cs. split; [exact Hcs |].
  apply (Zone_Energy_Balance_ignores_registration_order
           Example.ns Example.ledger); [apply perm_swap | apply perm_swap |].
  exact Hcs.
Defined.

Lemma component_sum_resolved (ns : LoadZones.namespace) (l : list string)
      (z : zone) (t : timepoint) :
  (forall c, In c l -> ns c <> None) ->
  exists v, LoadZones.component_sum ns l z t = Done v.
Proof.
  induction l as [| c l IH]; intros H; simpl; [eauto |].
  unfold LoadZones.getattr. destruct (ns c) as [f |] eqn:E.
  - destruct IH as [v Hv]; [intros c' Hc'; apply H; now right |].
    rewrite Hv. simpl. eauto.
  - exfalso. apply (H c); [now left | assumption].
Qed.

Lemma component_sum_unresolved (ns : LoadZones.namespace) (l : list string)
      (z : zone) (t : timepoint) :
  (exists c, In c l /\ ns c = None) ->
  exists name, In name l /\ ns name = None
               /\ LoadZones.component_sum ns l z t
                  = Raised (AttributeError name).
Proof.
  induction l as [| c l IH]; intros [c0 [Hin Hc0]]; [contradiction |].
  simpl. unfold LoadZones.getattr. destruct (ns c) as [f |] eqn:E.
  - destruct Hin as [-> | Hin]; [congruence |].
    destruct IH as [name [Hn [Hnone Hr]]]; [eauto |].
    exists name. rewrite Hr. simpl. auto.
  - exists c. simpl. auto.
Qed.

Lemma classic_unresolved (ns : LoadZones.namespace) (l : list string) :
  (exists c, In c l /\ ns c = None) \/ (forall c, In c l -> ns c <> None).
Proof.
  induction l as [| c l [[c' [Hin Hc']] | IH]].
  - right. intros c [].
  - left. exists c'. split; [now right | assumption].
  - destruct (ns c) as [f |] eqn:E.
    + right. intros c' [<- | Hin]; [congruence | now apply IH].
    + left. exists c. split; [now left | assumption].
Qed.

(** X14. The balance constraint needs every registered term to be a
    component of the model: with at least one zone and one timepoint, a
    registered name that is not defined makes its construction raise
    AttributeError for an undefined name; with no zone or no timepoint
    the rule is never called and the constraint is built empty whatever
    is registered. *)
Theorem Zone_Energy_Balance_needs_every_component :
  forall (ns : LoadZones.namespace) (mod_ : LoadZones.ledger) (m : model),
    ((exists c, In c (LoadZones.Zone_Power_Injections mod_
                      ++ LoadZones.Zone_Power_Withdrawals mod_)
                /\ ns c = None) ->
     LOAD_ZONES m <> [] -> TIMEPOINTS m <> [] ->
     exists name,
       In name (LoadZones.Zone_Power_Injections mod_
                ++ LoadZones.Zone_Power_Withdrawals mod_)
       /\ ns name = None
       /\ LoadZones.Zone_Energy_Balance ns mod_ m
          = Raised (AttributeError name)) /\
    (LOAD_ZONES m = [] \/ TIMEPOINTS m = [] ->
     LoadZones.Zone_Energy_Balance ns mod_ m = Done []).
Proof.
  intros ns mod_ m. unfold LoadZones.Zone_Energy_Balance,
    LoadZones.ZONE_TIMEPOINTS. split.
  - intros [c [Hin Hc]] Hz Ht.
    destruct (LOAD_ZONES m) as [| z zs]; [contradiction |].
    destruct (TIMEPOINTS m) as [| t ts]; [contradiction |].
    cbn [list_prod map app Constraint_try].
    unfold LoadZones.Zone_Energy_Balance_rule at 1.
    destruct (classic_unresolved ns (LoadZones.Zone_Power_Injections mod_))
      as [Hex | Hall].
    + destruct (component_sum_unresolved ns _ z t Hex) as [name [Hn [Hnone Hr]]].
      exists name. rewrite Hr. simpl.
      split; [apply in_or_app; now left | auto].
    + destruct (component_sum_resolved ns _ z t Hall) as [lhs Hl].
      rewrite Hl. simpl.
      assert (Hex : exists c', In c' (LoadZones.Zone_Power_Withdrawals mod_)
                               /\ ns c' = None).
      { apply in_app_or in Hin as [Hin | Hin]; [| eauto].
        exfalso. exact (Hall c Hin Hc). }
      destruct (component_sum_unresolved ns _ z t Hex) as [name [Hn [Hnone Hr]]].
      exists name. rewrite Hr. simpl.
      split; [apply in_or_app; now right | auto].
  - intros [-> | ->]; [reflexivity |].
    induction (LOAD_ZONES m) as [| z zs IH]; [reflexivity | exact IH].
Qed.

(** ** The load-balance tables *)

Lemma resolves_component_sum (ns : LoadZones.namespace) (l : list string) fs
      (z : zone) (t : timepoint) :
  LoadZones.resolves ns l fs ->
  LoadZones.component_sum ns l z t = Done (psum (map (fun f => f z t) fs)).
Proof.
  induction 1 as [| c f l fs Hc _ IH]; [reflexivity |].
  simpl. unfold LoadZones.getattr. rewrite Hc. simpl. rewrite IH. reflexivity.
Qed.

Lemma resolves_component_values (ns : LoadZones.namespace) (l : list string) fs
      (z : zone) (t : timepoint) :
  LoadZones.resolves ns l fs ->
  LoadBalanceReport.component_values ns l z t = Done (map (fun f => f z t) fs).
Proof.
  induction 1 as [| c f l fs Hc _ IH]; [reflexivity |].
  simpl. unfold LoadZones.getattr. rewrite Hc. simpl. rewrite IH. reflexivity.
Qed.

Lemma resolves_components_per_year (ns : LoadZones.namespace) (m : model)
      (r : LoadBalanceReport.report_inputs) (l : list string) fs
      (z : zone) (p : period) :
  LoadZones.resolves ns l fs ->
  LoadBalanceReport.components_per_year ns m r l z p
  = Done (map (fun f => psum (map (fun t => f z t
                                            * LoadBalanceReport.tp_weight_in_year r t)
                                  (TPS_IN_PERIOD m p))) fs).
Proof.
  induction 1 as [| c f l fs Hc _ IH]; [reflexivity |].
  simpl. unfold LoadBalanceReport.get_component_per_year, LoadZones.getattr.
  rewrite Hc. simpl. rewrite IH. reflexivity.
Qed.

Lemma resolves_length (ns : LoadZones.namespace) (l : list string) fs :
  LoadZones.resolves ns l fs -> List.length fs = List.length l.
Proof. induction 1; simpl; congruence. Qed.

(** Where the balance constraint is built and satisfied, the registered
    names resolve and their values balance at every zone and timepoint. *)
Lemma balance_at (ns : LoadZones.namespace) (mod_ : LoadZones.ledger)
      (m : model) cs (z : zone) (t : timepoint) :
  LoadZones.Zone_Energy_Balance ns mod_ m = Done cs ->
  all_satisfied cs ->
  In z (LOAD_ZONES m) -> In t (TIMEPOINTS m) ->
  exists fi fw,
    LoadZones.resolves ns (LoadZones.Zone_Power_Injections mod_) fi /\
    LoadZones.resolves ns (LoadZones.Zone_Power_Withdrawals mod_) fw /\
    psum (map (fun f => f z t) fi) = psum (map (fun f => f z t) fw).
Proof.
  intros Hcs Hsat Hz Ht.
  unfold LoadZones.Zone_Energy_Balance, LoadZones.ZONE_TIMEPOINTS in Hcs.
  destruct (@Constraint_try_Done _ _ _ _ Hcs) as [_ Hall].
  destruct (Hall (z, t)) as [c [Hc Hin]]; [now apply in_prod |].
  unfold LoadZones.Zone_Energy_Balance_rule in Hc.
  destruct (LoadZones.component_sum ns (LoadZones.Zone_Power_Injections mod_) z t)
    as [lhs | e] eqn:El; simpl in Hc; [| discriminate].
  destruct (LoadZones.component_sum ns (LoadZones.Zone_Power_Withdrawals mod_) z t)
    as [rhs | e] eqn:Er; simpl in Hc; [| discriminate].
  inversion Hc; subst c; clear Hc.
  destruct (@component_sum_Done _ _ _ _ _ El) as [fi [Hfi ->]].
  destruct (@component_sum_Done _ _ _ _ _ Er) as [fw [Hfw ->]].
  exists fi, fw. repeat split; try assumption.
  unfold all_satisfied in Hsat. rewrite Forall_forall in Hsat.
  exact (Hsat _ Hin).
Qed.

Lemma psum_Number (xs : list R) :
  psum (map LoadBalanceReport.cell_number (map LoadBalanceReport.Number xs))
  = psum xs.
Proof. induction xs as [| x xs IH]; simpl; [reflexivity | now rewrite IH]. Qed.

Lemma psum_Number_opp (xs : list R) :
  psum (map LoadBalanceReport.cell_number
            (map (fun x => LoadBalanceReport.Number (- x)) xs))
  = - psum xs.
Proof. induction xs as [| x xs IH]; simpl; [lra | rewrite IH; lra]. Qed.

Lemma term_columns_total (xs ys : list R) :
  psum (map LoadBalanceReport.cell_number
            (map LoadBalanceReport.Number xs
             ++ map (fun x => LoadBalanceReport.Number (- x)) ys))
  = psum xs - psum ys.
Proof. rewrite map_app, psum_app, psum_Number, psum_Number_opp. lra. Qed.

(** X15. In load_balance.csv, for a solution that satisfies the balance
    constraint, every row has as many cells as the table has headings,
    and the columns of the registered terms (injections as they are,
    withdrawals negated) sum to zero. *)
Theorem load_balance_row_sums_to_zero :
  forall (ns : LoadZones.namespace) (mod_ : LoadZones.ledger) (m : model)
         (r : LoadBalanceReport.report_inputs) cs (z : zone) (t : timepoint),
    LoadZones.Zone_Energy_Balance ns mod_ m = Done cs ->
    all_satisfied cs ->
    In z (LOAD_ZONES m) -> In t (TIMEPOINTS m) ->
    exists row,
      LoadBalanceReport.load_balance_values ns mod_ r z t = Done row /\
      List.length row
      = List.length (LoadBalanceReport.load_balance_headings mod_) /\
      LoadBalanceReport.columns_total 3 row = 0.
Proof.
  intros ns mod_ m r cs z t Hcs Hsat Hz Ht.
  destruct (balance_at ns mod_ m cs z t Hcs Hsat Hz Ht) as [fi [fw [Hi [Hw Hb]]]].
  unfold LoadBalanceReport.load_balance_values.
  rewrite (resolves_component_values ns _ fi z t Hi). cbn [bind].
  rewrite (resolves_component_values ns _ fw z t Hw). cbn [bind].
  eexists. split; [reflexivity |]. split.
  - unfold LoadBalanceReport.load_balance_headings.
    cbn [app List.length]. rewrite !length_app, !length_map.
    now rewrite (resolves_length ns _ fi Hi), (resolves_length ns _ fw Hw).
  - unfold LoadBalanceReport.columns_total. cbn [app skipn].
    rewrite term_columns_total. lra.
Qed.

Lemma load_balance_row_sums_to_zero_witness :
  exists row,
    LoadBalanceReport.load_balance_values Example.ns Example.ledger
      {| LoadBalanceReport.tp_timestamp := fun _ => "2020010100"%string;
         LoadBalanceReport.tp_weight_in_year := fun _ => 4380;
         LoadBalanceReport.normalized_energy_balance_dual := fun _ _ => 30 |}
      "North"%string 1%Z = Done row /\
    LoadBalanceReport.columns_total 3 row = 0.
Proof.
  destruct Example_Zone_Energy_Balance as [cs [Hcs Hsat]].
  destruct (load_balance_row_sums_to_zero Example.ns Example.ledger Example.m
              {| LoadBalanceReport.tp_timestamp := fun _ => "2020010100"%string;
                 LoadBalanceReport.tp_weight_in_year := fun _ => 4380;
                 LoadBalanceReport.normalized_energy_balance_dual := fun _ _ => 30 |}
              cs "North"%string 1%Z Hcs Hsat)
    as [row [Hrow [_ Hz]]].
  - simpl. auto.
  - simpl. auto.
  - exists row. auto.
Defined.

Lemma psum_swap (A B : Type) (g : A -> B -> R) (la : list A) (lb : list B) :
  psum (map (fun a => psum (map (fun b => g a b) lb)) la)
  = psum (map (fun b => psum (map (fun a => g a b) la)) lb).
Proof.
  induction la as [| a la IH]; simpl.
  - now rewrite psum_map_zero.
  - rewrite IH. now rewrite <- psum_map_plus.
Qed.

(** X16. In load_balance_annual_zonal.csv, for a solution that satisfies
    the balance constraint, the weighted yearly columns of the registered
    terms of a zone and period (injections as they are, withdrawals
    negated) sum to zero as well, whatever the weights of the
    timepoints. *)
Theorem load_balance_annual_zonal_row_sums_to_zero :
  forall (ns : LoadZones.namespace) (mod_ : LoadZones.ledger) (m : model)
         (r : LoadBalanceReport.report_inputs) cs (z : zone) (p : period),
    LoadZones.Zone_Energy_Balance ns mod_ m = Done cs ->
    all_satisfied cs ->
    In z (LOAD_ZONES m) ->
    TIMEPOINTS m <> [] ->
    (forall t, In t (TPS_IN_PERIOD m p) -> In t (TIMEPOINTS m)) ->
    exists row,
      LoadBalanceReport.load_balance_annual_zonal_values ns mod_ m r z p
      = Done row /\
      List.length row
      = List.length (LoadBalanceReport.load_balance_annual_zonal_headings mod_) /\
      LoadBalanceReport.columns_total 2 row = 0.
Proof.
  intros ns mod_ m r cs z p Hcs Hsat Hz Hne Hsub.
  destruct (TIMEPOINTS m) as [| t0 ts0] eqn:Etp; [contradiction |].
  assert (Ht0 : In t0 (TIMEPOINTS m)) by (rewrite Etp; now left).
  destruct (balance_at ns mod_ m cs z t0 Hcs Hsat Hz Ht0) as [fi [fw [Hi [Hw _]]]].
  unfold LoadBalanceReport.load_balance_annual_zonal_values.
  rewrite (resolves_components_per_year ns m r _ fi z p Hi). cbn [bind].
  rewrite (resolves_components_per_year ns m r _ fw z p Hw). cbn [bind].
  eexists. split; [reflexivity |]. split.
  - unfold LoadBalanceReport.load_balance_annual_zonal_headings.
    cbn [app List.length]. rewrite !length_app, !length_map.
    now rewrite (resolves_length ns _ fi Hi), (resolves_length ns _ fw Hw).
  - unfold LoadBalanceReport.columns_total. cbn [app skipn].
    rewrite term_columns_total.
    rewrite (psum_swap _ _
               (fun f t => f z t * LoadBalanceReport.tp_weight_in_year r t) fi),
      (psum_swap _ _
         (fun f t => f z t * LoadBalanceReport.tp_weight_in_year r t) fw).
    assert (Heq : forall t, In t (TPS_IN_PERIOD m p) ->
              psum (map (fun f => f z t * LoadBalanceReport.tp_weight_in_year r t) fi)
              = psum (map (fun f => f z t * LoadBalanceReport.tp_weight_in_year r t) fw)).
    { intros t Ht.
      assert (Htp : In t (TIMEPOINTS m)) by (rewrite Etp; apply Hsub; exact Ht).
      destruct (balance_at ns mod_ m cs z t Hcs Hsat Hz Htp)
        as [fi' [fw' [Hi' [Hw' Hb]]]].
      rewrite <- (@resolves_functional _ _ _ _ Hi Hi') in Hb.
      rewrite <- (@resolves_functional _ _ _ _ Hw Hw') in Hb.
      rewrite (psum_map_ext _ _
                 (fun f => LoadBalanceReport.tp_weight_in_year r t * f z t) fi)
        by (intros; lra).
      rewrite (psum_map_ext _ _
                 (fun f => LoadBalanceReport.tp_weight_in_year r t * f z t) fw)
        by (intros; lra).
      rewrite !psum_map_scal. now rewrite Hb. }
    rewrite (psum_map_ext _ _ _ _ Heq). lra.
Qed.

Lemma load_balance_annual_zonal_row_sums_to_zero_witness :
  exists row,
    LoadBalanceReport.load_balance_annual_zonal_values
      Example.ns Example.ledger Example.m
      {| LoadBalanceReport.tp_timestamp := fun _ => "2020010100"%string;
         LoadBalanceReport.tp_weight_in_year := fun _ => 4380;
         LoadBalanceReport.normalized_energy_balance_dual := fun _ _ => 30 |}
      "North"%string 2020%Z = Done row /\
    LoadBalanceReport.columns_total 2 row = 0.
Proof.
  destruct Example_Zone_Energy_Balance as [cs [Hcs Hsat]].
  destruct (load_balance_annual_zonal_row_sums_to_zero
              Example.ns Example.ledger Example.m
              {| LoadBalanceReport.tp_timestamp := fun _ => "2020010100"%string;
                 LoadBalanceReport.tp_weight_in_year := fun _ => 4380;
                 LoadBalanceReport.normalized_energy_balance_dual := fun _ _ => 30 |}
              cs "North"%string 2020%Z Hcs Hsat)
    as [row [Hrow [_ Hz]]].
  - simpl. auto.
  - simpl. discriminate.
  - intros t Ht. exact Ht.
  - exists row. auto.
Defined.

(** ** The construction dictionaries *)

Section ConstructionDictFacts.

(** A dictionary whose keys are [ks], in order, with value [h k] at [k]. *)
Let table (h : string -> list gen) (ks : list string) : ConstructionDict.dict :=
  map (fun k => (k, h k)) ks.

Lemma get_table_In h ks k :
  In k ks -> ConstructionDict.get (table h ks) k = Some (h k).
Proof.
  unfold ConstructionDict.get.
  induction ks as [| k' ks IH]; intros Hin; [contradiction |].
  simpl. destruct (String.eqb k' k) eqn:E.
  - apply String.eqb_eq in E. now subst.
  - destruct Hin as [-> | Hin]; [rewrite String.eqb_refl in E; discriminate |].
    now apply IH.
Qed.

Lemma get_missing (d : ConstructionDict.dict) k :
  ~ In k (map fst d) -> ConstructionDict.get d k = None.
Proof.
  unfold ConstructionDict.get.
  induction d as [| [k' v] d IH]; intros Hn; [reflexivity |].
  simpl. destruct (String.eqb k' k) eqn:E.
  - apply String.eqb_eq in E. subst. exfalso. apply Hn. now left.
  - apply IH. intros H. apply Hn. now right.
Qed.

Lemma get_present (d : ConstructionDict.dict) k :
  In k (map fst d) -> exists v, ConstructionDict.get d k = Some v.
Proof.
  unfold ConstructionDict.get.
  induction d as [| [k' v] d IH]; intros Hin; [contradiction |].
  simpl. destruct (String.eqb k' k) eqn:E; [simpl; eauto |].
  destruct Hin as [Heq | Hin]; [| now apply IH].
  simpl in Heq. subst. rewrite String.eqb_refl in E. discriminate.
Qed.

Lemma set_keys (d : ConstructionDict.dict) k v :
  In k (map fst d) ->
  map fst (ConstructionDict.set d k v) = map fst d.
Proof.
  induction d as [| [k' v'] d IH]; intros Hin; [contradiction |].
  simpl. destruct (String.eqb k' k) eqn:E.
  - apply String.eqb_eq in E. now subst.
  - simpl. f_equal. apply IH. destruct Hin as [Heq | Hin]; [| assumption].
    simpl in Heq. subst. rewrite String.eqb_refl in E. discriminate.
Qed.

Lemma set_keys_In (d : ConstructionDict.dict) k v k0 :
  In k0 (map fst (ConstructionDict.set d k v)) <-> k0 = k \/ In k0 (map fst d).
Proof.
  induction d as [| [k' v'] d IH]; simpl.
  - intuition.
  - destruct (String.eqb k' k) eqn:E; simpl.
    + apply String.eqb_eq in E. subst. intuition.
    + rewrite IH. intuition.
Qed.

Lemma set_table h ks k v :
  NoDup ks -> In k ks ->
  ConstructionDict.set (table h ks) k v
  = table (fun k' => if String.eqb k' k then v else h k') ks.
Proof.
  induction 1 as [| k' ks Hk Hnd IH]; intros Hin; [contradiction |].
  simpl. destruct (String.eqb k' k) eqn:E.
  - apply String.eqb_eq in E. subst k'. f_equal.
    unfold table. apply map_ext_in. intros a Ha.
    destruct (String.eqb a k) eqn:Ea; [| reflexivity].
    apply String.eqb_eq in Ea. subst. contradiction.
  - f_equal. apply IH. destruct Hin as [-> | Hin]; [| assumption].
    rewrite String.eqb_refl in E. discriminate.
Qed.

Lemma set_fresh h ks k v :
  ~ In k ks ->
  ConstructionDict.set (table h ks) k v = table h ks ++ [(k, v)].
Proof.
  induction ks as [| k' ks IH]; intros Hn; [reflexivity |].
  simpl. destruct (String.eqb k' k) eqn:E.
  - apply String.eqb_eq in E. subst. exfalso. apply Hn. now left.
  - f_equal. apply IH. intros H. apply Hn. now right.
Qed.

Lemma empty_lists_table ks :
  NoDup ks -> ConstructionDict.empty_lists ks = table (fun _ => []) ks.
Proof.
  unfold ConstructionDict.empty_lists. intros Hnd.
  assert (H : forall acc,
             NoDup (acc ++ ks) ->
             fold_left (fun d k => ConstructionDict.set d k []) ks
                       (table (fun _ => []) acc)
             = table (fun _ => []) (acc ++ ks)).
  { clear Hnd. induction ks as [| k ks IH]; intros acc Hnd.
    - now rewrite app_nil_r.
    - simpl. rewrite set_fresh.
      + replace (table (fun _ => []) acc ++ [(k, [])])
          with (table (fun _ => []) (acc ++ [k]))
          by (unfold table; now rewrite map_app).
        rewrite IH; rewrite <- app_assoc; [reflexivity | exact Hnd].
      + apply NoDup_remove_2 in Hnd. intros H. apply Hnd.
        apply in_or_app. now left. }
  exact (H [] Hnd).
Qed.

Lemma empty_lists_keys ks k :
  In k (map fst (ConstructionDict.empty_lists ks)) <-> In k ks.
Proof.
  unfold ConstructionDict.empty_lists.
  assert (H : forall acc,
             In k (map fst (fold_left (fun d k' => ConstructionDict.set d k' [])
                                      ks acc))
             <-> In k (map fst acc) \/ In k ks).
  { induction ks as [| k' ks IH]; intros acc; simpl; [tauto |].
    rewrite IH, set_keys_In. intuition. }
  rewrite H. simpl. tauto.
Qed.

Variable key_of : gen -> string.

Lemma fill_table gens :
  forall h ks,
    NoDup ks ->
    (forall g, In g gens -> In (key_of g) ks) ->
    ConstructionDict.fill key_of gens (table h ks)
    = Some (table (fun k => h k ++ ConstructionDict.gens_with key_of gens k) ks).
Proof.
  induction gens as [| g gens IH]; intros h ks Hnd Hk.
  - simpl. f_equal. unfold table. apply map_ext. intros k.
    now rewrite app_nil_r.
  - simpl. unfold ConstructionDict.append.
    assert (Hg : In (key_of g) ks) by (apply Hk; now left).
    rewrite (get_table_In h ks (key_of g) Hg), (set_table h ks _ _ Hnd Hg).
    rewrite IH by (auto; intros g' Hg'; apply Hk; now right).
    f_equal. unfold table. apply map_ext. intros k.
    unfold ConstructionDict.gens_with. simpl.
    rewrite (String.eqb_sym (key_of g) k).
    destruct (String.eqb k (key_of g)) eqn:E; [| reflexivity].
    apply String.eqb_eq in E. subst k. now rewrite <- app_assoc.
Qed.

Lemma fill_keys gens :
  forall d d', ConstructionDict.fill key_of gens d = Some d' ->
               map fst d' = map fst d.
Proof.
  induction gens as [| g gens IH]; intros d d' H; simpl in H.
  - now inversion H.
  - unfold ConstructionDict.append in H.
    destruct (ConstructionDict.get d (key_of g)) as [v |] eqn:E;
      [| discriminate].
    rewrite (IH _ _ H). apply set_keys.
    destruct (in_dec string_dec (key_of g) (map fst d)) as [Hin | Hn];
      [assumption |].
    rewrite (get_missing d _ Hn) in E. discriminate.
Qed.

Lemma fill_missing gens :
  forall d, (exists g, In g gens /\ ~ In (key_of g) (map fst d)) ->
            ConstructionDict.fill key_of gens d = None.
Proof.
  induction gens as [| g gens IH]; intros d [g0 [Hin Hn]]; [contradiction |].
  simpl. unfold ConstructionDict.append.
  destruct (ConstructionDict.get d (key_of g)) as [v |] eqn:E; [| reflexivity].
  destruct Hin as [-> | Hin].
  - rewrite (get_missing d _ Hn) in E. discriminate.
  - apply IH. exists g0. split; [assumption |].
    rewrite set_keys; [assumption |].
    destruct (in_dec string_dec (key_of g) (map fst d)) as [Hk | Hk];
      [assumption |].
    rewrite (get_missing d _ Hk) in E. discriminate.
Qed.

Lemma filter_table h ks (f : string -> bool) :
  filter (fun kv => f (fst kv)) (table h ks) = table h (filter f ks).
Proof.
  induction ks as [| k ks IH]; [reflexivity |].
  simpl. destruct (f k); simpl; now rewrite IH.
Qed.

Lemma pop_table h ks k :
  In k ks ->
  ConstructionDict.pop (table h ks) k
  = Some (h k, table h (filter (fun k' => negb (String.eqb k' k)) ks)).
Proof.
  intros Hin. unfold ConstructionDict.pop.
  rewrite (get_table_In h ks k Hin).
  now rewrite (filter_table h ks (fun k' => negb (String.eqb k' k))).
Qed.

Lemma get_popped (d : ConstructionDict.dict) k :
  ConstructionDict.get
    (filter (fun kv => negb (String.eqb (fst kv) k)) d) k = None.
Proof.
  apply get_missing. intros Hin. apply in_map_iff in Hin as [[k' v] [Hk Hin]].
  apply filter_In in Hin as [_ Hf]. simpl in Hk, Hf. subst k'.
  rewrite String.eqb_refl in Hf. discriminate.
Qed.

Let attribute_of h (ks : list string) : option ConstructionDict.dict :=
  match ks with
  | [] => None
  | _ :: _ => Some (table h ks)
  end.

Lemma attribute_of_table h ks :
  match table h ks with
  | [] => None
  | _ :: _ => Some (table h ks)
  end = attribute_of h ks.
Proof. destruct ks; reflexivity. Qed.

Variable keys : list string.
Variable gens : list gen.

(** Popping the entries of [index] one after the other from a dictionary
    built over [ks]. *)
Lemma init_each_table h :
  forall index ks,
    ks <> [] -> NoDup index -> (forall k, In k index -> In k ks) ->
    ConstructionDict.init_each keys key_of gens (Some (table h ks)) index
    = Some (table h index,
            attribute_of h (filter (fun k => negb (in_strs k index)) ks)).
Proof.
  induction index as [| k index IH]; intros ks Hne Hnd Hin.
  - cbn [ConstructionDict.init_each table map].
    assert (Hall : filter (fun k => negb (in_strs k [])) ks = ks).
    { clear. induction ks as [| a l IHl]; [reflexivity |].
      cbn [filter]. unfold in_strs at 1. cbn [existsb negb]. now f_equal. }
    rewrite Hall. destruct ks; [contradiction | reflexivity].
  - cbn [ConstructionDict.init_each ConstructionDict.init].
    rewrite (pop_table h ks k) by (apply Hin; now left).
    rewrite attribute_of_table.
    remember (filter (fun k' => negb (String.eqb k' k)) ks) as ks' eqn:Eks.
    assert (Hfilter : filter (fun k0 => negb (in_strs k0 (k :: index))) ks
                      = filter (fun k0 => negb (in_strs k0 index)) ks').
    { rewrite Eks, <- filter_andb. apply filter_ext. intros a.
      unfold in_strs. simpl. now rewrite negb_orb, andb_comm. }
    apply NoDup_cons_iff in Hnd as [Hk Hnd'].
    assert (Hin' : forall k0, In k0 index -> In k0 ks').
    { intros k0 H0. rewrite Eks. apply filter_In.
      split; [apply Hin; now right |].
      apply negb_true_iff, String.eqb_neq. intros ->. contradiction. }
    rewrite Hfilter. clear Hfilter Eks.
    destruct ks' as [| k1 ks1].
    + destruct index as [| k0 index']; [| destruct (Hin' k0 (or_introl eq_refl))].
      reflexivity.
    + cbn [attribute_of].
      rewrite (IH (k1 :: ks1)) by (auto; discriminate).
      reflexivity.
Qed.

Lemma filter_all_visited (ks : list string) :
  filter (fun k => negb (in_strs k ks)) ks = [].
Proof.
  rewrite (filter_ext_in _ (fun _ => false)).
  - induction ks; simpl; auto.
  - intros k Hk. apply negb_false_iff. now apply in_strs_iff.
Qed.

Lemma init_each_from_None d0 k index :
  ConstructionDict.fill key_of gens (ConstructionDict.empty_lists keys)
  = Some d0 ->
  ConstructionDict.init_each keys key_of gens None (k :: index)
  = ConstructionDict.init_each keys key_of gens (Some d0) (k :: index).
Proof.
  intros H. cbn [ConstructionDict.init_each].
  unfold ConstructionDict.init. now rewrite H.
Qed.

(** Building an indexed set over all the keys of the dictionary. *)
Lemma init_each_all :
  NoDup keys ->
  (forall g, In g gens -> In (key_of g) keys) ->
  ConstructionDict.init_each keys key_of gens None keys
  = Some (table (ConstructionDict.gens_with key_of gens) keys, None).
Proof.
  intros Hnd Hk.
  assert (Hfill : ConstructionDict.fill key_of gens
                    (ConstructionDict.empty_lists keys)
                  = Some (table (ConstructionDict.gens_with key_of gens) keys)).
  { rewrite (empty_lists_table keys Hnd), (fill_table gens _ keys Hnd Hk).
    reflexivity. }
  assert (H : forall index,
             index = keys ->
             ConstructionDict.init_each keys key_of gens None index
             = Some (table (ConstructionDict.gens_with key_of gens) index, None)).
  { intros [| k index] Heq; [reflexivity |].
    rewrite (init_each_from_None _ k index Hfill).
    rewrite (init_each_table _ (k :: index) keys).
    - rewrite Heq, filter_all_visited. reflexivity.
    - rewrite <- Heq. discriminate.
    - now rewrite Heq.
    - intros k0 H0. now rewrite <- Heq.
  }
  exact (H keys eq_refl).
Qed.

End ConstructionDictFacts.

(** The lists a construction dictionary hands out partition the projects. *)
Lemma gens_with_partition (key_of : gen -> string) (gens : list gen) :
  forall keys,
    NoDup keys ->
    (forall g, In g gens -> In (key_of g) keys) ->
    Permutation
      (List.concat (map (ConstructionDict.gens_with key_of gens) keys)) gens.
Proof.
  induction gens as [| g gens IH]; intros keys Hnd Hk.
  - unfold ConstructionDict.gens_with. simpl.
    clear Hnd Hk. induction keys as [| k keys IHk]; simpl; [constructor |].
    exact IHk.
  - assert (Hskip : forall ks,
               ~ In (key_of g) ks ->
               map (ConstructionDict.gens_with key_of (g :: gens)) ks
               = map (ConstructionDict.gens_with key_of gens) ks).
    { intros ks Hn. apply map_ext_in. intros k Hin.
      unfold ConstructionDict.gens_with. simpl.
      destruct (String.eqb (key_of g) k) eqn:E; [| reflexivity].
      apply String.eqb_eq in E. subst k. contradiction. }
    assert (Hone : forall ks,
               NoDup ks -> In (key_of g) ks ->
               Permutation
                 (List.concat (map (ConstructionDict.gens_with key_of (g :: gens))
                              ks))
                 (g :: List.concat (map (ConstructionDict.gens_with key_of gens)
                                   ks))).
    { induction ks as [| k ks IHk]; intros Hnd' Hin; [contradiction |].
      apply NoDup_cons_iff in Hnd' as [Hfresh Hnd'].
      cbn [map List.concat].
      destruct (string_dec k (key_of g)) as [-> | Hne].
      - rewrite (Hskip ks Hfresh).
        unfold ConstructionDict.gens_with at 1. cbn [filter].
        rewrite String.eqb_refl. reflexivity.
      - destruct Hin as [Heq | Hin]; [congruence |].
        unfold ConstructionDict.gens_with at 1. cbn [filter].
        replace (String.eqb (key_of g) k) with false
          by (symmetry; apply String.eqb_neq; congruence).
        fold (ConstructionDict.gens_with key_of gens k).
        rewrite (IHk Hnd' Hin). symmetry. apply Permutation_middle. }
    rewrite (Hone keys Hnd (Hk g (or_introl eq_refl))).
    constructor. apply IH; [assumption |].
    intros g' Hg'. apply Hk. now right.
Qed.

Lemma NoDup_GENERATION_TECHNOLOGIES m gen_tech :
  NoDup (ConstructionDict.GENERATION_TECHNOLOGIES m gen_tech).
Proof. apply NoDup_nodup. Qed.

Lemma In_GENERATION_TECHNOLOGIES m gen_tech g :
  In g (GENERATION_PROJECTS m) ->
  In (gen_tech g) (ConstructionDict.GENERATION_TECHNOLOGIES m gen_tech).
Proof.
  intros H. apply nodup_In, in_map. exact H.
Qed.

(** X17. When the load zones are distinct and every project lies in one of
    them, building GENS_IN_ZONE calls GENS_IN_ZONE_init once per zone
    without a KeyError, gives each zone exactly the projects whose
    gen_load_zone is that zone, in the order of GENERATION_PROJECTS, and
    leaves the model without the attribute GENS_IN_ZONE_dict. *)
Theorem GENS_IN_ZONE_groups_projects_by_zone (m : model) :
  NoDup (LOAD_ZONES m) ->
  (forall g, In g (GENERATION_PROJECTS m) ->
             In (gen_load_zone m g) (LOAD_ZONES m)) ->
  ConstructionDict.GENS_IN_ZONE m
  = Some (map (fun z => (z, filter (fun g => String.eqb (gen_load_zone m g) z)
                                   (GENERATION_PROJECTS m)))
              (LOAD_ZONES m),
          None).
Proof.
  intros Hnd Hk. unfold ConstructionDict.GENS_IN_ZONE.
  exact (init_each_all (gen_load_zone m) (LOAD_ZONES m)
                       (GENERATION_PROJECTS m) Hnd Hk).
Qed.

Lemma Example_LOAD_ZONES_NoDup : NoDup (LOAD_ZONES Example.m).
Proof.
  simpl. repeat constructor; simpl; intuition discriminate.
Qed.

Lemma Example_gen_load_zone_In g :
  In g (GENERATION_PROJECTS Example.m) ->
  In (gen_load_zone Example.m g) (LOAD_ZONES Example.m).
Proof.
  simpl. intros [<- | [<- | [<- | [<- | []]]]]; simpl; auto.
Qed.

Lemma GENS_IN_ZONE_groups_projects_by_zone_witness :
  ConstructionDict.GENS_IN_ZONE Example.m
  = Some ([("North"%string, ["Coal"%string; "Battery"%string]);
           ("South"%string, ["Wind"%string; "Nuclear"%string])], None).
Proof.
  rewrite (GENS_IN_ZONE_groups_projects_by_zone Example.m
             Example_LOAD_ZONES_NoDup Example_gen_load_zone_In).
  reflexivity.
Defined.

(** X18. Whenever the construction of GENS_IN_ZONE succeeds over a
    non-empty list of distinct load zones, the sets it produced partition
    GENERATION_PROJECTS: there is one set per zone, and taken together
    they hold every project exactly as often as the project list does. *)
Theorem GENS_IN_ZONE_partitions_projects (m : model) sets attribute :
  LOAD_ZONES m <> [] ->
  NoDup (LOAD_ZONES m) ->
  ConstructionDict.GENS_IN_ZONE m = Some (sets, attribute) ->
  map fst sets = LOAD_ZONES m /\
  Permutation (List.concat (map snd sets)) (GENERATION_PROJECTS m).
Proof.
  intros Hne Hnd H.
  destruct (forallb (fun g => in_strs (gen_load_zone m g) (LOAD_ZONES m))
                    (GENERATION_PROJECTS m)) eqn:E.
  - assert (Hk : forall g, In g (GENERATION_PROJECTS m) ->
                           In (gen_load_zone m g) (LOAD_ZONES m)).
    { intros g Hg. rewrite forallb_forall in E.
      apply in_strs_iff. now apply E. }
    unfold ConstructionDict.GENS_IN_ZONE in H.
    rewrite (init_each_all (gen_load_zone m) (LOAD_ZONES m)
                           (GENERATION_PROJECTS m) Hnd Hk) in H.
    injection H as <- _. rewrite !map_map. cbn [fst snd].
    split; [apply map_id |].
    now apply gens_with_partition.
  - exfalso.
    assert (Hex : exists g, In g (GENERATION_PROJECTS m) /\
                            ~ In (gen_load_zone m g)
                                 (map fst (ConstructionDict.empty_lists
                                             (LOAD_ZONES m)))).
    { clear H. induction (GENERATION_PROJECTS m) as [| g gs IH];
        [discriminate |].
      cbn [forallb] in E. apply andb_false_iff in E as [E | E].
      - exists g. split; [now left |]. rewrite empty_lists_keys.
        intros Hin. apply in_strs_iff in Hin. congruence.
      - destruct (IH E) as [g' [Hg' Hn]]. exists g'. split; [now right |].
        exact Hn. }
    unfold ConstructionDict.GENS_IN_ZONE in H.
    destruct (LOAD_ZONES m) as [| z zs] eqn:Ez; [congruence |].
    rewrite <- Ez in Hex.
    cbn [ConstructionDict.init_each] in H.
    unfold ConstructionDict.init in H.
    rewrite <- Ez in H at 1.
    rewrite (fill_missing (gen_load_zone m) (GENERATION_PROJECTS m) _ Hex)
      in H.
    discriminate.
Qed.

Lemma GENS_IN_ZONE_partitions_projects_witness :
  Permutation ["Coal"%string; "Battery"%string; "Wind"%string;
               "Nuclear"%string]
              (GENERATION_PROJECTS Example.m).
Proof.
  refine (proj2 (GENS_IN_ZONE_partitions_projects Example.m
                   [("North"%string, ["Coal"%string; "Battery"%string]);
                    ("South"%string, ["Wind"%string; "Nuclear"%string])]
                   None _ Example_LOAD_ZONES_NoDup _)).
  - simpl. discriminate.
  - vm_compute. reflexivity.
Defined.

(** X19. Building GENS_BY_TECHNOLOGY never raises a KeyError, whatever the
    technologies of the projects are: every technology of
    GENERATION_TECHNOLOGIES gets the projects of that technology, in the
    order of GENERATION_PROJECTS, none of these sets is empty, and the
    attribute GENS_BY_TECH_dict is deleted at the last call. *)
Theorem GENS_BY_TECHNOLOGY_never_fails (m : model) (gen_tech : gen -> string) :
  ConstructionDict.GENS_BY_TECHNOLOGY m gen_tech
  = Some (map (fun t => (t, filter (fun g => String.eqb (gen_tech g) t)
                                   (GENERATION_PROJECTS m)))
              (ConstructionDict.GENERATION_TECHNOLOGIES m gen_tech),
          None)
  /\ forall t, In t (ConstructionDict.GENERATION_TECHNOLOGIES m gen_tech) ->
               filter (fun g => String.eqb (gen_tech g) t)
                      (GENERATION_PROJECTS m) <> [].
Proof.
  split.
  - unfold ConstructionDict.GENS_BY_TECHNOLOGY.
    exact (init_each_all gen_tech
             (ConstructionDict.GENERATION_TECHNOLOGIES m gen_tech)
             (GENERATION_PROJECTS m)
             (NoDup_GENERATION_TECHNOLOGIES m gen_tech)
             (In_GENERATION_TECHNOLOGIES m gen_tech)).
  - intros t Ht. unfold ConstructionDict.GENERATION_TECHNOLOGIES in Ht.
    apply nodup_In, in_map_iff in Ht as [g [Hg Hin]].
    intros Hnil.
    assert (H : In g (filter (fun g => String.eqb (gen_tech g) t)
                             (GENERATION_PROJECTS m))).
    { apply filter_In. split; [assumption |]. now apply String.eqb_eq. }
    rewrite Hnil in H. contradiction.
Qed.

(** X20. The KeyErrors of GENS_IN_ZONE_init. The first call fails, for any
    zone, when some project has a gen_load_zone that is not a load zone;
    the first call fails when asked for a zone that is not a load zone;
    and while GENS_IN_ZONE_dict still exists, asking again for a zone that
    was already handed out fails. *)
Theorem GENS_IN_ZONE_init_KeyError (m : model) :
  (forall z,
      (exists g, In g (GENERATION_PROJECTS m) /\
                 ~ In (gen_load_zone m g) (LOAD_ZONES m)) ->
      ConstructionDict.GENS_IN_ZONE_init m None z = None)
  /\ (forall z,
         ~ In z (LOAD_ZONES m) ->
         ConstructionDict.GENS_IN_ZONE_init m None z = None)
  /\ (forall attribute z result d,
         ConstructionDict.GENS_IN_ZONE_init m attribute z
         = Some (result, Some d) ->
         ConstructionDict.GENS_IN_ZONE_init m (Some d) z = None).
Proof.
  unfold ConstructionDict.GENS_IN_ZONE_init, ConstructionDict.init.
  split; [| split].
  - intros z [g [Hg Hn]]. rewrite fill_missing; [reflexivity |].
    exists g. split; [assumption |]. now rewrite empty_lists_keys.
  - intros z Hz.
    destruct (ConstructionDict.fill (gen_load_zone m) (GENERATION_PROJECTS m)
                (ConstructionDict.empty_lists (LOAD_ZONES m)))
      as [d |] eqn:E; [| reflexivity].
    unfold ConstructionDict.pop. rewrite get_missing; [reflexivity |].
    rewrite (fill_keys _ _ _ _ E), empty_lists_keys. exact Hz.
  - intros attribute z result d H.
    destruct (match attribute with
              | Some d0 => Some d0
              | None => ConstructionDict.fill (gen_load_zone m)
                          (GENERATION_PROJECTS m)
                          (ConstructionDict.empty_lists (LOAD_ZONES m))
              end) as [d0 |]; [| discriminate].
    unfold ConstructionDict.pop in H |- *.
    destruct (ConstructionDict.get d0 z) as [v |]; [| discriminate].
    injection H as _ H.
    destruct (filter (fun kv => negb (String.eqb (fst kv) z)) d0)
      as [| kv rest] eqn:E; [discriminate |].
    injection H as <-. rewrite <- E.
    now rewrite get_popped.
Qed.

(** ** The production tax credit *)

Lemma psum_filter_le (A : Type) (f : A -> R) (c : A -> bool) (l : list A) :
  (forall x, In x l -> 0 <= f x) ->
  0 <= psum (map f (filter c l)) <= psum (map f l).
Proof.
  induction l as [| a l IH]; intros H; simpl; [lra |].
  assert (Ha : 0 <= f a) by (apply H; now left).
  assert (Hl : 0 <= psum (map f (filter c l)) <= psum (map f l))
    by (apply IH; intros x Hx; apply H; now right).
  destruct (c a); simpl; lra.
Qed.

Lemma filter_all (A : Type) (c : A -> bool) (l : list A) :
  (forall x, In x l -> c x = true) -> filter c l = l.
Proof.
  induction l as [| a l IH]; intros H; simpl; [reflexivity |].
  rewrite (H a (or_introl eq_refl)). f_equal. apply IH.
  intros x Hx. apply H. now right.
Qed.

Lemma filter_none (A : Type) (c : A -> bool) (l : list A) :
  (forall x, In x l -> c x = false) -> filter c l = [].
Proof.
  induction l as [| a l IH]; intros H; simpl; [reflexivity |].
  rewrite (H a (or_introl eq_refl)). apply IH.
  intros x Hx. apply H. now right.
Qed.

Lemma ptc_eligible_yrs_filter (m : model) (g : gen) (p : period) :
  PTC.ptc_eligible_yrs m g p
  = filter (fun bld_yr => (2025 <=? bld_yr)%Z && (bld_yr <? 2035)%Z
                          && (p <? 2040)%Z)
           (Build.BLD_YRS_FOR_GEN_PERIOD m g p).
Proof.
  unfold PTC.ptc_eligible_yrs. apply nodup_fixed_point.
  apply NoDup_filter, BLD_YRS_FOR_GEN_PERIOD_NoDup.
Qed.

Lemma PTC_Capacity_expired (m : model) (s : solution) (g : gen) (p : period) :
  (2040 <= p)%Z -> PTC.PTC_Capacity m s (g, p) = 0.
Proof.
  intros Hp. unfold PTC.PTC_Capacity. rewrite ptc_eligible_yrs_filter.
  rewrite filter_none; [reflexivity |].
  intros b _. replace (p <? 2040)%Z with false by (symmetry; lia).
  apply andb_false_r.
Qed.

Lemma PTC_Capacity_no_eligible_build (m : model) (s : solution) (g : gen)
      (p : period) :
  (forall b, In b (Build.BLD_YRS_FOR_GEN_PERIOD m g p) ->
             (b < 2025 \/ 2035 <= b)%Z) ->
  PTC.PTC_Capacity m s (g, p) = 0.
Proof.
  intros H. unfold PTC.PTC_Capacity. rewrite ptc_eligible_yrs_filter.
  rewrite filter_none; [reflexivity |].
  intros b Hb. specialize (H b Hb).
  destruct (2025 <=? b)%Z eqn:E1; [| reflexivity].
  destruct (b <? 2035)%Z eqn:E2; [| reflexivity]. lia.
Qed.

(** X21. The capacity that can earn the production tax credit is a part
    of the installed capacity: with BuildGen in its domain, PTC_Capacity
    of a project and period lies between 0 and GenCapacity; it is 0 from
    the 2040 period on and where no operating build year lies in
    2025..2034; and before 2040 it is all of GenCapacity when every
    operating build year lies in 2025..2034. *)
Theorem PTC_Capacity_is_part_of_GenCapacity
        (m : model) (s : solution) (g : gen) (p : period) :
  Build.BuildGen_var m s ->
  0 <= PTC.PTC_Capacity m s (g, p) <= Build.GenCapacity m s (g, p)
  /\ ((2040 <= p)%Z -> PTC.PTC_Capacity m s (g, p) = 0)
  /\ ((forall b, In b (Build.BLD_YRS_FOR_GEN_PERIOD m g p) ->
                 (b < 2025 \/ 2035 <= b)%Z) ->
      PTC.PTC_Capacity m s (g, p) = 0)
  /\ ((p < 2040)%Z ->
      (forall b, In b (Build.BLD_YRS_FOR_GEN_PERIOD m g p) ->
                 (2025 <= b < 2035)%Z) ->
      PTC.PTC_Capacity m s (g, p) = Build.GenCapacity m s (g, p)).
Proof.
  intros Hvar. split; [| split; [| split]].
  - unfold PTC.PTC_Capacity, Build.GenCapacity.
    rewrite ptc_eligible_yrs_filter.
    apply (psum_filter_le _ (fun bld_yr => BuildGen s (g, bld_yr))).
    intros b Hb. apply BLD_YRS_FOR_GEN_PERIOD_In in Hb as [Hb _].
    exact (proj1 (Hvar (g, b) Hb)).
  - apply PTC_Capacity_expired.
  - apply PTC_Capacity_no_eligible_build.
  - intros Hp H. unfold PTC.PTC_Capacity, Build.GenCapacity.
    rewrite ptc_eligible_yrs_filter, filter_all; [reflexivity |].
    intros b Hb. specialize (H b Hb).
    repeat (apply andb_true_iff; split); lia.
Qed.

Lemma Example_BLD_YRS_Nuclear_2030 :
  Build.BLD_YRS_FOR_GEN_PERIOD Example.m "Nuclear"%string 2030%Z = [2030%Z].
Proof. eval_build_years. reflexivity. Defined.

Lemma PTC_Capacity_is_part_of_GenCapacity_witness :
  PTC.PTC_Capacity Example.m Example.s ("Nuclear"%string, 2030%Z)
  = Build.GenCapacity Example.m Example.s ("Nuclear"%string, 2030%Z).
Proof.
  refine (proj2 (proj2 (proj2
            (PTC_Capacity_is_part_of_GenCapacity
               Example.m Example.s "Nuclear"%string 2030%Z
               Example_BuildGen_var))) _ _).
  - lia.
  - rewrite Example_BLD_YRS_Nuclear_2030. intros b [<- | []]. lia.
Defined.

(** X22. Under PTC_lower_bound and PTC_upper_bound, the credited output
    of a project at a timepoint is non-negative and at most the smaller
    of its PTC capacity in that timepoint's period and its dispatch; it
    is 0 from the 2040 period on, and for a project none of whose
    operating build years lies in 2025..2034. *)
Theorem PTC_credit_limits
        (m : model) (i : PTC.inputs) (s : solution)
        (PTC : gen * timepoint -> R) (g : gen) (t : timepoint) :
  PTC.PTC_var i PTC ->
  all_satisfied (PTC.PTC_lower_bound m i s PTC) ->
  all_satisfied (PTC.PTC_upper_bound i s PTC) ->
  In (g, t) (PTC.GEN_TPS i) ->
  0 <= PTC (g, t)
       <= Rmin (PTC.PTC_CapacityInTP m s (g, t)) (DispatchGen s (g, t))
  /\ ((2040 <= tp_period m t)%Z -> PTC (g, t) = 0)
  /\ ((forall b, In b (Build.BLD_YRS_FOR_GEN_PERIOD m g (tp_period m t)) ->
                 (b < 2025 \/ 2035 <= b)%Z) ->
      PTC (g, t) = 0).
Proof.
  intros Hvar Hlo Hup Hin.
  assert (H0 : 0 <= PTC (g, t)) by exact (proj1 (Hvar (g, t) Hin)).
  assert (Hc : PTC (g, t) <= PTC.PTC_CapacityInTP m s (g, t)).
  { unfold PTC.PTC_lower_bound in Hlo.
    exact (@Constraint_satisfied _ _ _ (g, t) _ Hlo Hin eq_refl). }
  assert (Hd : PTC (g, t) <= DispatchGen s (g, t)).
  { unfold PTC.PTC_upper_bound in Hup.
    exact (@Constraint_satisfied _ _ _ (g, t) _ Hup Hin eq_refl). }
  split; [| split].
  - split; [assumption |]. now apply Rmin_glb.
  - intros Hp. unfold PTC.PTC_CapacityInTP in Hc.
    rewrite (PTC_Capacity_expired m s g _ Hp) in Hc. lra.
  - intros Hb. unfold PTC.PTC_CapacityInTP in Hc.
    rewrite (PTC_Capacity_no_eligible_build m s g _ Hb) in Hc. lra.
Qed.

Lemma ExamplePTC_BLD_YRS_Nuclear :
  Build.BLD_YRS_FOR_GEN_PERIOD ExamplePTC.m "Nuclear"%string 2030%Z
  = [2030%Z].
Proof. eval_build_years. reflexivity. Defined.

Lemma ExamplePTC_BLD_YRS_Wind :
  Build.BLD_YRS_FOR_GEN_PERIOD ExamplePTC.m "Wind"%string 2030%Z
  = [2020%Z; 2030%Z].
Proof. eval_build_years. reflexivity. Defined.

Lemma PTC_credit_limits_witness :
  0 <= ExamplePTC.PTC ("Nuclear"%string, 1%Z)
       <= Rmin (PTC.PTC_CapacityInTP ExamplePTC.m ExamplePTC.s
                  ("Nuclear"%string, 1%Z))
               (DispatchGen ExamplePTC.s ("Nuclear"%string, 1%Z)).
Proof.
  refine (proj1 (PTC_credit_limits ExamplePTC.m ExamplePTC.i ExamplePTC.s
                   ExamplePTC.PTC "Nuclear"%string 1%Z _ _ _ _)).
  - intros [g t] [E | [E | []]]; injection E as <- <-;
      (split; [| split; exact I]);
      unfold NonNegativeReals, ExamplePTC.PTC; simpl; lra.
  - unfold all_satisfied. rewrite Forall_forall. intros [[g t] c] Hin.
    apply Constraint_In in Hin as [Hin Hr]. injection Hr as <-.
    cbn [snd satisfied]. unfold PTC.PTC_CapacityInTP, PTC.PTC_Capacity.
    rewrite ptc_eligible_yrs_filter.
    destruct Hin as [E | [E | []]]; injection E as <- <-.
    + change (tp_period ExamplePTC.m 1%Z) with 2030%Z.
      rewrite ExamplePTC_BLD_YRS_Nuclear. unfold ExamplePTC.PTC. simpl. lra.
    + change (tp_period ExamplePTC.m 1%Z) with 2030%Z.
      rewrite ExamplePTC_BLD_YRS_Wind. unfold ExamplePTC.PTC. simpl. lra.
  - unfold all_satisfied. rewrite Forall_forall. intros [[g t] c] Hin.
    apply Constraint_In in Hin as [Hin Hr]. injection Hr as <-.
    destruct Hin as [E | [E | []]]; injection E as <- <-;
      unfold ExamplePTC.PTC; simpl; lra.
  - simpl. auto.
Defined.

Lemma in_ptc_years_iff (k : period * string) (l : list (period * string)) :
  PTC.in_ptc_years k l = true <-> In k l.
Proof.
  unfold PTC.in_ptc_years. rewrite existsb_exists. split.
  - intros [[p tech] [Hin He]]. destruct k as [p' tech']. simpl in He.
    apply andb_true_iff in He as [H1 H2].
    apply Z.eqb_eq in H1. apply String.eqb_eq in H2. now subst.
  - intros H. exists k. split; [assumption |].
    now rewrite Z.eqb_refl, String.eqb_refl.
Qed.

Lemma sum_terms_all (A : Type) (f : A -> option R) (h : A -> R)
      (l : list A) :
  (forall x, In x l -> f x = Some (h x)) ->
  PTC.sum_terms (map f l) = Some (psum (map h l)).
Proof.
  induction l as [| a l IH]; intros H; simpl; [reflexivity |].
  rewrite (H a (or_introl eq_refl)), IH; [reflexivity |].
  intros x Hx. apply H. now right.
Qed.

Lemma sum_terms_raises (A : Type) (f : A -> option R) (l : list A) :
  (exists x, In x l /\ f x = None) -> PTC.sum_terms (map f l) = None.
Proof.
  induction l as [| a l IH]; intros [x [Hin Hx]]; [contradiction |].
  simpl. destruct (f a) as [v |] eqn:E; [| reflexivity].
  destruct Hin as [-> | Hin]; [congruence |].
  rewrite IH; [reflexivity |]. now exists x.
Qed.

(** X23. The credit of a timepoint, PTC_per_tp. From the 2040 period on
    it is 0 and nothing is looked up. When every credited project of the
    period has a (period, technology) row in ptc_values.csv and an index
    in GEN_TPS, it is minus the sum of PTC times the ptc value over the
    credited projects, so never positive for non-negative values. Before
    2040, a project of the period whose technology has a row for another
    period but none for this one makes the expression raise a KeyError. *)
Theorem PTC_per_tp_outcomes
        (m : model) (i : PTC.inputs) (PTC : gen * timepoint -> R)
        (t : timepoint) :
  ((2040 <= tp_period m t)%Z -> PTC.PTC_per_tp m i PTC t = Some 0)
  /\ ((forall g, In g (PTC.GENS_IN_PERIOD i (tp_period m t)) ->
                 PTC.credited m i t g = true ->
                 In (g, t) (PTC.GEN_TPS i)
                 /\ In (tp_period m t, PTC.gen_tech i g) (PTC.ptc_years i)) ->
      exists v,
        PTC.PTC_per_tp m i PTC t = Some v
        /\ v = - psum (map (fun g =>
                              PTC (g, t)
                              * with_default 0
                                  (PTC.ptc_value i (tp_period m t,
                                                    PTC.gen_tech i g)))
                           (filter (PTC.credited m i t)
                                   (PTC.GENS_IN_PERIOD i (tp_period m t))))
        /\ (PTC.PTC_var i PTC ->
            (forall k x, PTC.ptc_value i k = Some x -> 0 <= x) ->
            v <= 0))
  /\ (forall g p',
         In g (PTC.GENS_IN_PERIOD i (tp_period m t)) ->
         (tp_period m t < 2040)%Z ->
         In (p', PTC.gen_tech i g) (PTC.ptc_years i) ->
         ~ In (tp_period m t, PTC.gen_tech i g) (PTC.ptc_years i) ->
         PTC.PTC_per_tp m i PTC t = None).
Proof.
  split; [| split].
  - intros Hp. unfold PTC.PTC_per_tp. rewrite filter_none; [reflexivity |].
    intros g _. unfold PTC.credited.
    replace (tp_period m t <? 2040)%Z with false by (symmetry; lia).
    apply andb_false_r.
  - intros H.
    set (gens := filter (PTC.credited m i t)
                        (PTC.GENS_IN_PERIOD i (tp_period m t))).
    set (h := fun g => - PTC (g, t)
                       * with_default 0
                           (PTC.ptc_value i (tp_period m t,
                                             PTC.gen_tech i g))).
    assert (Hterm : forall g, In g gens -> PTC.PTC_term m i PTC t g
                                           = Some (h g)).
    { intros g Hg. apply filter_In in Hg as [Hg Hc].
      destruct (H g Hg Hc) as [Htp Hyr].
      unfold PTC.PTC_term, PTC.PTC_at, PTC.ptc_inputs.
      rewrite (proj2 (in_pairs_iff _ _) Htp).
      now rewrite (proj2 (in_ptc_years_iff _ _) Hyr). }
    exists (psum (map h gens)). split; [| split].
    + unfold PTC.PTC_per_tp. fold gens. now apply sum_terms_all.
    + unfold h. clear. induction gens as [| g gens' IH]; simpl; [lra |].
      simpl in IH. rewrite IH. lra.
    + intros Hvar Hval.
      assert (Hle : psum (map h gens) <= psum (map (fun _ => 0) gens)).
      { apply psum_map_le. intros g Hg. apply filter_In in Hg as [Hg Hc].
        destruct (H g Hg Hc) as [Htp _].
        pose proof (proj1 (Hvar (g, t) Htp)) as Hx.
        unfold NonNegativeReals in Hx. unfold h, with_default.
        destruct (PTC.ptc_value i (tp_period m t, PTC.gen_tech i g))
          as [x |] eqn:E.
        - pose proof (Hval _ _ E). nra.
        - lra. }
      now rewrite psum_map_zero in Hle.
  - intros g p' Hg Hp Hrow Hmiss. unfold PTC.PTC_per_tp.
    apply sum_terms_raises. exists g. split.
    + apply filter_In. split; [assumption |]. unfold PTC.credited.
      apply andb_true_iff. split; [| lia].
      apply in_strs_iff. unfold PTC.ptc_techs. apply nodup_In.
      apply in_map_iff. now exists (p', PTC.gen_tech i g).
    + unfold PTC.PTC_term, PTC.ptc_inputs.
      destruct (PTC.in_ptc_years (tp_period m t, PTC.gen_tech i g)
                                 (PTC.ptc_years i)) eqn:E.
      * apply in_ptc_years_iff in E. contradiction.
      * now destruct (PTC.PTC_at i PTC (g, t)).
Qed.

(** ** The cached summation of storage charging *)

Section CachedChargeSummation.

Let entry (d : ChargeSummation.dict) (k : ChargeSummation.key) : list gen :=
  match ChargeSummation.get d k with
  | Some v => v
  | None => []
  end.

Lemma key_eqb_eq (k k' : ChargeSummation.key) :
  ChargeSummation.key_eqb k k' = true <-> k = k'.
Proof.
  unfold ChargeSummation.key_eqb. destruct k as [z t], k' as [z' t'].
  simpl. rewrite andb_true_iff, String.eqb_eq, Z.eqb_eq.
  split; [intros [-> ->]; reflexivity | intros H; now inversion H].
Qed.

Lemma key_eqb_refl (k : ChargeSummation.key) :
  ChargeSummation.key_eqb k k = true.
Proof. now apply key_eqb_eq. Qed.

Lemma key_eqb_neq (k k' : ChargeSummation.key) :
  ChargeSummation.key_eqb k k' = false <-> k <> k'.
Proof.
  rewrite <- key_eqb_eq. now destruct (ChargeSummation.key_eqb k k').
Qed.

Lemma get_cons (k' : ChargeSummation.key) v (d : ChargeSummation.dict) k :
  ChargeSummation.get ((k', v) :: d) k
  = if ChargeSummation.key_eqb k' k then Some v else ChargeSummation.get d k.
Proof.
  unfold ChargeSummation.get. simpl.
  now destruct (ChargeSummation.key_eqb k' k).
Qed.

Lemma get_filter (d : ChargeSummation.dict) k k0 :
  ChargeSummation.get
    (filter (fun kv => negb (ChargeSummation.key_eqb (fst kv) k)) d) k0
  = if ChargeSummation.key_eqb k0 k then None else ChargeSummation.get d k0.
Proof.
  induction d as [| [k' v] d IH].
  - now destruct (ChargeSummation.key_eqb k0 k).
  - cbn [filter fst]. rewrite get_cons.
    destruct (ChargeSummation.key_eqb k' k) eqn:E; cbn [negb].
    + rewrite IH. apply key_eqb_eq in E. subst k'.
      destruct (ChargeSummation.key_eqb k0 k) eqn:E0; [reflexivity |].
      replace (ChargeSummation.key_eqb k k0) with false; [reflexivity |].
      symmetry. apply key_eqb_neq. apply key_eqb_neq in E0. congruence.
    + rewrite get_cons, IH.
      destruct (ChargeSummation.key_eqb k' k0) eqn:E1; [| reflexivity].
      apply key_eqb_eq in E1. subst k0. now rewrite E.
Qed.

(** What a pop returns and what it leaves. *)
Lemma pop_result (d : ChargeSummation.dict) k :
  fst (ChargeSummation.pop d k) = entry d k.
Proof.
  unfold ChargeSummation.pop, entry.
  now destruct (ChargeSummation.get d k).
Qed.

Lemma pop_rest (d : ChargeSummation.dict) k k0 :
  ChargeSummation.get (snd (ChargeSummation.pop d k)) k0
  = if ChargeSummation.key_eqb k0 k then None else ChargeSummation.get d k0.
Proof.
  unfold ChargeSummation.pop.
  destruct (ChargeSummation.get d k) as [v |] eqn:E; cbn [snd].
  - apply get_filter.
  - destruct (ChargeSummation.key_eqb k0 k) eqn:E0; [| reflexivity].
    apply key_eqb_eq in E0. now subst k0.
Qed.

(** What an add leaves at every key. *)
Lemma entry_add (d : ChargeSummation.dict) k g k0 :
  entry (ChargeSummation.add d k g) k0
  = if ChargeSummation.key_eqb k0 k
    then (if in_strs g (entry d k) then entry d k else entry d k ++ [g])
    else entry d k0.
Proof.
  unfold entry. induction d as [| [k' v] d IH].
  - cbn [ChargeSummation.add]. rewrite get_cons.
    destruct (ChargeSummation.key_eqb k0 k) eqn:E.
    + apply key_eqb_eq in E. subst k0. now rewrite key_eqb_refl.
    + replace (ChargeSummation.key_eqb k k0) with false; [reflexivity |].
      symmetry. apply key_eqb_neq. apply key_eqb_neq in E. congruence.
  - cbn [ChargeSummation.add]. rewrite (get_cons k' v d k).
    destruct (ChargeSummation.key_eqb k' k) eqn:E.
    + apply key_eqb_eq in E. subst k'. rewrite !get_cons.
      destruct (ChargeSummation.key_eqb k0 k) eqn:E0.
      * apply key_eqb_eq in E0. subst k0. now rewrite key_eqb_refl.
      * replace (ChargeSummation.key_eqb k k0) with false; [reflexivity |].
        symmetry. apply key_eqb_neq. apply key_eqb_neq in E0. congruence.
    + rewrite !get_cons.
      destruct (ChargeSummation.key_eqb k' k0) eqn:E1.
      * apply key_eqb_eq in E1. subst k0. now rewrite E.
      * exact IH.
Qed.

Lemma entry_add_In (d : ChargeSummation.dict) k g k0 g0 :
  In g0 (entry (ChargeSummation.add d k g) k0)
  <-> In g0 (entry d k0) \/ (k0 = k /\ g0 = g).
Proof.
  rewrite entry_add.
  destruct (ChargeSummation.key_eqb k0 k) eqn:E.
  - apply key_eqb_eq in E. subst k0.
    destruct (in_strs g (entry d k)) eqn:Ein.
    + apply in_strs_iff in Ein. split; [now left |].
      intros [H | [_ ->]]; assumption.
    + rewrite in_app_iff. simpl. split.
      * intros [H | [<- | []]]; [now left | now right].
      * intros [H | [_ ->]]; [now left | right; now left].
  - apply key_eqb_neq in E. split; [now left |].
    intros [H | [H _]]; [assumption | contradiction].
Qed.

Lemma entry_add_NoDup (d : ChargeSummation.dict) k g :
  (forall k0, NoDup (entry d k0)) ->
  forall k0, NoDup (entry (ChargeSummation.add d k g) k0).
Proof.
  intros H k0. rewrite entry_add.
  destruct (ChargeSummation.key_eqb k0 k); [| apply H].
  destruct (in_strs g (entry d k)) eqn:Ein; [apply H |].
  apply NoDup_app; [apply H | repeat constructor; simpl; tauto |].
  intros x Hx [<- | []]. apply in_strs_iff in Hx. congruence.
Qed.

Variable m : model.

(** The dictionary of the first call holds, under (z, t), the storage
    projects of zone z that can run at t, each once. *)
Lemma Storage_Charge_Summation_dict_entry (k0 : ChargeSummation.key) :
  NoDup (entry (ChargeSummation.Storage_Charge_Summation_dict m) k0)
  /\ forall g,
      In g (entry (ChargeSummation.Storage_Charge_Summation_dict m) k0)
      <-> In (g, snd k0) (Storage.STORAGE_GEN_TPS m)
          /\ gen_load_zone m g = fst k0.
Proof.
  unfold ChargeSummation.Storage_Charge_Summation_dict.
  assert (H : forall pairs d,
             (forall k, NoDup (entry d k)) ->
             (forall k, NoDup (entry
                (fold_left (fun d gt =>
                              let '(g, t2) := gt in
                              let z2 := gen_load_zone m g in
                              ChargeSummation.add d (z2, t2) g) pairs d) k))
             /\ forall g,
                 In g (entry
                   (fold_left (fun d gt =>
                                 let '(g, t2) := gt in
                                 let z2 := gen_load_zone m g in
                                 ChargeSummation.add d (z2, t2) g) pairs d) k0)
                 <-> In g (entry d k0)
                     \/ (In (g, snd k0) pairs /\ gen_load_zone m g = fst k0)).
  { induction pairs as [| [g' t'] pairs IH]; intros d Hd.
    - simpl. split; [assumption |]. intros g. tauto.
    - cbn [fold_left].
      destruct (IH (ChargeSummation.add d (gen_load_zone m g', t') g')
                   (entry_add_NoDup d _ g' Hd)) as [Hnd Hin].
      split; [assumption |]. intros g. rewrite Hin, entry_add_In.
      destruct k0 as [z0 t0]. cbn [fst snd In]. split.
      + intros [[H | [E ->]] | [H1 H2]].
        * now left.
        * right. inversion E. auto.
        * right. auto.
      + intros [H | [[E | H1] H2]].
        * left. now left.
        * inversion E. subst. left. right. auto.
        * right. auto. }
  destruct (H (Storage.STORAGE_GEN_TPS m) [] (fun _ => NoDup_nil _))
    as [Hnd Hin].
  split; [apply Hnd |]. intros g. rewrite Hin. simpl. tauto.
Qed.

Variable s : solution.

(** The sum over a popped set is the sum of [Storage.StorageNetCharge]. *)
Lemma first_pop_sum (z : zone) (t : timepoint) :
  psum (map (fun g => ChargeStorage s (g, t))
            (entry (ChargeSummation.Storage_Charge_Summation_dict m) (z, t)))
  = Storage.StorageNetCharge m s z t.
Proof.
  unfold Storage.StorageNetCharge. apply psum_Permutation, Permutation_map.
  destruct (Storage_Charge_Summation_dict_entry (z, t)) as [Hnd Hin].
  apply NoDup_Permutation; [assumption | apply NoDup_nodup |].
  intros g. rewrite Hin. unfold Storage.Storage_Charge_Summation_dict.
  rewrite nodup_In, in_map_iff. cbn [fst snd]. split.
  - intros [H1 H2]. exists (g, t). split; [reflexivity |].
    apply filter_In. split; [assumption |]. cbn [fst snd].
    now rewrite H2, String.eqb_refl, Z.eqb_refl.
  - intros [[g' t'] [E H]]. simpl in E. subst g'.
    apply filter_In in H as [H Hc]. cbn [fst snd] in Hc.
    apply andb_true_iff in Hc as [Hz Ht].
    apply String.eqb_eq in Hz. apply Z.eqb_eq in Ht. now subst.
Qed.

(** Calls on a dictionary that exists. *)
Lemma rule_Some (d : ChargeSummation.dict) (zt : ChargeSummation.key) :
  ChargeSummation.rule m s (Some d) zt
  = (psum (map (fun g => ChargeStorage s (g, snd zt)) (entry d zt)),
     Some (snd (ChargeSummation.pop d zt))).
Proof.
  destruct zt as [z t]. unfold ChargeSummation.rule.
  rewrite <- pop_result. now destruct (ChargeSummation.pop d (z, t)).
Qed.

Lemma rule_None (zt : ChargeSummation.key) :
  ChargeSummation.rule m s None zt
  = ChargeSummation.rule m s
      (Some (ChargeSummation.Storage_Charge_Summation_dict m)) zt.
Proof. reflexivity. Qed.

Lemma rule_each_Some :
  forall index d,
    exists d',
      snd (ChargeSummation.rule_each m s (Some d) index) = Some d'
      /\ (forall k, ChargeSummation.get d' k
                    = if existsb (fun zt => ChargeSummation.key_eqb k zt) index
                      then None else ChargeSummation.get d k)
      /\ (NoDup index ->
          fst (ChargeSummation.rule_each m s (Some d) index)
          = map (fun zt =>
                   (zt, psum (map (fun g => ChargeStorage s (g, snd zt))
                                  (entry d zt)))) index).
Proof.
  induction index as [| zt index IH]; intros d.
  - exists d. simpl. auto.
  - cbn [ChargeSummation.rule_each]. rewrite rule_Some.
    destruct (IH (snd (ChargeSummation.pop d zt))) as [d' [Hs [Hget Hv]]].
    destruct (ChargeSummation.rule_each m s
                (Some (snd (ChargeSummation.pop d zt))) index)
      as [values attribute''] eqn:E.
    cbn [fst snd] in *. exists d'. split; [assumption |]. split.
    + intros k. rewrite Hget, pop_rest. cbn [existsb].
      destruct (ChargeSummation.key_eqb k zt); cbn [orb];
        now destruct (existsb (fun zt0 => ChargeSummation.key_eqb k zt0) index).
    + intros Hnd. apply NoDup_cons_iff in Hnd as [Hfresh Hnd].
      cbn [map]. f_equal. rewrite (Hv Hnd). apply map_ext_in.
      intros k Hk. f_equal. f_equal. unfold entry. rewrite pop_rest.
      replace (ChargeSummation.key_eqb k zt) with false; [reflexivity |].
      symmetry. apply key_eqb_neq. intros ->. contradiction.
Qed.

Lemma rule_each_None zt index :
  ChargeSummation.rule_each m s None (zt :: index)
  = ChargeSummation.rule_each m s
      (Some (ChargeSummation.Storage_Charge_Summation_dict m)) (zt :: index).
Proof. reflexivity. Qed.

(** Any sequence of first calls returns the sums of
    [Storage.StorageNetCharge]. *)
Lemma rule_each_values (index : list ChargeSummation.key) :
  NoDup index ->
  fst (ChargeSummation.rule_each m s None index)
  = map (fun zt => (zt, Storage.StorageNetCharge m s (fst zt) (snd zt)))
        index.
Proof.
  intros Hnd. destruct index as [| zt index]; [reflexivity |].
  rewrite rule_each_None.
  destruct (rule_each_Some (zt :: index)
              (ChargeSummation.Storage_Charge_Summation_dict m))
    as [d' [_ [_ Hv]]].
  rewrite (Hv Hnd). apply map_ext. intros [z t]. cbn [fst snd].
  now rewrite first_pop_sum.
Qed.

(** After its first call the rule finds nothing under an index. *)
Lemma rule_each_popped (index : list ChargeSummation.key) zt :
  In zt index ->
  exists d',
    snd (ChargeSummation.rule_each m s None index) = Some d'
    /\ ChargeSummation.rule m s (Some d') zt = (0, Some d').
Proof.
  intros Hin. destruct index as [| zt0 index]; [contradiction |].
  rewrite rule_each_None.
  destruct (rule_each_Some (zt0 :: index)
              (ChargeSummation.Storage_Charge_Summation_dict m))
    as [d' [Hs [Hget _]]].
  exists d'. split; [assumption |].
  assert (Hnone : ChargeSummation.get d' zt = None).
  { rewrite Hget.
    replace (existsb (fun k => ChargeSummation.key_eqb zt k) (zt0 :: index))
      with true; [reflexivity |].
    symmetry. apply existsb_exists. exists zt.
    split; [assumption | apply key_eqb_refl]. }
  destruct zt as [z t]. unfold ChargeSummation.rule, ChargeSummation.pop.
  now rewrite Hnone.
Qed.

End CachedChargeSummation.

Lemma NoDup_list_prod (A B : Type) (l1 : list A) (l2 : list B) :
  NoDup l1 -> NoDup l2 -> NoDup (list_prod l1 l2).
Proof.
  intros H1 H2. induction l1 as [| a l1 IH]; [constructor |].
  apply NoDup_cons_iff in H1 as [Ha H1]. cbn [list_prod].
  apply NoDup_app.
  - apply Finite.Injective_map_NoDup; [| assumption].
    intros x y E. now inversion E.
  - now apply IH.
  - intros [a' b] Hin Hin'. apply in_map_iff in Hin as [b' [E _]].
    inversion E; subst. apply in_prod_iff in Hin' as [Hin' _].
    contradiction.
Qed.

(** X24. The rule of StorageNetCharge with its cached dictionary, called
    once for every (zone, timepoint) as Pyomo does, returns at each index
    the sum of ChargeStorage over the storage projects of that zone that
    can run at that timepoint: the value of the closed form used for the
    balance. *)
Theorem StorageNetCharge_cached_rule_values (m : model) (s : solution) :
  NoDup (LOAD_ZONES m) -> NoDup (TIMEPOINTS m) ->
  fst (ChargeSummation.StorageNetCharge m s)
  = map (fun zt => (zt, Storage.StorageNetCharge m s (fst zt) (snd zt)))
        (list_prod (LOAD_ZONES m) (TIMEPOINTS m)).
Proof.
  intros Hz Ht. unfold ChargeSummation.StorageNetCharge.
  apply rule_each_values. now apply NoDup_list_prod.
Qed.

Lemma Example_TIMEPOINTS_NoDup : NoDup (TIMEPOINTS Example.m).
Proof.
  simpl. repeat constructor; simpl; intuition discriminate.
Qed.

Lemma StorageNetCharge_cached_rule_values_witness :
  fst (ChargeSummation.StorageNetCharge Example.m Example.s)
  = map (fun zt => (zt, Storage.StorageNetCharge Example.m Example.s
                          (fst zt) (snd zt)))
        (list_prod (LOAD_ZONES Example.m) (TIMEPOINTS Example.m)).
Proof.
  exact (StorageNetCharge_cached_rule_values Example.m Example.s
           Example_LOAD_ZONES_NoDup Example_TIMEPOINTS_NoDup).
Defined.

(** X25. The cache of the StorageNetCharge rule is emptied but never
    deleted: once the expression is built, Storage_Charge_Summation_dict
    is still an attribute of the model, and the rule called again for any
    (zone, timepoint) of the index returns 0, whatever the storage
    projects charge, and leaves the dictionary as it is. *)
Theorem StorageNetCharge_cached_rule_second_call
        (m : model) (s : solution) (z : zone) (t : timepoint) :
  In z (LOAD_ZONES m) -> In t (TIMEPOINTS m) ->
  exists d,
    snd (ChargeSummation.StorageNetCharge m s) = Some d
    /\ ChargeSummation.rule m s (Some d) (z, t) = (0, Some d).
Proof.
  intros Hz Ht. unfold ChargeSummation.StorageNetCharge.
  apply rule_each_popped. apply in_prod_iff. auto.
Qed.

Lemma StorageNetCharge_cached_rule_second_call_witness :
  exists d,
    snd (ChargeSummation.StorageNetCharge Example.m Example.s) = Some d
    /\ ChargeSummation.rule Example.m Example.s (Some d)
         ("North"%string, 1%Z) = (0, Some d).
Proof.
  apply (StorageNetCharge_cached_rule_second_call Example.m Example.s);
    simpl; auto.
Defined.

(** ** The yearly table over all zones *)

Lemma per_year_balance (ns : LoadZones.namespace) (mod_ : LoadZones.ledger)
      (m : model) (r : LoadBalanceReport.report_inputs) cs (z : zone)
      (p : period) fi fw :
  LoadZones.Zone_Energy_Balance ns mod_ m = Done cs ->
  all_satisfied cs ->
  In z (LOAD_ZONES m) ->
  (forall t, In t (TPS_IN_PERIOD m p) -> In t (TIMEPOINTS m)) ->
  LoadZones.resolves ns (LoadZones.Zone_Power_Injections mod_) fi ->
  LoadZones.resolves ns (LoadZones.Zone_Power_Withdrawals mod_) fw ->
  psum (map (fun f => psum (map (fun t => f z t
                                          * LoadBalanceReport.tp_weight_in_year r t)
                                (TPS_IN_PERIOD m p))) fi)
  = psum (map (fun f => psum (map (fun t => f z t
                                            * LoadBalanceReport.tp_weight_in_year r t)
                                  (TPS_IN_PERIOD m p))) fw).
Proof.
  intros Hcs Hsat Hz Hsub Hi Hw.
  rewrite (psum_swap _ _
             (fun f t => f z t * LoadBalanceReport.tp_weight_in_year r t) fi),
    (psum_swap _ _
       (fun f t => f z t * LoadBalanceReport.tp_weight_in_year r t) fw).
  apply psum_map_ext. intros t Ht.
  destruct (balance_at ns mod_ m cs z t Hcs Hsat Hz (Hsub t Ht))
    as [fi' [fw' [Hi' [Hw' Hb]]]].
  rewrite <- (@resolves_functional _ _ _ _ Hi Hi') in Hb.
  rewrite <- (@resolves_functional _ _ _ _ Hw Hw') in Hb.
  rewrite (psum_map_ext _ _
             (fun f => LoadBalanceReport.tp_weight_in_year r t * f z t) fi)
    by (intros; lra).
  rewrite (psum_map_ext _ _
             (fun f => LoadBalanceReport.tp_weight_in_year r t * f z t) fw)
    by (intros; lra).
  rewrite !psum_map_scal. now rewrite Hb.
Qed.

Lemma component_per_year_all_zones_Done (ns : LoadZones.namespace) (m : model)
      (r : LoadBalanceReport.report_inputs) (zones : list zone) (p : period)
      (c : string) f :
  ns c = Some f ->
  LoadBalanceReport.component_per_year_all_zones ns m r zones p c
  = Done (psum (map (fun z =>
                       psum (map (fun t => f z t
                                           * LoadBalanceReport.tp_weight_in_year r t)
                                 (TPS_IN_PERIOD m p))) zones)).
Proof.
  intros Hc. induction zones as [| z zones IH]; [reflexivity |].
  cbn [LoadBalanceReport.component_per_year_all_zones].
  unfold LoadBalanceReport.get_component_per_year, LoadZones.getattr.
  rewrite Hc. cbn [bind]. rewrite IH. reflexivity.
Qed.

Lemma resolves_components_per_year_all_zones (ns : LoadZones.namespace)
      (m : model) (r : LoadBalanceReport.report_inputs) (l : list string) fs
      (p : period) :
  LoadZones.resolves ns l fs ->
  LoadBalanceReport.components_per_year_all_zones ns m r l p
  = Done (map (fun f =>
                 psum (map (fun z =>
                              psum (map (fun t =>
                                           f z t
                                           * LoadBalanceReport.tp_weight_in_year r t)
                                        (TPS_IN_PERIOD m p)))
                           (LOAD_ZONES m))) fs).
Proof.
  induction 1 as [| c f l fs Hc _ IH]; [reflexivity |].
  cbn [LoadBalanceReport.components_per_year_all_zones].
  rewrite (component_per_year_all_zones_Done ns m r _ p c f Hc). cbn [bind].
  rewrite IH. reflexivity.
Qed.

Lemma components_per_year_no_zone (ns : LoadZones.namespace)
      (m : model) (r : LoadBalanceReport.report_inputs) (l : list string)
      (p : period) :
  LOAD_ZONES m = [] ->
  LoadBalanceReport.components_per_year_all_zones ns m r l p
  = Done (map (fun _ => 0) l).
Proof.
  intros Hz. induction l as [| c l IH]; [reflexivity |].
  cbn [LoadBalanceReport.components_per_year_all_zones]. rewrite Hz.
  cbn [LoadBalanceReport.component_per_year_all_zones bind].
  rewrite IH. reflexivity.
Qed.

(** X26. In load_balance_annual.csv, for a solution that satisfies the
    balance constraint of a model with at least one timepoint, the row of
    a period has as many cells as the table has headings, and its term
    columns (each the weighted yearly sum of a registered term over all
    load zones, withdrawals negated) sum to zero. *)
Theorem load_balance_annual_row_sums_to_zero
        (ns : LoadZones.namespace) (mod_ : LoadZones.ledger) (m : model)
        (r : LoadBalanceReport.report_inputs) cs (p : period) :
  LoadZones.Zone_Energy_Balance ns mod_ m = Done cs ->
  all_satisfied cs ->
  TIMEPOINTS m <> [] ->
  (forall t, In t (TPS_IN_PERIOD m p) -> In t (TIMEPOINTS m)) ->
  exists row,
    LoadBalanceReport.load_balance_annual_values ns mod_ m r p = Done row /\
    List.length row
    = List.length (LoadBalanceReport.load_balance_annual_headings mod_) /\
    LoadBalanceReport.columns_total 1 row = 0.
Proof.
  intros Hcs Hsat Hne Hsub.
  unfold LoadBalanceReport.load_balance_annual_values,
    LoadBalanceReport.load_balance_annual_headings.
  destruct (LOAD_ZONES m) as [| z0 zs] eqn:Ez.
  - rewrite !(components_per_year_no_zone ns m r _ p Ez). cbn [bind].
    eexists. split; [reflexivity |]. split.
    + cbn [app List.length]. now rewrite !length_app, !length_map.
    + unfold LoadBalanceReport.columns_total. cbn [app skipn].
      rewrite term_columns_total, !psum_map_zero. lra.
  - destruct (TIMEPOINTS m) as [| t0 ts0] eqn:Etp; [contradiction |].
    assert (Hz0 : In z0 (LOAD_ZONES m)) by (rewrite Ez; now left).
    assert (Ht0 : In t0 (TIMEPOINTS m)) by (rewrite Etp; now left).
    destruct (balance_at ns mod_ m cs z0 t0 Hcs Hsat Hz0 Ht0)
      as [fi [fw [Hi [Hw _]]]].
    rewrite (resolves_components_per_year_all_zones ns m r _ fi p Hi).
    cbn [bind].
    rewrite (resolves_components_per_year_all_zones ns m r _ fw p Hw).
    cbn [bind].
    eexists. split; [reflexivity |]. split.
    + cbn [app List.length]. rewrite !length_app, !length_map.
      now rewrite (resolves_length ns _ fi Hi), (resolves_length ns _ fw Hw).
    + unfold LoadBalanceReport.columns_total. cbn [app skipn].
      rewrite term_columns_total.
      rewrite (psum_swap _ _
                 (fun f z => psum (map (fun t =>
                                          f z t
                                          * LoadBalanceReport.tp_weight_in_year r t)
                                       (TPS_IN_PERIOD m p))) fi),
        (psum_swap _ _
           (fun f z => psum (map (fun t =>
                                    f z t
                                    * LoadBalanceReport.tp_weight_in_year r t)
                                 (TPS_IN_PERIOD m p))) fw).
      assert (Heq : forall z, In z (LOAD_ZONES m) ->
                psum (map (fun f =>
                             psum (map (fun t =>
                                          f z t
                                          * LoadBalanceReport.tp_weight_in_year r t)
                                       (TPS_IN_PERIOD m p))) fi)
                = psum (map (fun f =>
                               psum (map (fun t =>
                                            f z t
                                            * LoadBalanceReport.tp_weight_in_year r t)
                                         (TPS_IN_PERIOD m p))) fw)).
      { intros z Hz.
        apply (per_year_balance ns mod_ m r cs z p fi fw); try assumption.
        intros t Ht. rewrite Etp. now apply Hsub. }
      rewrite (psum_map_ext _ _ _ _ Heq). lra.
Qed.

Lemma load_balance_annual_row_sums_to_zero_witness :
  exists row,
    LoadBalanceReport.load_balance_annual_values
      Example.ns Example.ledger Example.m
      {| LoadBalanceReport.tp_timestamp := fun _ => "2020010100"%string;
         LoadBalanceReport.tp_weight_in_year := fun _ => 4380;
         LoadBalanceReport.normalized_energy_balance_dual := fun _ _ => 30 |}
      2020%Z = Done row /\
    LoadBalanceReport.columns_total 1 row = 0.
Proof.
  destruct Example_Zone_Energy_Balance as [cs [Hcs Hsat]].
  destruct (load_balance_annual_row_sums_to_zero
              Example.ns Example.ledger Example.m
              {| LoadBalanceReport.tp_timestamp := fun _ => "2020010100"%string;
                 LoadBalanceReport.tp_weight_in_year := fun _ => 4380;
                 LoadBalanceReport.normalized_energy_balance_dual := fun _ _ => 30 |}
              cs 2020%Z Hcs Hsat)
    as [row [Hrow [_ Hz]]].
  - simpl. discriminate.
  - intros t Ht. exact Ht.
  - exists row. auto.
Defined.

(** ** Fixed costs of generation *)

Lemma psum_map_sandwich (A : Type) (x rate : A -> R) (lo hi : R) (l : list A) :
  (forall a, In a l -> 0 <= x a) ->
  (forall a, In a l -> lo <= rate a <= hi) ->
  lo * psum (map x l) <= psum (map (fun a => x a * rate a) l)
  <= hi * psum (map x l).
Proof.
  induction l as [| a l IH]; intros Hx Hr; simpl; [lra |].
  assert (Ha : 0 <= x a) by (apply Hx; now left).
  assert (Hra : lo <= rate a <= hi) by (apply Hr; now left).
  assert (Hl : lo * psum (map x l) <= psum (map (fun a => x a * rate a) l)
               <= hi * psum (map x l)).
  { apply IH; intros; [apply Hx | apply Hr]; now right. }
  nra.
Qed.

Lemma psum_filter_zero (A : Type) (f : A -> R) (c : A -> bool) (l : list A) :
  (forall a, In a l -> c a = false -> f a = 0) ->
  psum (map f l) = psum (map f (filter c l)).
Proof.
  induction l as [| a l IH]; intros H; simpl; [reflexivity |].
  rewrite IH by (intros; apply H; [now right | assumption]).
  destruct (c a) eqn:E; simpl; [reflexivity |].
  rewrite (H a (or_introl eq_refl) E). lra.
Qed.

(** X27. Fixed costs are charged on the capacity that operates, and on
    nothing else: with BuildGen in its domain and the gen_fixed_om of
    every build year of g operating in p between lo and hi,
    GenFixedOMCosts[g, p] lies between lo * GenCapacity[g, p] and
    hi * GenCapacity[g, p]; the same holds for GenCapitalCosts and the
    annual capital cost; and TotalGenFixedCosts[p] is the sum of both
    over the projects that have p among their PERIODS_FOR_GEN, the other
    projects adding nothing. *)
Theorem fixed_costs_follow_operating_capacity
        (m : model) (c : BuildCosts.inputs) (s : solution) (p : period) :
  Build.BuildGen_var m s ->
  (forall g lo hi,
      (forall b, In b (Build.BLD_YRS_FOR_GEN_PERIOD m g p) ->
                 lo <= BuildCosts.gen_fixed_om c (g, b) <= hi) ->
      lo * Build.GenCapacity m s (g, p)
      <= BuildCosts.GenFixedOMCosts m c s (g, p)
      <= hi * Build.GenCapacity m s (g, p))
  /\ (forall g lo hi,
         (forall b, In b (Build.BLD_YRS_FOR_GEN_PERIOD m g p) ->
                    lo <= BuildCosts.gen_capital_cost_annual m c (g, b) <= hi) ->
         lo * Build.GenCapacity m s (g, p)
         <= BuildCosts.GenCapitalCosts m c s (g, p)
         <= hi * Build.GenCapacity m s (g, p))
  /\ (In p (PERIODS m) ->
      BuildCosts.TotalGenFixedCosts m c s p
      = psum (map (fun g => BuildCosts.GenCapitalCosts m c s (g, p)
                            + BuildCosts.GenFixedOMCosts m c s (g, p))
                  (filter (fun g => in_Zs p (Build.PERIODS_FOR_GEN m g))
                          (GENERATION_PROJECTS m)))).
Proof.
  intros Hvar.
  assert (Hx : forall g b, In b (Build.BLD_YRS_FOR_GEN_PERIOD m g p) ->
                           0 <= BuildGen s (g, b)).
  { intros g b Hb. apply BLD_YRS_FOR_GEN_PERIOD_In in Hb as [Hb _].
    exact (proj1 (Hvar (g, b) Hb)). }
  split; [| split].
  - intros g lo hi Hr. unfold BuildCosts.GenFixedOMCosts, Build.GenCapacity.
    apply (psum_map_sandwich _ (fun b => BuildGen s (g, b))
             (fun b => BuildCosts.gen_fixed_om c (g, b)));
      [apply Hx | assumption].
  - intros g lo hi Hr. unfold BuildCosts.GenCapitalCosts, Build.GenCapacity.
    apply (psum_map_sandwich _ (fun b => BuildGen s (g, b))
             (fun b => BuildCosts.gen_capital_cost_annual m c (g, b)));
      [apply Hx | assumption].
  - intros Hp. unfold BuildCosts.TotalGenFixedCosts.
    apply psum_filter_zero. intros g _ Hn.
    assert (E : Build.BLD_YRS_FOR_GEN_PERIOD m g p = []).
    { destruct (Build.BLD_YRS_FOR_GEN_PERIOD m g p) as [| b l] eqn:E;
        [reflexivity |].
      exfalso. apply not_true_iff_false in Hn. apply Hn.
      apply in_Zs_iff. unfold Build.PERIODS_FOR_GEN. apply filter_In.
      split; [assumption |]. now rewrite E. }
    unfold BuildCosts.GenCapitalCosts, BuildCosts.GenFixedOMCosts.
    rewrite E. simpl. lra.
Qed.

Lemma fixed_costs_follow_operating_capacity_witness :
  2 * Build.GenCapacity Example.m Example.s ("Nuclear"%string, 2030%Z)
  <= BuildCosts.GenFixedOMCosts Example.m
       {| BuildCosts.gen_connect_cost_per_mw := fun _ => 100;
          BuildCosts.gen_overnight_cost := fun _ => 1000;
          BuildCosts.gen_fixed_om := fun _ => 2;
          BuildCosts.interest_rate := 0.07;
          BuildCosts.crf := fun _ _ => 0.1 |}
       Example.s ("Nuclear"%string, 2030%Z)
  <= 2 * Build.GenCapacity Example.m Example.s ("Nuclear"%string, 2030%Z).
Proof.
  apply (proj1 (fixed_costs_follow_operating_capacity Example.m
                  {| BuildCosts.gen_connect_cost_per_mw := fun _ => 100;
                     BuildCosts.gen_overnight_cost := fun _ => 1000;
                     BuildCosts.gen_fixed_om := fun _ => 2;
                     BuildCosts.interest_rate := 0.07;
                     BuildCosts.crf := fun _ _ => 0.1 |}
                  Example.s 2030%Z Example_BuildGen_var)).
  intros b _. simpl. lra.
Defined.

(** ** Projects by energy source *)

Section EnergySourceFacts.

Let table (h : string -> list gen) (ks : list string) : ConstructionDict.dict :=
  map (fun k => (k, h k)) ks.

Let attribute_of h (ks : list string) : option ConstructionDict.dict :=
  match ks with
  | [] => None
  | _ :: _ => Some (table h ks)
  end.

Lemma append_table h ks k g :
  NoDup ks -> In k ks ->
  ConstructionDict.append (table h ks) k g
  = Some (table (fun k' => if String.eqb k' k then h k ++ [g] else h k') ks).
Proof.
  intros Hnd Hin. unfold ConstructionDict.append.
  pose proof (get_table_In h ks k Hin) as Hg. cbv beta zeta in Hg.
  pose proof (set_table h ks k (h k ++ [g]) Hnd Hin) as Hs.
  cbv beta zeta in Hs. unfold table. now rewrite Hg, Hs.
Qed.

Lemma append_each_table ks g :
  NoDup ks ->
  forall fuels h,
    NoDup fuels -> (forall f, In f fuels -> In f ks) ->
    EnergySources.append_each (table h ks) fuels g
    = Some (table (fun k => h k ++ (if in_strs k fuels then [g] else [])) ks).
Proof.
  intros Hks. induction fuels as [| f fuels IH]; intros h Hnd Hin.
  - simpl. f_equal. unfold table. apply map_ext. intros k.
    now rewrite app_nil_r.
  - apply NoDup_cons_iff in Hnd as [Hf Hnd].
    cbn [EnergySources.append_each].
    rewrite (append_table h ks f g Hks (Hin f (or_introl eq_refl))).
    rewrite IH by (auto; intros; apply Hin; now right).
    f_equal. unfold table. apply map_ext. intros k.
    destruct (String.eqb k f) eqn:E.
    + apply String.eqb_eq in E. subst k.
      rewrite (proj2 (in_strs_iff f (f :: fuels)) (or_introl eq_refl)).
      destruct (in_strs f fuels) eqn:E'.
      * apply in_strs_iff in E'. contradiction.
      * now rewrite app_nil_r.
    + destruct (in_strs k fuels) eqn:E'.
      * apply in_strs_iff in E'.
        now rewrite (proj2 (in_strs_iff k (f :: fuels)) (or_intror E')).
      * destruct (in_strs k (f :: fuels)) eqn:E''; [| reflexivity].
        apply in_strs_iff in E''. destruct E'' as [-> | H].
        -- rewrite String.eqb_refl in E. discriminate.
        -- apply in_strs_iff in H. congruence.
Qed.

Variable m : model.
Variable i : EnergySources.inputs.

Lemma fill_step (d : ConstructionDict.dict) g :
  (if in_strs g (EnergySources.FUEL_BASED_GENS m i)
   then EnergySources.append_each d (EnergySources.FUELS_FOR_GEN m i g) g
   else ConstructionDict.append d (EnergySources.gen_energy_source i g) g)
  = EnergySources.append_each d (EnergySources.sources_of m i g) g.
Proof.
  unfold EnergySources.sources_of.
  destruct (in_strs g (EnergySources.FUEL_BASED_GENS m i)); [reflexivity |].
  simpl. now destruct (ConstructionDict.append d _ g).
Qed.

Lemma sources_of_NoDup g : NoDup (EnergySources.sources_of m i g).
Proof.
  unfold EnergySources.sources_of, EnergySources.FUELS_FOR_GEN.
  destruct (in_strs g (EnergySources.FUEL_BASED_GENS m i)).
  - apply NoDup_nodup.
  - repeat constructor. simpl. tauto.
Qed.

Lemma energy_fill_table ks :
  NoDup ks ->
  forall gens h,
    (forall g, In g gens ->
               forall f, In f (EnergySources.sources_of m i g) -> In f ks) ->
    EnergySources.fill m i gens (table h ks)
    = Some (table (fun k => h k
                            ++ filter (fun g =>
                                         in_strs k (EnergySources.sources_of m i g))
                                      gens) ks).
Proof.
  intros Hks. induction gens as [| g gens IH]; intros h Hin.
  - simpl. f_equal. unfold table. apply map_ext. intros k.
    now rewrite app_nil_r.
  - cbn [EnergySources.fill]. rewrite fill_step.
    rewrite (append_each_table ks g Hks _ h (sources_of_NoDup g)
               (Hin g (or_introl eq_refl))).
    rewrite IH by (intros g' Hg'; apply Hin; now right).
    f_equal. unfold table. apply map_ext. intros k. cbn [filter].
    destruct (in_strs k (EnergySources.sources_of m i g)).
    + now rewrite <- app_assoc.
    + now rewrite app_nil_r.
Qed.

Lemma energy_each_table h :
  forall index ks,
    ks <> [] -> NoDup index -> (forall k, In k index -> In k ks) ->
    EnergySources.GENS_BY_ENERGY_SOURCE_each m i (Some (table h ks)) index
    = Some (table h index,
            attribute_of h (filter (fun k => negb (in_strs k index)) ks)).
Proof.
  induction index as [| k index IH]; intros ks Hne Hnd Hin.
  - cbn [EnergySources.GENS_BY_ENERGY_SOURCE_each table map].
    assert (Hall : filter (fun k => negb (in_strs k [])) ks = ks).
    { clear. induction ks as [| a l IHl]; [reflexivity |].
      cbn [filter]. unfold in_strs at 1. cbn [existsb negb]. now f_equal. }
    rewrite Hall. destruct ks; [contradiction | reflexivity].
  - cbn [EnergySources.GENS_BY_ENERGY_SOURCE_each].
    unfold EnergySources.GENS_BY_ENERGY_SOURCE_init.
    pose proof (pop_table h ks k (Hin k (or_introl eq_refl))) as Hpop.
    cbv beta zeta in Hpop. unfold table at 1. rewrite Hpop.
    fold (table h (filter (fun k' => negb (String.eqb k' k)) ks)).
    replace (match table h (filter (fun k' => negb (String.eqb k' k)) ks) with
             | [] => None
             | _ :: _ =>
                 Some (table h (filter (fun k' => negb (String.eqb k' k)) ks))
             end)
      with (attribute_of h (filter (fun k' => negb (String.eqb k' k)) ks))
      by (now destruct (filter (fun k' => negb (String.eqb k' k)) ks)).
    remember (filter (fun k' => negb (String.eqb k' k)) ks) as ks' eqn:Eks.
    assert (Hfilter : filter (fun k0 => negb (in_strs k0 (k :: index))) ks
                      = filter (fun k0 => negb (in_strs k0 index)) ks').
    { rewrite Eks, <- filter_andb. apply filter_ext. intros a.
      unfold in_strs. simpl. now rewrite negb_orb, andb_comm. }
    apply NoDup_cons_iff in Hnd as [Hk Hnd'].
    assert (Hin' : forall k0, In k0 index -> In k0 ks').
    { intros k0 H0. rewrite Eks. apply filter_In.
      split; [apply Hin; now right |].
      apply negb_true_iff, String.eqb_neq. intros ->. contradiction. }
    rewrite Hfilter. clear Hfilter Eks.
    destruct ks' as [| k1 ks1].
    + destruct index as [| k0 index']; [| destruct (Hin' k0 (or_introl eq_refl))].
      reflexivity.
    + cbn [attribute_of].
      rewrite (IH (k1 :: ks1)) by (auto; discriminate).
      reflexivity.
Qed.

Lemma GENS_BY_ENERGY_SOURCE_table :
  NoDup (EnergySources.ENERGY_SOURCES i) ->
  (forall g, In g (GENERATION_PROJECTS m) ->
             forall f, In f (EnergySources.sources_of m i g) ->
                       In f (EnergySources.ENERGY_SOURCES i)) ->
  EnergySources.GENS_BY_ENERGY_SOURCE m i
  = Some (table (fun e => filter (fun g =>
                                    in_strs e (EnergySources.sources_of m i g))
                                 (GENERATION_PROJECTS m))
                (EnergySources.ENERGY_SOURCES i),
          None).
Proof.
  intros Hnd Hin. unfold EnergySources.GENS_BY_ENERGY_SOURCE.
  assert (Hfill : EnergySources.fill m i (GENERATION_PROJECTS m)
                    (ConstructionDict.empty_lists
                       (EnergySources.ENERGY_SOURCES i))
                  = Some (table (fun e =>
                                   filter (fun g =>
                                             in_strs e
                                               (EnergySources.sources_of m i g))
                                          (GENERATION_PROJECTS m))
                                (EnergySources.ENERGY_SOURCES i))).
  { pose proof (empty_lists_table (EnergySources.ENERGY_SOURCES i) Hnd) as He.
    cbv beta zeta in He. rewrite He.
    fold (table (fun _ => []) (EnergySources.ENERGY_SOURCES i)).
    rewrite (energy_fill_table _ Hnd _ _ Hin). reflexivity. }
  assert (H : forall index,
             index = EnergySources.ENERGY_SOURCES i ->
             EnergySources.GENS_BY_ENERGY_SOURCE_each m i None index
             = Some (table (fun e =>
                              filter (fun g =>
                                        in_strs e
                                          (EnergySources.sources_of m i g))
                                     (GENERATION_PROJECTS m)) index, None)).
  { intros [| k index] Heq; [reflexivity |].
    cbn [EnergySources.GENS_BY_ENERGY_SOURCE_each].
    unfold EnergySources.GENS_BY_ENERGY_SOURCE_init. rewrite Hfill.
    pose proof (energy_each_table
                  (fun e => filter (fun g =>
                                      in_strs e
                                        (EnergySources.sources_of m i g))
                                   (GENERATION_PROJECTS m))
                  (k :: index) (EnergySources.ENERGY_SOURCES i)) as He.
    cbn [EnergySources.GENS_BY_ENERGY_SOURCE_each] in He.
    unfold EnergySources.GENS_BY_ENERGY_SOURCE_init in He.
    rewrite He.
    - rewrite Heq, filter_all_visited. reflexivity.
    - rewrite <- Heq. discriminate.
    - now rewrite Heq.
    - intros k0 H0. now rewrite <- Heq. }
  exact (H _ eq_refl).
Qed.

End EnergySourceFacts.

Lemma in_MULTIFUEL_GENS (m : model) (i : EnergySources.inputs) g :
  In g (GENERATION_PROJECTS m) ->
  in_strs g (EnergySources.MULTIFUEL_GENS m i)
  = String.eqb (EnergySources.gen_energy_source i g) "multiple".
Proof.
  intros Hg. unfold EnergySources.MULTIFUEL_GENS.
  destruct (String.eqb (EnergySources.gen_energy_source i g) "multiple") eqn:E.
  - apply in_strs_iff, filter_In. auto.
  - apply not_true_iff_false. intros H. apply in_strs_iff, filter_In in H.
    destruct H as [_ H]. congruence.
Qed.

Lemma in_FUEL_BASED_GENS (m : model) (i : EnergySources.inputs) g :
  In g (GENERATION_PROJECTS m) ->
  in_strs g (EnergySources.FUEL_BASED_GENS m i)
  = EnergySources.gen_uses_fuel i g.
Proof.
  intros Hg. unfold EnergySources.FUEL_BASED_GENS.
  destruct (EnergySources.gen_uses_fuel i g) eqn:E.
  - apply in_strs_iff, filter_In. auto.
  - apply not_true_iff_false. intros H. apply in_strs_iff, filter_In in H.
    destruct H as [_ H]. congruence.
Qed.

(** The energy sources a project is filed under: its fuels when its
    energy source is "multiple", its energy source otherwise. *)
Lemma sources_of_In (m : model) (i : EnergySources.inputs) g e :
  In g (GENERATION_PROJECTS m) ->
  In e (EnergySources.sources_of m i g)
  <-> if String.eqb (EnergySources.gen_energy_source i g) "multiple"
      then In e (EnergySources.FUELS_FOR_MULTIFUEL_GEN i g)
      else EnergySources.gen_energy_source i g = e.
Proof.
  intros Hg. unfold EnergySources.sources_of, EnergySources.FUELS_FOR_GEN.
  rewrite (in_FUEL_BASED_GENS m i g Hg), (in_MULTIFUEL_GENS m i g Hg).
  unfold EnergySources.gen_uses_fuel.
  destruct (String.eqb (EnergySources.gen_energy_source i g) "multiple").
  - rewrite orb_true_r. apply nodup_In.
  - rewrite orb_false_r.
    destruct (in_strs (EnergySources.gen_energy_source i g)
                      (EnergySources.FUELS i)); simpl; tauto.
Qed.

(** X28. With distinct energy sources that include the fuels, the fuels
    of every multi-fuel project among the fuels, and the energy source of
    every project that uses no fuel among the energy sources, building
    GENS_BY_ENERGY_SOURCE raises no KeyError, gives one set per energy
    source and deletes GENS_BY_ENERGY_dict; a project whose energy source
    is "multiple" is in the set of each of its fuels and in no other, and
    any other project is in the set of its own energy source only. *)
Theorem GENS_BY_ENERGY_SOURCE_files_projects
        (m : model) (i : EnergySources.inputs) :
  NoDup (EnergySources.ENERGY_SOURCES i) ->
  (forall f, In f (EnergySources.FUELS i) ->
             In f (EnergySources.ENERGY_SOURCES i)) ->
  (forall g, In g (GENERATION_PROJECTS m) ->
             EnergySources.gen_energy_source i g = "multiple"%string ->
             forall f, In f (EnergySources.FUELS_FOR_MULTIFUEL_GEN i g) ->
                       In f (EnergySources.FUELS i)) ->
  (forall g, In g (GENERATION_PROJECTS m) ->
             EnergySources.gen_uses_fuel i g = false ->
             In (EnergySources.gen_energy_source i g)
                (EnergySources.ENERGY_SOURCES i)) ->
  exists sets,
    EnergySources.GENS_BY_ENERGY_SOURCE m i = Some (sets, None)
    /\ map fst sets = EnergySources.ENERGY_SOURCES i
    /\ forall e gs,
        In (e, gs) sets ->
        forall g,
          In g gs
          <-> In g (GENERATION_PROJECTS m)
              /\ (if String.eqb (EnergySources.gen_energy_source i g)
                                "multiple"
                  then In e (EnergySources.FUELS_FOR_MULTIFUEL_GEN i g)
                  else EnergySources.gen_energy_source i g = e).
Proof.
  intros Hnd Hfuels Hmulti Hnon.
  assert (Hin : forall g, In g (GENERATION_PROJECTS m) ->
                  forall f, In f (EnergySources.sources_of m i g) ->
                            In f (EnergySources.ENERGY_SOURCES i)).
  { intros g Hg f Hf. apply (sources_of_In m i g f Hg) in Hf.
    destruct (String.eqb (EnergySources.gen_energy_source i g) "multiple")
      eqn:E.
    - apply String.eqb_eq in E. apply Hfuels. exact (Hmulti g Hg E f Hf).
    - subst f.
      destruct (EnergySources.gen_uses_fuel i g) eqn:Eu;
        [| now apply Hnon].
      unfold EnergySources.gen_uses_fuel in Eu. rewrite E, orb_false_r in Eu.
      apply Hfuels. now apply in_strs_iff. }
  pose proof (GENS_BY_ENERGY_SOURCE_table m i Hnd Hin) as H.
  cbv beta zeta in H. eexists. split; [exact H |]. split.
  - rewrite map_map. cbn [fst]. apply map_id.
  - intros e gs He g. apply in_map_iff in He as [e' [Heq _]].
    inversion Heq; subst e' gs; clear Heq.
    rewrite filter_In. split.
    + intros [Hg Hs]. split; [assumption |].
      apply in_strs_iff in Hs. now apply (sources_of_In m i g e Hg).
    + intros [Hg Hs]. split; [assumption |].
      apply in_strs_iff. now apply (sources_of_In m i g e Hg).
Qed.

Lemma GENS_BY_ENERGY_SOURCE_files_projects_witness :
  exists sets,
    EnergySources.GENS_BY_ENERGY_SOURCE Example.m ExampleEnergy.i
    = Some (sets, None)
    /\ map fst sets = EnergySources.ENERGY_SOURCES ExampleEnergy.i.
Proof.
  destruct (GENS_BY_ENERGY_SOURCE_files_projects Example.m ExampleEnergy.i)
    as [sets [H1 [H2 _]]].
  - simpl. repeat constructor; simpl; intuition discriminate.
  - simpl. intuition.
  - simpl. intros g _ _ f Hf. intuition.
  - simpl. intros g [<- | [<- | [<- | [<- | []]]]] H;
      vm_compute in H; try discriminate; simpl; auto 6.
  - exists sets. auto.
Defined.
